(** * sphirio-systems / clix: banks, the reference resolver and the plugin kernel

    A shallow embedding of [scripted_core.hpp] and [scripted_kernel.hpp], and
    of the editing commands of [scripted.cpp].

    - A [std::string] is a list of 8-bit characters ([list ascii]); string
      literals of the source are written [str "..."].
    - A [long long] is a [Z] kept in the signed 64-bit range; arithmetic that
      can leave the range is wrapped with [wrap64] (two's complement, as the
      overflow test [v < 0] of [parseIntBase] presupposes).
    - [std::map<long long, T>] is [gmap Z T]; where the source iterates over a
      map the model iterates over its entries in ascending key order.
    - [std::unordered_set<string>] is [gset (list ascii)].
    - The file system is a finite map from absolute path strings to nodes,
      with the behaviour of POSIX and libstdc++: looking up a name that is
      too long throws, a directory can be opened for reading and the read
      throws; the resolver reads it, the plugin kernel updates it.
    - A [std::regex] search is a function that matches the pattern at the
      start of a text, and one loop that tries it at every position.
    - The resolver threads the workspace through its calls (it loads banks on
      demand) and returns an outcome: a value, an exception, or the end of
      the recursion budget the model gives it. *)

From Stdlib Require Import ZArith Ascii String Lia.
From Stdlib Require DecimalString DecimalPos.
From stdpp Require Import base option list sorting gmap strings.

Local Open Scope Z_scope.

(** ** Characters and strings *)

Abbreviation text := (list ascii).

Definition str (s : string) : text := list_ascii_of_string s.

Definition code (c : ascii) : Z := Z.of_N (N_of_ascii c).
Definition chr (z : Z) : ascii := ascii_of_N (Z.to_N z).

(** [std::isspace] in the "C" locale. *)
Definition isspace (c : ascii) : bool :=
  let z := code c in ((9 <=? z) && (z <=? 13)) || (z =? 32).

(** [std::isalnum] in the "C" locale; also the regex class [[0-9A-Za-z]]. *)
Definition isalnum (c : ascii) : bool :=
  let z := code c in
  ((48 <=? z) && (z <=? 57)) || ((65 <=? z) && (z <=? 90)) || ((97 <=? z) && (z <=? 122)).

(** The regex class [[A-Za-z]]. *)
Definition isalpha (c : ascii) : bool :=
  let z := code c in ((65 <=? z) && (z <=? 90)) || ((97 <=? z) && (z <=? 122)).

(** The regex class [\d]. *)
Definition isdigit (c : ascii) : bool :=
  let z := code c in (48 <=? z) && (z <=? 57).

Definition eqc (a b : ascii) : bool := Ascii.eqb a b.
Arguments eqc : simpl never.

(** The part of a list that starts at its first element failing [p]. *)
Fixpoint dropwhile {A} (p : A → bool) (l : list A) : list A :=
  match l with
  | x :: l' => if p x then dropwhile p l' else l
  | [] => []
  end.

(** [trim]: erase leading and trailing [isspace] characters. *)
Definition ltrim (s : text) : text := dropwhile isspace s.

Definition trim (s : text) : text := reverse (ltrim (reverse (ltrim s))).

(** ** Integers in a configurable base *)

Definition LLONG_MAX : Z := 2 ^ 63 - 1.
Definition LLONG_MIN : Z := - 2 ^ 63.

Definition wrap64 (z : Z) : Z := (z + 2 ^ 63) mod 2 ^ 64 - 2 ^ 63.

Definition digitValue (c : ascii) : Z :=
  let z := code c in
  if (code "0" <=? z) && (z <=? code "9") then z - code "0"
  else if (code "A" <=? z) && (z <=? code "Z") then 10 + (z - code "A")
  else if (code "a" <=? z) && (z <=? code "z") then 10 + (z - code "a")
  else -1.

(** The body of the [for (char c : s)] loop of [parseIntBase], [v] being the
    accumulator; [None] is [return false]. *)
Fixpoint parseIntBase_loop (s : text) (base v : Z) : option Z :=
  match s with
  | [] => Some v
  | c :: s' =>
      let d := digitValue c in
      if (d <? 0) || (base <=? d) then None
      else
        let v' := wrap64 (v * base + d) in
        if v' <? 0 then None else parseIntBase_loop s' base v'
  end.

Definition parseIntBase (s : text) (base : Z) : option Z :=
  match s with
  | [] => None
  | _ => parseIntBase_loop s base 0
  end.

Definition digitChar (d : Z) : ascii :=
  if d <? 10 then chr (code "0" + d) else chr (code "a" + (d - 10)).

(** The [while (val > 0)] loop of [toBaseN]; [s] is the string built so far,
    least significant digit first.  A positive [long long] has at most 63
    digits in any base from 2 on, so [toBaseN] runs it with 64 steps. *)
Fixpoint toBaseN_loop (fuel : nat) (val base : Z) (s : text) : text :=
  match fuel with
  | O => s
  | S f =>
      if 0 <? val then
        let d := Z.rem val base in
        toBaseN_loop f (Z.quot val base) base (s ++ [digitChar d])
      else s
  end.

Definition toBaseN (val base width : Z) : text :=
  let base := if (base <? 2) || (36 <? base) then 10 else base in
  if val =? 0 then replicate (Z.to_nat (Z.max 1 width)) "0"%char
  else
    let neg := val <? 0 in
    let val := if neg then wrap64 (- val) else val in
    let s := toBaseN_loop 64 val base [] in
    let s := if neg then s ++ ["-"%char] else s in
    let s := reverse s in
    if (0 <? width) && (Z.of_nat (length s) <? width)
    then replicate (Z.to_nat (width - Z.of_nat (length s))) "0"%char ++ s
    else s.

(** [std::to_string(long long)]. *)
Definition to_string (z : Z) : text :=
  str (DecimalString.NilZero.string_of_int (Z.to_int z)).

(** ** Configuration and the store *)

Definition TAB : ascii := "009"%char.
Definition LF : ascii := "010"%char.
Definition CR : ascii := "013"%char.
Definition DQ : ascii := "034"%char.

Record Config := {
  cfg_prefix : ascii;
  cfg_base : Z;
  widthBank : Z;
  widthReg : Z;
  widthAddr : Z
}.

Definition defaultConfig : Config :=
  {| cfg_prefix := "x"%char; cfg_base := 10; widthBank := 5; widthReg := 2; widthAddr := 4 |}.

(** [struct Bank]: [regs] maps a register to its address-to-value map. *)
Record Bank := {
  bank_id : Z;
  bank_title : text;
  regs : gmap Z (gmap Z text)
}.

(** A default-constructed [Bank]. *)
Definition emptyBank : Bank := {| bank_id := 0; bank_title := []; regs := ∅ |}.

Record Workspace := {
  banks : gmap Z Bank;
  filenames : gmap Z text
}.

(** The value stored at (register, address) of a bank, if any. *)
Definition cell (b : Bank) (r a : Z) : option text :=
  regs b !! r ≫= λ addrs, addrs !! a.

(** [outBank.regs[r][a] = val]. *)
Definition setCell (rs : gmap Z (gmap Z text)) (r a : Z) (val : text) : gmap Z (gmap Z text) :=
  <[r := <[a := val]> (default ∅ (rs !! r))]> rs.

(** The entries of a [std::map] in iteration order (ascending keys). *)
Definition key_le {A} (x y : Z * A) : Prop := x.1 ≤ y.1.

#[global] Instance key_le_dec {A} : RelDecision (@key_le A).
Proof. intros x y. unfold key_le. apply _. Defined.

Definition entries {A} (m : gmap Z A) : list (Z * A) :=
  merge_sort key_le (map_to_list m).

(** ** Parsing and writing a bank file *)

Inductive ParseResult :=
  | ParseOk (b : Bank)
  | ParseErr (err : text).

Definition strip_bom (content : text) : text :=
  match content with
  | c0 :: c1 :: c2 :: rest =>
      if (code c0 =? 239) && (code c1 =? 187) && (code c2 =? 191) then rest else content
  | _ => content
  end.

(** [while (std::getline(is, line)) lines.push_back(line)]: the pieces between
    newlines; a final piece is a line only when it is not empty. *)
Fixpoint getlines (s : text) : list text :=
  match s with
  | [] => []
  | c :: s' =>
      if eqc c LF then [] :: getlines s'
      else match getlines s' with
           | [] => [[c]]
           | l :: ls => (c :: l) :: ls
           end
  end.

Definition contains (c : ascii) (s : text) : bool := existsb (eqc c) s.

(** [s.find(c)] and [s.rfind(c)]; [None] is [npos]. *)
Fixpoint find (c : ascii) (s : text) : option nat :=
  match s with
  | [] => None
  | d :: s' => if eqc d c then Some O else S <$> find c s'
  end.

Fixpoint rfind (c : ascii) (s : text) : option nat :=
  match s with
  | [] => None
  | d :: s' =>
      match rfind c s' with
      | Some i => Some (S i)
      | None => if eqc d c then Some O else None
      end
  end.

Definition substr (s : text) (pos n : nat) : text := take n (drop pos s).

Definition isblank (l : text) : bool := bool_decide (trim l = []).

(** The header accumulation loop: lines are appended, trimmed and separated by
    a space, until the accumulated text holds an opening brace. *)
Fixpoint accumHeader (acc : text) (ls : list text) : text :=
  if contains "{" acc then acc
  else match ls with
       | [] => acc
       | l :: ls' => accumHeader (acc ++ " "%char :: trim l) ls'
       end.

Definition isindent (c : ascii) : bool := eqc c TAB || eqc c " ".

(** [while (!t.empty() && (t[0]=='\t' || t[0]==' ')) t.erase(t.begin())]. *)
Definition stripIndent (t : text) : text := dropwhile isindent t.

(** The loop over the body lines; the state is the current register and the
    registers filled so far. *)
Fixpoint parseBody (base : Z) (ls : list text) (currentReg : Z)
    (rs : gmap Z (gmap Z text)) : text + gmap Z (gmap Z text) :=
  match ls with
  | [] => inr rs
  | s :: ls' =>
      if contains "}" s then inr rs
      else if isblank s then parseBody base ls' currentReg rs
      else
        match s with
        | c :: _ =>
            if negb (isindent c) then
              match parseIntBase (trim s) base with
              | None => inl (str "invalid register line: " ++ trim s)
              | Some regId => parseBody base ls' regId rs
              end
            else
              let t := stripIndent s in
              let sep := match find TAB t with Some i => Some i | None => find " " t end in
              let '(addrTok, val) :=
                match sep with
                | None => (trim t, [])
                | Some i => (trim (substr t 0 i), drop (S i) t)
                end in
              match parseIntBase addrTok base with
              | None => inl (str "invalid address id: " ++ addrTok)
              | Some addrId => parseBody base ls' currentReg (setCell rs currentReg addrId val)
              end
        | [] => parseBody base ls' currentReg rs
        end
  end.

(** [parseBankText].  The source returns a [ParseResult] and fills [outBank];
    on failure no caller reads [outBank], so the model returns the bank only
    on success. *)
Definition parseBankText (txt : text) (cfg : Config) : ParseResult :=
  let content := strip_bom txt in
  let lines := getlines content in
  match lines with
  | [] => ParseErr (str "empty file")
  | _ =>
    match dropwhile isblank lines with
    | [] => ParseErr (str "no header found")
    | l0 :: rest =>
      let header := trim l0 in
      let headerAccum := accumHeader header rest in
      if negb (contains "{" headerAccum) then ParseErr (str "missing '{' after header")
      else
        match find "(" headerAccum, rfind ")" headerAccum with
        | Some lp, Some rp =>
          if (rp <? lp)%nat then ParseErr (str "malformed header: parentheses")
          else
            let left := trim (substr headerAccum 0 lp) in
            let title := trim (substr headerAccum (S lp) (rp - lp - 1)) in
            let left :=
              match left with
              | c :: left' => if eqc c (cfg_prefix cfg) then left' else left
              | [] => left
              end in
            match parseIntBase left (cfg_base cfg) with
            | None => ParseErr (str "cannot parse bank id")
            | Some bankId =>
              match dropwhile (λ l, negb (contains "{" l)) (l0 :: rest) with
              | [] => ParseErr (str "missing body start")
              | _ :: body =>
                match parseBody (cfg_base cfg) body 1 ∅ with
                | inl err => ParseErr err
                | inr rs => ParseOk {| bank_id := bankId; bank_title := title; regs := rs |}
                end
              end
            end
        | _, _ => ParseErr (str "malformed header: parentheses")
        end
    end
  end.

Definition addrLine (cfg : Config) (e : Z * text) : text :=
  TAB :: toBaseN e.1 (cfg_base cfg) (widthAddr cfg) ++ TAB :: e.2 ++ [LF].

Definition addrLines (cfg : Config) (addrs : gmap Z text) : text :=
  concat (addrLine cfg <$> entries addrs).

Definition regBlock (cfg : Config) (e : Z * gmap Z text) : text :=
  toBaseN e.1 (cfg_base cfg) (widthReg cfg) ++ LF :: addrLines cfg e.2.

(** [b.regs.size() > 1 || (b.regs.size() == 1 && b.regs.begin()->first != 1)]. *)
Definition isMulti (rs : gmap Z (gmap Z text)) : bool :=
  match entries rs with
  | [] => false
  | [e] => negb (e.1 =? 1)
  | _ => true
  end.

Definition writeBankText (b : Bank) (cfg : Config) : text :=
  let bankStr := cfg_prefix cfg :: toBaseN (bank_id b) (cfg_base cfg) (widthBank cfg) in
  bankStr ++ TAB :: "("%char :: bank_title b ++ str "){" ++ LF ::
  (if isMulti (regs b) then concat (regBlock cfg <$> entries (regs b))
   else match regs b !! 1 with
        | Some addrs => addrLines cfg addrs
        | None => []
        end)
  ++ "}"%char :: [LF].

(** ** Outcomes

    A call returns a value, or throws, or does not return within the
    recursion budget it was given.  A call that gives [OutOfFuel] for every
    budget is a call that never returns. *)

Inductive exn := out_of_range | regex_error | filesystem_error | ios_failure.

Inductive res (A : Type) :=
  | Ret (a : A)
  | Throw (e : exn)
  | OutOfFuel.
Arguments Ret {A} a.
Arguments Throw {A} e.
Arguments OutOfFuel {A}.

(** ** The file system

    Paths are POSIX path strings.  The file system maps the absolute path of
    every existing file or directory to its node; a relative path is taken
    from the working directory [cwd].  Paths are compared as written (no
    resolution of [.], [..], repeated separators or links). *)

Inductive node :=
  | Dir
  | File (readable writable : bool) (content : text).

Abbreviation FS := (gmap text node).

Definition isAbsolute (p : text) : bool :=
  match p with
  | c :: _ => eqc c "/"
  | [] => false
  end.

(** [a / b] of [std::filesystem::path]. *)
Definition path_join (a b : text) : text :=
  if isAbsolute b then b else a ++ "/"%char :: b.

(** The path itself and every proper ancestor of it, outermost first. *)
Fixpoint dir_chain (pre rest : text) : list text :=
  match rest with
  | [] => match pre with [] => [] | _ => [pre] end
  | c :: r =>
      (if eqc c "/" then match pre with [] => [] | _ => [pre] end else [])
      ++ dir_chain (pre ++ [c]) r
  end.

(** [p.parent_path()]. *)
Definition parent_path (p : text) : text :=
  match rfind "/" p with
  | Some O => str "/"
  | Some i => take i p
  | None => []
  end.

(** [p.filename()]. *)
Definition filename (p : text) : text :=
  match rfind "/" p with
  | Some i => drop (S i) p
  | None => p
  end.

(** The limits of the platform on the length of a file name and of a path
    (the latter counts the terminating zero byte). *)
Definition NAME_MAX : nat := 255.
Definition PATH_MAX : nat := 4096.

Definition is_directory (fs : FS) (d : text) : bool :=
  match fs !! d with
  | Some Dir => true
  | Some (File _ _ _) => false
  | None => bool_decide (d = str "/")
  end.

Section FileSystem.
Variable cwd : text.

(** [fs::absolute]; [cwd] is the working directory, an absolute path. *)
Definition absolute (p : text) : text :=
  if isAbsolute p then p else path_join cwd p.

(** Looking [p] up fails with [ENAMETOOLONG] when [p] has [PATH_MAX] bytes
    or more, or when the walk along [p] gets to a component of more than
    [NAME_MAX] bytes, that is when the directory holding the first such
    component exists.  (A component that is missing or is a file ends the
    walk before: not found.) *)
Definition name_too_long (fs : FS) (p : text) : bool :=
  (PATH_MAX <=? length p)%nat
  || match List.find (λ d, (NAME_MAX <? length (filename d))%nat)
             (dir_chain [] (absolute p)) with
     | Some d => is_directory fs (parent_path d)
     | None => false
     end.

(** [fs::exists]: it throws [filesystem_error] when the status of the path
    cannot be determined. *)
Definition fs_exists (fs : FS) (p : text) : res bool :=
  if name_too_long fs p then Throw filesystem_error
  else Ret (bool_decide (is_Some (fs !! absolute p))).

(** Opening [std::ifstream in(p)] and reading the whole stream through
    [std::istreambuf_iterator]: [Ret None] when the stream cannot be
    opened.  A directory can be opened; reading from it fails, and the
    stream buffer throws [std::ios_base::failure]. *)
Definition fs_read (fs : FS) (p : text) : res (option text) :=
  match fs !! absolute p with
  | Some (File true _ c) => Ret (Some c)
  | Some (File false _ _) => Ret None
  | Some Dir => Throw ios_failure
  | None => Ret None
  end.
End FileSystem.

Definition contextFileName (cfg : Config) (bankId : Z) : text :=
  path_join (str "files")
    (cfg_prefix cfg :: toBaseN bankId (cfg_base cfg) (widthBank cfg) ++ str ".txt").

(** [loadContextFile]: the bank, or the error message. *)
Definition loadContextFile (cwd : text) (cfg : Config) (fs : FS) (file : text)
    : res (text + Bank) :=
  match fs_exists cwd fs file with
  | Ret false => Ret (inl (str "file not found: " ++ file))
  | Ret true =>
      match fs_read cwd fs file with
      | Ret None => Ret (inl (str "cannot open: " ++ file))
      | Ret (Some txt) =>
          match parseBankText txt cfg with
          | ParseErr err => Ret (inl err)
          | ParseOk b => Ret (inr b)
          end
      | Throw e => Throw e
      | OutOfFuel => OutOfFuel
      end
  | Throw e => Throw e
  | OutOfFuel => OutOfFuel
  end.

(** [ensureBankLoadedInWorkspace]: [None] is [return true], [Some err] is
    [return false] with the message left in [err]. *)
Definition ensureBankLoadedInWorkspace (cwd : text) (cfg : Config) (fs : FS)
    (ws : Workspace) (bankId : Z) : res (option text) * Workspace :=
  match banks ws !! bankId with
  | Some _ => (Ret None, ws)
  | None =>
      let file := contextFileName cfg bankId in
      match fs_exists cwd fs file with
      | Ret false => (Ret (Some (str "missing context file: " ++ file)), ws)
      | Ret true =>
          match loadContextFile cwd cfg fs file with
          | Ret (inl err) => (Ret (Some err), ws)
          | Ret (inr b) =>
              (Ret None, {| banks := <[bankId := b]> (banks ws);
                            filenames := <[bankId := file]> (filenames ws) |})
          | Throw e => (Throw e, ws)
          | OutOfFuel => (OutOfFuel, ws)
          end
      | Throw e => (Throw e, ws)
      | OutOfFuel => (OutOfFuel, ws)
      end
  end.

(** Computations of the resolver: they read and may extend the workspace. *)
Definition M (A : Type) : Type := Workspace → res A * Workspace.

Definition ret {A} (a : A) : M A := λ ws, (Ret a, ws).
Definition throw {A} (e : exn) : M A := λ ws, (Throw e, ws).
Definition bind {A B} (m : M A) (k : A → M B) : M B := λ ws,
  match m ws with
  | (Ret a, ws') => k a ws'
  | (Throw e, ws') => (Throw e, ws')
  | (OutOfFuel, ws') => (OutOfFuel, ws')
  end.

Notation "'let*' x ':=' c 'in' k" := (bind c (λ x, k))
  (at level 10, x name, c at level 100, k at level 200).

(** ** Regular-expression searches

    [smatch] holds the matched text [m[0]] and the capture groups. *)
Record smatch := { m0 : text; m1 : text; m2 : text; m3 : text }.

Fixpoint takewhile {A} (p : A → bool) (l : list A) : list A :=
  match l with
  | x :: l' => if p x then x :: takewhile p l' else []
  | [] => []
  end.

Fixpoint strip_prefix (lit s : text) : option text :=
  match lit, s with
  | [], _ => Some s
  | c :: lit', d :: s' => if eqc c d then strip_prefix lit' s' else None
  | _ :: _, [] => None
  end.

(** A non-empty run of [p] characters followed by a dot: the run and the text
    after the dot.  A greedy [[...]+] before [\.] can only stop at the end of
    the run when [p] excludes the dot. *)
Definition run_dot (p : ascii → bool) (s : text) : option (text * text) :=
  match takewhile p s, dropwhile p s with
  | (_ :: _) as a, c :: rest => if eqc c "." then Some (a, rest) else None
  | _, _ => None
  end.

(** [@file\(([^)]+)\)] at the start of [s]. *)
Definition match_file (s : text) : option smatch :=
  match strip_prefix (str "@file(") s with
  | None => None
  | Some rest =>
      let notrp := λ c, negb (eqc c ")") in
      match takewhile notrp rest, dropwhile notrp rest with
      | (_ :: _) as name, _ :: _ =>
          Some {| m0 := str "@file(" ++ name ++ [")"%char]; m1 := name; m2 := []; m3 := [] |}
      | _, _ => None
      end
  end.

(** [r([0-9A-Za-z]+)\.([0-9A-Za-z]+)] at the start of [s]. *)
Definition match_same (s : text) : option smatch :=
  match s with
  | c :: s1 =>
      if eqc c "r" then
        match run_dot isalnum s1 with
        | Some (a, s2) =>
            match takewhile isalnum s2 with
            | (_ :: _) as b => Some {| m0 := c :: a ++ "."%char :: b; m1 := a; m2 := b; m3 := [] |}
            | [] => None
            end
        | None => None
        end
      else None
  | [] => None
  end.

(** [<p>([0-9A-Za-z]+)\.([0-9A-Za-z]+)\.([0-9A-Za-z]+)] at the start of [s],
    for a prefix [p] that is an ordinary pattern character. *)
Definition match_pref3 (p : ascii) (s : text) : option smatch :=
  match s with
  | c :: s1 =>
      if eqc c p then
        match run_dot isalnum s1 with
        | Some (a, s2) =>
            match run_dot isalnum s2 with
            | Some (b, s3) =>
                match takewhile isalnum s3 with
                | (_ :: _) as d =>
                    Some {| m0 := c :: a ++ "."%char :: b ++ "."%char :: d;
                            m1 := a; m2 := b; m3 := d |}
                | [] => None
                end
            | None => None
            end
        | None => None
        end
      else None
  | [] => None
  end.

(** [.([0-9A-Za-z]+)\.([0-9A-Za-z]+)\.([0-9A-Za-z]+)] at the start of [s]:
    the pattern built from the prefix [.], which stands for any character
    that is not a line terminator. *)
Definition match_any3 (s : text) : option smatch :=
  match s with
  | c :: _ => if eqc c LF || eqc c CR then None else match_pref3 c s
  | [] => None
  end.

(** [([0-9A-Za-z]+)\.([0-9A-Za-z]+)\.([0-9A-Za-z]+)] at the start of [s]:
    what the pattern built from the prefix [^] matches, at the start of the
    searched text only. *)
Definition match_bol3 (s : text) : option smatch :=
  match run_dot isalnum s with
  | Some (a, s2) =>
      match run_dot isalnum s2 with
      | Some (b, s3) =>
          match takewhile isalnum s3 with
          | (_ :: _) as d =>
              Some {| m0 := a ++ "."%char :: b ++ "."%char :: d; m1 := a; m2 := b; m3 := d |}
          | [] => None
          end
      | None => None
      end
  | None => None
  end.

(** [([A-Za-z])([0-9A-Za-z]+)\.([0-9A-Za-z]+)(?!\.)] at the start of [s].
    When the last run is followed by a dot the lookahead fails and the greedy
    group gives back one character: the lookahead then sees that character,
    which is not a dot.  A run of one character cannot give any back. *)
Definition match_two (s : text) : option smatch :=
  match s with
  | c :: s1 =>
      if isalpha c then
        match run_dot isalnum s1 with
        | Some (a, s2) =>
            let b := takewhile isalnum s2 in
            let b' :=
              match dropwhile isalnum s2 with
              | d :: _ => if eqc d "." then removelast b else b
              | [] => b
              end in
            match b' with
            | _ :: _ => Some {| m0 := c :: a ++ "."%char :: b'; m1 := [c]; m2 := a; m3 := b' |}
            | [] => None
            end
        | None => None
        end
      else None
  | [] => None
  end.

(** [(\d+)\.(\d+)\.(\d+)] at the start of [s]. *)
Definition match_tri (s : text) : option smatch :=
  match run_dot isdigit s with
  | Some (a, s2) =>
      match run_dot isdigit s2 with
      | Some (b, s3) =>
          match takewhile isdigit s3 with
          | (_ :: _) as d =>
              Some {| m0 := a ++ "."%char :: b ++ "."%char :: d; m1 := a; m2 := b; m3 := d |}
          | [] => None
          end
      | None => None
      end
  | None => None
  end.

(** The search-and-replace loop shared by the five passes:
    [while (regex_search(searchStart, end, m, re))] copies the text before the
    leftmost match, appends what the handler [h] makes of the match, and goes
    on after the match; the tail is copied at the end.  [mt] is the pattern
    tried at one position, [prev] the character before the position, and
    [skip] the number of characters of the last match still to be passed. *)
Fixpoint regex_replace (mt : text → option smatch) (h : option ascii → smatch → M text)
    (prev : option ascii) (skip : nat) (s : text) : M text :=
  match s with
  | [] => ret []
  | c :: s' =>
      match skip with
      | S k => regex_replace mt h (Some c) k s'
      | O =>
          match mt s with
          | Some m =>
              let* r := h prev m in
              let* rest := regex_replace mt h (Some c) (length (m0 m) - 1) s' in
              ret (r ++ rest)
          | None =>
              let* rest := regex_replace mt h (Some c) 0 s' in
              ret (c :: rest)
          end
      end
  end.

(** The matches one search loop finds in [s], leftmost first, each with the
    text copied before it and the character before it; and the tail copied
    after the last match. *)
Fixpoint find_matches (mt : text → option smatch) (prev : option ascii) (skip : nat)
    (s : text) : list (text * option ascii * smatch) * text :=
  match s with
  | [] => ([], [])
  | c :: s' =>
      match skip with
      | S k => find_matches mt (Some c) k s'
      | O =>
          match mt s with
          | Some m =>
              let '(ms, tl) := find_matches mt (Some c) (length (m0 m) - 1) s' in
              (([], prev, m) :: ms, tl)
          | None =>
              match find_matches mt (Some c) 0 s' with
              | ([], tl) => ([], c :: tl)
              | ((pre, p, m) :: ms, tl) => ((c :: pre, p, m) :: ms, tl)
              end
          end
      end
  end.

(** The output of a search loop from its matches: every match is replaced by
    what the handler makes of it, in order. *)
Fixpoint replace_all (h : option ascii → smatch → M text)
    (ms : list (text * option ascii * smatch)) (tl : text) : M text :=
  match ms with
  | [] => ret tl
  | (pre, p, m) :: ms' =>
      let* r := h p m in
      let* rest := replace_all h ms' tl in
      ret (pre ++ r ++ rest)
  end.

(** A character that stands for itself at the start of an ECMAScript
    pattern: any character but [^ $ \ . * + ? ( ) [ { |]. *)
Definition regex_ordinary (c : ascii) : bool :=
  negb (existsb (eqc c) (str "^$\.*+?()[{|")).

(** [std::stoll] on a string of decimal digits. *)
Definition stoll (s : text) : res Z :=
  let v := fold_left (λ v c, v * 10 + digitValue c) s 0 in
  if v <=? LLONG_MAX then Ret v else Throw out_of_range.

(** ** The resolver *)

Section Resolver.
Variable cwd : text.
Variable cfg : Config.
Variable fs : FS.

Definition getValue (bank reg addr : Z) : M (option text) :=
  let* _ := (λ ws, ensureBankLoadedInWorkspace cwd cfg fs ws bank) in
  λ ws, (Ret (banks ws !! bank ≫= λ b, cell b reg addr), ws).

Definition getValueTwoPart (bank addr : Z) : M (option text) :=
  let* _ := (λ ws, ensureBankLoadedInWorkspace cwd cfg fs ws bank) in
  getValue bank 1 addr.

Definition includeFile (name : text) : res text :=
  let p := path_join (str "files") name in
  match fs_exists cwd fs p with
  | Ret false => Ret (str "[Missing file: " ++ name ++ str "]")
  | Ret true =>
      match fs_read cwd fs p with
      | Ret None => Ret (str "[Cannot open file: " ++ name ++ str "]")
      | Ret (Some c) => Ret c
      | Throw e => Throw e
      | OutOfFuel => OutOfFuel
      end
  | Throw e => Throw e
  | OutOfFuel => OutOfFuel
  end.

(** What every cell-reference pass does with a well-formed token: report a
    key that is visited, or a missing cell, or resolve the cell's raw value
    with the key added to a copy of the visited set. *)
Definition expand (rec : text → Z → gset text → M text) (visited : gset text)
    (lookup : M (option text)) (key token : text) (bank : Z) : M text :=
  if decide (key ∈ visited) then ret (str "[Circular Ref: " ++ token ++ str "]")
  else
    let* v := lookup in
    match v with
    | None => ret (str "[Missing " ++ token ++ str "]")
    | Some v => rec v bank ({[key]} ∪ visited)
    end.

Definition filePass (s : text) : M text :=
  regex_replace match_file (λ _ m ws, (includeFile (trim (m1 m)), ws)) None 0 s.

Section Passes.
Variable rec : text → Z → gset text → M text.
Variable currentBank : Z.
Variable visited : gset text.

Definition sameHandler (m : smatch) : M text :=
  match parseIntBase (m1 m) (cfg_base cfg), parseIntBase (m2 m) (cfg_base cfg) with
  | Some r, Some a =>
      let key := to_string currentBank ++ "."%char :: to_string r ++ "."%char :: to_string a in
      expand rec visited (getValue currentBank r a) key (m0 m) currentBank
  | _, _ => ret (str "[BadRef " ++ m0 m ++ str "]")
  end.

Definition pref3Handler (m : smatch) : M text :=
  match parseIntBase (m1 m) (cfg_base cfg), parseIntBase (m2 m) (cfg_base cfg),
        parseIntBase (m3 m) (cfg_base cfg) with
  | Some b, Some r, Some a =>
      let key := cfg_prefix cfg :: m1 m ++ "."%char :: m2 m ++ "."%char :: m3 m in
      expand rec visited (getValue b r a) key (m0 m) b
  | _, _, _ => ret (m0 m)
  end.

Definition twoHandler (m : smatch) : M text :=
  match m1 m with
  | pf :: _ =>
      if negb (eqc pf (cfg_prefix cfg)) then ret (m0 m)
      else
        match parseIntBase (m2 m) (cfg_base cfg), parseIntBase (m3 m) (cfg_base cfg) with
        | Some b, Some a =>
            let key := pf :: m2 m ++ "."%char :: m3 m in
            expand rec visited (getValueTwoPart b a) key (m0 m) b
        | _, _ => ret (str "[BadRef " ++ m0 m ++ str "]")
        end
  | [] => ret (m0 m)
  end.

Definition triHandler (prev : option ascii) (m : smatch) : M text :=
  if match prev with Some c => isalnum c | None => false end then ret (m0 m)
  else
    match stoll (m1 m) with
    | Ret b =>
        match stoll (m2 m) with
        | Ret r =>
            match stoll (m3 m) with
            | Ret a =>
                let key := to_string b ++ "."%char :: to_string r ++ "."%char :: to_string a in
                expand rec visited (getValue b r a) key (m0 m) b
            | _ => throw out_of_range
            end
        | _ => throw out_of_range
        end
    | _ => throw out_of_range
    end.

Definition samePass (s : text) : M text :=
  regex_replace match_same (λ _, sameHandler) None 0 s.

(** The pattern of this pass is built from the configured prefix.  An
    ordinary character stands for itself.  Of the others,
    - [.] matches any character but a line terminator;
    - [^] matches at the start of the searched text only: the loop finds
      a token at the very start of [s] or none, and none after it, since
      the character after a token is not alphanumeric;
    - [$] matches at the end only, where no token can follow: the loop
      finds nothing;
    - [|] makes the empty text an alternative: every search matches the
      empty text where it starts, nothing is appended and the loop never
      advances, so that the call does not return;
    - [\ * + ? ( ) [ {] make the constructor of [std::regex] throw. *)
Definition pref3Pass (s : text) : M text :=
  if regex_ordinary (cfg_prefix cfg)
  then regex_replace (match_pref3 (cfg_prefix cfg)) (λ _, pref3Handler) None 0 s
  else if eqc (cfg_prefix cfg) "."
  then regex_replace match_any3 (λ _, pref3Handler) None 0 s
  else if eqc (cfg_prefix cfg) "^"
  then match match_bol3 s with
       | Some m => let* r := pref3Handler m in ret (r ++ drop (length (m0 m)) s)
       | None => ret s
       end
  else if eqc (cfg_prefix cfg) "$" then ret s
  else if eqc (cfg_prefix cfg) "|" then λ ws, (OutOfFuel, ws)
  else throw regex_error.

Definition twoPass (s : text) : M text :=
  regex_replace match_two (λ _, twoHandler) None 0 s.

Definition triPass (s : text) : M text :=
  regex_replace match_tri triHandler None 0 s.

(** The four cell-reference passes, each over the output of the one
    before. *)
Definition cellPasses (s : text) : M text :=
  let* s := samePass s in
  let* s := pref3Pass s in
  let* s := twoPass s in
  triPass s.
End Passes.

(** [Resolver::resolve].  [fuel] bounds the depth of the recursion. *)
Fixpoint resolve (fuel : nat) (input : text) (currentBank : Z) (visited : gset text) : M text :=
  match fuel with
  | O => λ ws, (OutOfFuel, ws)
  | S f =>
      let* s := filePass input in
      cellPasses (resolve f) currentBank visited s
  end.
End Resolver.

(** ** File-system updates used by the plugin kernel *)


Section FileSystemUpdates.
Variable cwd : text.

(** One step of [fs::create_directories]: the directory [d] is there, or
    is created; the call throws when [d] is a file, or has a name that is
    too long. *)
Definition create_directory (acc : res unit * FS) (d : text) : res unit * FS :=
  match acc with
  | (Ret _, fs) =>
      match fs !! d with
      | Some Dir => (Ret (), fs)
      | Some (File _ _ _) => (Throw filesystem_error, fs)
      | None =>
          if (NAME_MAX <? length (filename d))%nat then (Throw filesystem_error, fs)
          else (Ret (), <[d := Dir]> fs)
      end
  | _ => acc
  end.

(** [fs::create_directories(p)]: every missing directory on the way is
    created, outermost first.  The call throws [filesystem_error] for the
    empty path and for a path of [PATH_MAX] bytes or more, with nothing
    created; and at the first component that is a file or has too long a
    name, with the directories before it created. *)
Definition create_directories (fs : FS) (p : text) : res unit * FS :=
  match p with
  | [] => (Throw filesystem_error, fs)
  | _ =>
      if (PATH_MAX <=? length p)%nat then (Throw filesystem_error, fs)
      else foldl create_directory (Ret (), fs) (dir_chain [] (absolute cwd p))
  end.

(** [readTextFile]: [Ret (Some contents)], or [Ret None] for
    [return false]; reading a directory throws. *)
Definition readTextFile (fs : FS) (p : text) : res (option text) := fs_read cwd fs p.

(** [writeTextFile]: the returned flag and the file system; an exception
    of [create_directories] propagates.  The stream cannot be opened when
    the path names a directory or a file that is not writable, when it has
    no file name, or when the name is too long. *)
Definition writeTextFile (fs : FS) (p s : text) : res bool * FS :=
  match create_directories fs (parent_path p) with
  | (Ret _, fs1) =>
      if name_too_long cwd fs1 p then (Ret false, fs1)
      else
        match filename p with
        | [] => (Ret false, fs1)
        | _ =>
            match fs1 !! absolute cwd p with
            | None => (Ret true, <[absolute cwd p := File true true s]> fs1)
            | Some (File r true _) => (Ret true, <[absolute cwd p := File r true s]> fs1)
            | Some _ => (Ret false, fs1)
            end
        end
  | (Throw e, fs1) => (Throw e, fs1)
  | (OutOfFuel, fs1) => (OutOfFuel, fs1)
  end.
End FileSystemUpdates.

Definition hexDigitUpper (d : Z) : ascii :=
  if d <? 10 then chr (code "0" + d) else chr (code "A" + (d - 10)).

Definition jsonEscapeChar (c : ascii) : text :=
  let z := code c in
  if z =? 92 then str "\\"
  else if z =? 34 then "\"%char :: [DQ]
  else if z =? 8 then str "\b"
  else if z =? 12 then str "\f"
  else if z =? 10 then str "\n"
  else if z =? 13 then str "\r"
  else if z =? 9 then str "\t"
  else if z <? 32 then str "\u00" ++ [hexDigitUpper (z / 16); hexDigitUpper (z mod 16)]
  else [c].

Definition jsonEscape (s : text) : text := concat (jsonEscapeChar <$> s).

(** ** The plugin kernel *)

Record PluginManifest := {
  pm_name : text;
  entry_win : text;
  entry_lin : text;
  pm_dir : text
}.

(** What a call of [Kernel::run] touches: the workspace, the file system, and
    the commands handed to [std::system] so far. *)
Record KState := {
  k_ws : Workspace;
  k_fs : FS;
  k_calls : list text
}.

(** The returned flag and the two output parameters; [out_json] is [None]
    when the caller's string is left as it was. *)
Record RunResult := {
  run_ok : bool;
  out_json : option text;
  out_report : text
}.

Definition failure (report : text) : RunResult :=
  {| run_ok := false; out_json := None; out_report := report |}.

Definition quoted (s : text) : text := DQ :: s ++ [DQ].

Section Kernel.
Variable cwd : text.
Variable cfg : Config.
(** The platform the header is compiled for. *)
Variable kWindows : bool.
(** [std::system]: the value it returns and the file system the command
    leaves behind.  On POSIX the value is the wait status of the shell, not
    the exit code of the child. *)
Variable system : text → FS → Z * FS.
Variable plugins : list PluginManifest.

Definition find_plugin (name : text) : option PluginManifest :=
  list_find (λ p, pm_name p = name) plugins ≫= λ ip, Some ip.2.

(** [ws.banks[bank]]: a missing bank is inserted, default-constructed. *)
Definition bank_at (ws : Workspace) (bank : Z) : Bank * Workspace :=
  match banks ws !! bank with
  | Some b => (b, ws)
  | None => (emptyBank, {| banks := <[bank := emptyBank]> (banks ws); filenames := filenames ws |})
  end.

Definition inputJson (bankStr regStr addrStr title codeFile stdin_json : text) : text :=
  str "{" ++ [LF] ++
  str "  " ++ quoted (str "bank") ++ str ": " ++ quoted (jsonEscape bankStr) ++ str "," ++ [LF] ++
  str "  " ++ quoted (str "reg") ++ str ": " ++ quoted (jsonEscape regStr) ++ str "," ++ [LF] ++
  str "  " ++ quoted (str "addr") ++ str ": " ++ quoted (jsonEscape addrStr) ++ str "," ++ [LF] ++
  str "  " ++ quoted (str "title") ++ str ": " ++ quoted (jsonEscape title) ++ str "," ++ [LF] ++
  str "  " ++ quoted (str "code_file") ++ str ": " ++ quoted (jsonEscape codeFile) ++ str "," ++ [LF] ++
  str "  " ++ quoted (str "stdin") ++ str ": " ++
    (match stdin_json with [] => str "{}" | _ => stdin_json end) ++ [LF] ++
  str "}" ++ [LF].

Definition outdirOf (name : text) (bank reg addr : Z) : text :=
  let bankStr := cfg_prefix cfg :: toBaseN bank (cfg_base cfg) (widthBank cfg) in
  let regStr := toBaseN reg (cfg_base cfg) (widthReg cfg) in
  let addrStr := toBaseN addr (cfg_base cfg) (widthAddr cfg) in
  path_join (path_join (path_join (str "files/out/plugins") bankStr)
               ("r"%char :: regStr ++ "a"%char :: addrStr)) name.

Definition entryOf (P : PluginManifest) : text :=
  if kWindows then entry_win P else entry_lin P.

Definition entryPathOf (P : PluginManifest) : text :=
  absolute cwd (path_join (pm_dir P) (entryOf P)).

Definition innerCommand (entryPath inputFile absOutdir logFile errFile : text) : text :=
  quoted entryPath ++ str " " ++ quoted inputFile ++ str " " ++ quoted absOutdir ++
  str " > " ++ quoted logFile ++ str " 2> " ++ quoted errFile.

(** The report of a run whose plugin left no [output.json]. *)
Definition noOutputReport (ec : Z) (errtxt : text) : text :=
  str "Plugin did not produce output.json. Exit=" ++ to_string ec ++
  (match errtxt with [] => [] | _ => LF :: str "err:" ++ LF :: errtxt end).

Definition successReport (ec : Z) (logtxt errtxt : text) : text :=
  str "exit=" ++ to_string ec ++ [LF] ++
  (match logtxt with [] => [] | _ => str "log:" ++ LF :: logtxt ++ [LF] end) ++
  (match errtxt with [] => [] | _ => str "stderr:" ++ LF :: errtxt ++ [LF] end).

(** The end of [run]: [output.json] and the captured streams are read
    back, [ec] being the value [std::system] returned.  Each of the reads
    throws when the path is a directory. *)
Definition readBack (fs : FS) (ec : Z) (outputFile logFile errFile : text)
    : res RunResult :=
  match readTextFile cwd fs outputFile with
  | Ret None =>
      match readTextFile cwd fs errFile with
      | Ret errtxt => Ret (failure (noOutputReport ec (default [] errtxt)))
      | Throw e => Throw e
      | OutOfFuel => OutOfFuel
      end
  | Ret (Some outContent) =>
      match readTextFile cwd fs logFile with
      | Ret logtxt =>
          match readTextFile cwd fs errFile with
          | Ret errtxt =>
              Ret {| run_ok := true; out_json := Some outContent;
                     out_report := successReport ec (default [] logtxt)
                                     (default [] errtxt) |}
          | Throw e => Throw e
          | OutOfFuel => OutOfFuel
          end
      | Throw e => Throw e
      | OutOfFuel => OutOfFuel
      end
  | Throw e => Throw e
  | OutOfFuel => OutOfFuel
  end.

(** The part of [run] from the command line on: the process is started,
    then its files are read back. *)
Definition invoke (ws : Workspace) (fs : FS) (calls : list text)
    (entryPath inputFile absOutdir outputFile logFile errFile : text)
    : res RunResult * KState :=
  let inner := innerCommand entryPath inputFile absOutdir logFile errFile in
  let cmd := if kWindows then str "cmd.exe /S /C " ++ quoted inner
             else str "/bin/sh -c '" ++ inner ++ str "'" in
  let breadcrumb :=
    if kWindows then
      writeTextFile cwd fs (path_join absOutdir (str "run.cmd"))
        (str "@echo off" ++ CR :: LF :: cmd ++ CR :: [LF])
    else (Ret true, fs) in
  match breadcrumb with
  | (Ret _, fs) =>
      let '(ec, fs) := system cmd fs in
      (readBack fs ec outputFile logFile errFile,
       {| k_ws := ws; k_fs := fs; k_calls := calls ++ [cmd] |})
  | (Throw e, fs) => (Throw e, {| k_ws := ws; k_fs := fs; k_calls := calls |})
  | (OutOfFuel, fs) => (OutOfFuel, {| k_ws := ws; k_fs := fs; k_calls := calls |})
  end.

(** The text handed to the plugin as [stdin]: the contents of the file
    when the argument names an existing one, else the argument itself. *)
Definition stdinJson (fs : FS) (stdin_json_or_path : text) : res text :=
  match stdin_json_or_path with
  | [] => Ret (str "{}")
  | _ =>
      match fs_exists cwd fs stdin_json_or_path with
      | Ret true =>
          match readTextFile cwd fs stdin_json_or_path with
          | Ret txt => Ret (default (str "{}") txt)
          | Throw e => Throw e
          | OutOfFuel => OutOfFuel
          end
      | Ret false => Ret stdin_json_or_path
      | Throw e => Throw e
      | OutOfFuel => OutOfFuel
      end
  end.

(** [Kernel::run]. *)
Definition run (fuel : nat) (name : text) (bank reg addr : Z) (stdin_json_or_path : text)
    (st : KState) : res RunResult * KState :=
  match find_plugin name with
  | None => (Ret (failure (str "Plugin not found: " ++ name)), st)
  | Some P =>
    let fs := k_fs st in
    let calls := k_calls st in
    match (let* _ := (λ ws, ensureBankLoadedInWorkspace cwd cfg fs ws bank) in
           getValue cwd cfg fs bank reg addr) (k_ws st) with
    | (Ret None, ws) =>
        (Ret (failure (str "No value at reg " ++ to_string reg ++ str " addr " ++ to_string addr)),
         {| k_ws := ws; k_fs := fs; k_calls := calls |})
    | (Ret (Some raw), ws) =>
      match resolve cwd cfg fs fuel raw bank ∅ ws with
      | (Ret code, ws) =>
        let bankStr := cfg_prefix cfg :: toBaseN bank (cfg_base cfg) (widthBank cfg) in
        let regStr := toBaseN reg (cfg_base cfg) (widthReg cfg) in
        let addrStr := toBaseN addr (cfg_base cfg) (widthAddr cfg) in
        let outdir := outdirOf name bank reg addr in
        match create_directories cwd fs outdir with
        | (Ret _, fs) =>
          let entry := entryOf P in
          match entry with
          | [] => (Ret (failure (str "Plugin entry not set in manifest.")),
                   {| k_ws := ws; k_fs := fs; k_calls := calls |})
          | _ =>
            let absOutdir := absolute cwd outdir in
            let entryPath := entryPathOf P in
            let codeFile := path_join absOutdir (str "code.txt") in
            let inputFile := path_join absOutdir (str "input.json") in
            let outputFile := path_join absOutdir (str "output.json") in
            let logFile := path_join absOutdir (str "run.log") in
            let errFile := path_join absOutdir (str "run.err") in
            match fs_exists cwd fs entryPath with
            | Ret false =>
                (Ret (failure (str "Entry not found: " ++ entryPath)),
                 {| k_ws := ws; k_fs := fs; k_calls := calls |})
            | Ret true =>
              match writeTextFile cwd fs codeFile code with
              | (Ret false, fs) =>
                  (Ret (failure (str "Cannot write " ++ codeFile)),
                   {| k_ws := ws; k_fs := fs; k_calls := calls |})
              | (Ret true, fs) =>
                match stdinJson fs stdin_json_or_path with
                | Ret stdin_json =>
                  let '(b, ws) := bank_at ws bank in
                  let content :=
                    inputJson bankStr regStr addrStr (bank_title b) codeFile stdin_json in
                  match writeTextFile cwd fs inputFile content with
                  | (Ret false, fs) =>
                      (Ret (failure (str "Cannot write " ++ inputFile)),
                       {| k_ws := ws; k_fs := fs; k_calls := calls |})
                  | (Ret true, fs) =>
                      invoke ws fs calls entryPath inputFile absOutdir outputFile logFile errFile
                  | (Throw e, fs) => (Throw e, {| k_ws := ws; k_fs := fs; k_calls := calls |})
                  | (OutOfFuel, fs) => (OutOfFuel, {| k_ws := ws; k_fs := fs; k_calls := calls |})
                  end
                | Throw e => (Throw e, {| k_ws := ws; k_fs := fs; k_calls := calls |})
                | OutOfFuel => (OutOfFuel, {| k_ws := ws; k_fs := fs; k_calls := calls |})
                end
              | (Throw e, fs) => (Throw e, {| k_ws := ws; k_fs := fs; k_calls := calls |})
              | (OutOfFuel, fs) => (OutOfFuel, {| k_ws := ws; k_fs := fs; k_calls := calls |})
              end
            | Throw e => (Throw e, {| k_ws := ws; k_fs := fs; k_calls := calls |})
            | OutOfFuel => (OutOfFuel, {| k_ws := ws; k_fs := fs; k_calls := calls |})
            end
          end
        | (Throw e, fs) => (Throw e, {| k_ws := ws; k_fs := fs; k_calls := calls |})
        | (OutOfFuel, fs) => (OutOfFuel, {| k_ws := ws; k_fs := fs; k_calls := calls |})
        end
      | (Throw e, ws) => (Throw e, {| k_ws := ws; k_fs := fs; k_calls := calls |})
      | (OutOfFuel, ws) => (OutOfFuel, {| k_ws := ws; k_fs := fs; k_calls := calls |})
      end
    | (Throw e, ws) => (Throw e, {| k_ws := ws; k_fs := fs; k_calls := calls |})
    | (OutOfFuel, ws) => (OutOfFuel, {| k_ws := ws; k_fs := fs; k_calls := calls |})
    end
  end.
End Kernel.

(** ** Notions used in the statements *)

(** The base [toBaseN] works with. *)
Definition effectiveBase (base : Z) : Z :=
  if (base <? 2) || (36 <? base) then 10 else base.

(** [ws'] is [ws] with, possibly, banks loaded on demand: every bank id
    either has the same bank and file name in both, or is absent from [ws] and
    bound in [ws'] to the bank parsed from its canonical file. *)
Definition ws_grows (cwd : text) (cfg : Config) (fs : FS) (ws ws' : Workspace) : Prop :=
  ∀ id : Z,
    (banks ws' !! id = banks ws !! id ∧ filenames ws' !! id = filenames ws !! id)
    ∨ (banks ws !! id = None
       ∧ ∃ b, loadContextFile cwd cfg fs (contextFileName cfg id) = Ret (inr b)
              ∧ banks ws' !! id = Some b
              ∧ filenames ws' !! id = Some (contextFileName cfg id)).

(** Every [@file(] in [s] is followed, in [s], by a closing parenthesis: no
    token of the file-inclusion pass that starts in [s] goes on after it. *)
Fixpoint closed_tokens (s : text) : bool :=
  match s with
  | [] => true
  | _ :: s' =>
      match strip_prefix (str "@file(") s with
      | Some r => contains ")" r
      | None => true
      end && closed_tokens s'
  end.

(** The text a file holds for a reader: the contents of a readable file,
    nothing for a file that is missing or cannot be opened. *)
Definition captured (fs : FS) (p : text) : text :=
  match fs !! p with
  | Some (File true _ c) => c
  | _ => []
  end.

(** The characters of a JSON string between its quotes (RFC 8259, section
    7): any character from 0x20 on but the double quote and the backslash,
    or a backslash followed by a double quote, a backslash or one of [/],
    [b], [f], [n], [r], [t], or by [u] and four hexadecimal digits. *)
Definition ishex (c : ascii) : bool :=
  isdigit c || existsb (eqc c) (str "abcdefABCDEF").

Fixpoint json_string_body (s : text) : bool :=
  match s with
  | [] => true
  | c :: s1 =>
      if eqc c "\" then
        match s1 with
        | d :: s2 =>
            if eqc d DQ || existsb (eqc d) (str "\/bfnrt") then json_string_body s2
            else if eqc d "u" then
              match s2 with
              | h1 :: h2 :: h3 :: h4 :: s3 =>
                  ishex h1 && ishex h2 && ishex h3 && ishex h4 && json_string_body s3
              | _ => false
              end
            else false
        | [] => false
        end
      else if eqc c DQ then false
      else if code c <? 32 then false
      else json_string_body s1
  end.


(** ** Example stores and file systems *)

Definition oneCellBank (id : Z) (value : text) : Bank :=
  {| bank_id := id; bank_title := str "demo"; regs := {[ 1 := {[ 1 := value ]} ]} |}.

Definition oneCellWorkspace (value : text) : Workspace :=
  {| banks := {[ 1 := oneCellBank 1 value ]}; filenames := ∅ |}.

Definition emptyWorkspace : Workspace := {| banks := ∅; filenames := ∅ |}.

(** The bank file [files/x00002.txt]. *)
Definition bank2_text : text :=
  str "x00002" ++ TAB :: str "(Second){" ++ LF ::
  TAB :: str "0001" ++ TAB :: str "hello" ++ LF ::
  str "}" ++ [LF].

Definition fs_bank2 : FS := {[ str "/w/files/x00002.txt" := File true true bank2_text ]}.

(** A readable file [files/a.txt] that holds a same-bank reference. *)
Definition fs_include : FS := {[ str "/w/files/a.txt" := File true true (str "r1.1") ]}.

(** The upper-case spelling of a digit string. *)
Definition toupper (c : ascii) : ascii :=
  let z := code c in
  if (code "a" <=? z) && (z <=? code "z") then chr (z - 32) else c.

(** An identifier the parser can produce: a non-negative [long long]. *)
Definition valid_id (z : Z) : Prop := 0 ≤ z ≤ LLONG_MAX.

(** A text that neither starts nor ends with a space character. *)
Definition solid (s : text) : Prop :=
  ∃ c d mid, isspace c = false ∧ isspace d = false
             ∧ (s = [c] ∧ d = c ∨ s = c :: mid ++ [d]).

(** [needle] occurs in [hay]. *)
Definition occurs_in (needle hay : text) : Prop := ∃ a b, hay = a ++ needle ++ b.

(** The files of a plugin run, under the absolute output directory. *)
Definition runFile (cwd : text) (cfg : Config) (name : text) (bank reg addr : Z)
    (file : string) : text :=
  path_join (absolute cwd (outdirOf cfg name bank reg addr)) (str file).

(** A plugin, and a file system that holds its entry script. *)
Definition echoPlugin : PluginManifest :=
  {| pm_name := str "echo"; entry_win := str "run.bat"; entry_lin := str "run.sh";
     pm_dir := str "plugins/echo" |}.

Definition fs_plugin : FS :=
  {[ str "/w/plugins/echo/run.sh" := File true true (str "#!/bin/sh") ]}.

(** The value [std::system] returns on POSIX for a child that exits with
    the given code: the wait status, with the code in bits 8 to 15. *)
Definition wait_status (exit_code : Z) : Z := exit_code * 256.

(** A child process that writes to its standard error stream only, and exits
    with code 3. *)
Definition failingProcess (cmd : text) (fs : FS) : Z * FS :=
  (wait_status 3,
   <[ str "/w/files/out/plugins/x00001/r01a0001/echo/run.err" := File true true (str "boom") ]> fs).





Definition kernelState (fs : FS) : KState :=
  {| k_ws := oneCellWorkspace (str "hello"); k_fs := fs; k_calls := [] |}.

(** The value at (register, address) in a register map. *)
Definition cellOf (rs : gmap Z (gmap Z text)) (r a : Z) : option text :=
  rs !! r ≫= λ addrs, addrs !! a.

(** The lines [writeBankText] writes between the header and the closing
    brace, without their newlines. *)
Definition addrText (cfg : Config) (e : Z * text) : text :=
  TAB :: toBaseN e.1 (cfg_base cfg) (widthAddr cfg) ++ TAB :: e.2.

Definition blockLines (cfg : Config) (e : Z * gmap Z text) : list text :=
  toBaseN e.1 (cfg_base cfg) (widthReg cfg) :: (addrText cfg <$> entries e.2).

Definition bodyLines (cfg : Config) (rs : gmap Z (gmap Z text)) : list text :=
  if isMulti rs then concat (blockLines cfg <$> entries rs)
  else match rs !! 1 with
       | Some addrs => addrText cfg <$> entries addrs
       | None => []
       end.

(** What the body loop of the parser builds from the lines of one register
    and from the blocks of several. *)
Definition fillRegister (cur : Z) (rs : gmap Z (gmap Z text)) (es : list (Z * text))
    : gmap Z (gmap Z text) :=
  foldl (λ rs e, setCell rs cur e.1 e.2) rs es.

Definition fillRegisters (rs : gmap Z (gmap Z text)) (res : list (Z * gmap Z text))
    : gmap Z (gmap Z text) :=
  foldl (λ rs e, fillRegister e.1 rs (entries e.2)) rs res.

(** The values [writeBankText] can write on one line and read back. *)
Definition valid_value (v : text) : Prop := (LF ∉ v) ∧ (("}"%char) ∉ v).

Definition valid_regs (rs : gmap Z (gmap Z text)) : Prop :=
  ∀ r addrs, rs !! r = Some addrs →
    valid_id r ∧ ∀ a v, addrs !! a = Some v → valid_id a ∧ valid_value v.

(** ** Further functions of the sources *)

(** The number a digit string denotes in [base], without any bound. *)
Definition digitsValue (base : Z) (s : text) : Z :=
  fold_left (λ v c, v * base + digitValue c) s 0.

(** [Bank::empty]. *)
Definition bank_empty (b : Bank) : bool :=
  if bool_decide (regs b = ∅) then true
  else forallb (λ e : Z * gmap Z text, bool_decide (e.2 = ∅)) (entries (regs b)).

(** The registers a parsed bank can hold: identifiers are non-negative
    [long long]s, no register is without an address, no value holds a
    newline. *)
Definition parsed_regs (rs : gmap Z (gmap Z text)) : Prop :=
  ∀ r addrs, rs !! r = Some addrs →
    valid_id r ∧ addrs ≠ ∅ ∧ ∀ a v, addrs !! a = Some v → valid_id a ∧ LF ∉ v.

(** The character before the position reached after [s], when the character
    before [s] is [prev]. *)
Definition lastc (prev : option ascii) (s : text) : option ascii :=
  match last s with
  | Some c => Some c
  | None => prev
  end.

(** Text that holds no dot and no at-sign, hence no reference. *)
Definition plain (s : text) : Prop := (("."%char) ∉ s) ∧ (("@"%char) ∉ s).

(** The number of dots in a text. *)
Definition dots (s : text) : nat := length (filter (λ c, c = "."%char) s).

(** ** The editor of the command-line front end

    The editing commands of [struct Editor].  A command returns the editor
    after it and the text it prints. *)
Module Editor.

(** The fields the editing commands use. *)
Record state := {
  cfg : Config;
  ws : Workspace;
  current : option Z;
  dirty : bool
}.

(** What [ensureCurrent] prints when no context is open. *)
Definition noCurrent : text := str "No current context. Use :open <ctx>" ++ [LF].

Definition withRegs (b : Bank) (rs : gmap Z (gmap Z text)) : Bank :=
  {| bank_id := bank_id b; bank_title := bank_title b; regs := rs |}.

(** An update of [ws.banks[id].regs]; [operator[]] inserts a missing bank
    first. *)
Definition updateRegs (w : Workspace) (id : Z)
    (f : gmap Z (gmap Z text) → gmap Z (gmap Z text)) : Workspace :=
  let '(b, w) := bank_at w id in
  {| banks := <[id := withRegs b (f (regs b))]> (banks w); filenames := filenames w |}.

Definition edited (E : state) (w : Workspace) (d : bool) : state :=
  {| cfg := cfg E; ws := w; current := current E; dirty := d |}.

(** [Editor::insert]. *)
Definition insert (addrTok value : text) (E : state) : state * text :=
  match current E with
  | None => (E, noCurrent)
  | Some cur =>
      match parseIntBase addrTok (cfg_base (cfg E)) with
      | None => (E, str "Bad address" ++ [LF])
      | Some addr =>
          (edited E (updateRegs (ws E) cur (λ rs, setCell rs 1 addr value)) true, [])
      end
  end.

(** [Editor::insertR]. *)
Definition insertR (regTok addrTok value : text) (E : state) : state * text :=
  match current E with
  | None => (E, noCurrent)
  | Some cur =>
      match parseIntBase regTok (cfg_base (cfg E)) with
      | None => (E, str "Bad register" ++ [LF])
      | Some reg =>
          match parseIntBase addrTok (cfg_base (cfg E)) with
          | None => (E, str "Bad address" ++ [LF])
          | Some addr =>
              (edited E (updateRegs (ws E) cur (λ rs, setCell rs reg addr value)) true, [])
          end
      end
  end.

Definition erased (n : bool) : text :=
  if n then str "Deleted." ++ [LF] else str "No such address." ++ [LF].

(** [Editor::del]: [regs[1]] creates register 1 when the bank has none. *)
Definition del (addrTok : text) (E : state) : state * text :=
  match current E with
  | None => (E, noCurrent)
  | Some cur =>
      match parseIntBase addrTok (cfg_base (cfg E)) with
      | None => (E, str "Bad address" ++ [LF])
      | Some addr =>
          let m := default ∅ (regs (bank_at (ws E) cur).1 !! 1) in
          let n := bool_decide (is_Some (m !! addr)) in
          (edited E (updateRegs (ws E) cur (λ rs, <[1 := delete addr (default ∅ (rs !! 1))]> rs))
             (if n then true else dirty E),
           erased n)
      end
  end.

(** [Editor::delR]: a register left without an address is erased. *)
Definition delR (regTok addrTok : text) (E : state) : state * text :=
  match current E with
  | None => (E, noCurrent)
  | Some cur =>
      match parseIntBase regTok (cfg_base (cfg E)) with
      | None => (E, str "Bad register" ++ [LF])
      | Some reg =>
          match parseIntBase addrTok (cfg_base (cfg E)) with
          | None => (E, str "Bad address" ++ [LF])
          | Some addr =>
              let '(b, w) := bank_at (ws E) cur in
              match regs b !! reg with
              | None => (edited E w (dirty E), str "No such register." ++ [LF])
              | Some m =>
                  let n := bool_decide (is_Some (m !! addr)) in
                  let m' := delete addr m in
                  let rs' := if bool_decide (m' = ∅) then delete reg (regs b)
                             else <[reg := m']> (regs b) in
                  (edited E {| banks := <[cur := withRegs b rs']> (banks w);
                               filenames := filenames w |}
                     (if n then true else dirty E),
                   erased n)
              end
          end
      end
  end.

(** [Editor::readMerge]: every cell of the file read from [path] is stored
    in the current bank; the title is taken when the bank has none. *)
Definition readMerge (cwd : text) (fs : FS) (path : text) (E : state) : res (state * text) :=
  match current E with
  | None => Ret (E, noCurrent)
  | Some cur =>
      match fs_read cwd fs path with
      | Ret None => Ret (E, str "Cannot open " ++ path ++ [LF])
      | Ret (Some txt) =>
          match parseBankText txt (cfg E) with
          | ParseErr err => Ret (E, str "Parse failed: " ++ err ++ [LF])
          | ParseOk tmp =>
              let '(b, w) := bank_at (ws E) cur in
              let b' := {| bank_id := bank_id b;
                           bank_title := match bank_title b with
                                         | [] => bank_title tmp
                                         | _ => bank_title b
                                         end;
                           regs := fillRegisters (regs b) (entries (regs tmp)) |} in
              Ret (edited E {| banks := <[cur := b']> (banks w); filenames := filenames w |} true,
                   str "Merged." ++ [LF])
          end
      | Throw e => Throw e
      | OutOfFuel => OutOfFuel
      end
  end.

End Editor.

(** The value at (bank, register, address) in a workspace. *)
Definition cellAt (w : Workspace) (id r a : Z) : option text :=
  banks w !! id ≫= λ b, cell b r a.

(** A child process that writes its [output.json] and exits with status 0. *)
Definition echoProcess (cmd : text) (fs : FS) : Z * FS :=
  (0, <[ str "/w/files/out/plugins/x00001/r01a0001/echo/output.json"
         := File true true (str "{}") ]> fs).

(** ** Searching in strings *)

(** [s.find(pat)]: the position of the first occurrence of [pat]. *)
Fixpoint find_sub (pat s : text) : option nat :=
  match strip_prefix pat s with
  | Some _ => Some O
  | None =>
      match s with
      | [] => None
      | _ :: s' => S <$> find_sub pat s'
      end
  end.

(** The position of the first character that satisfies [p]. *)
Fixpoint find_if (p : ascii → bool) (s : text) : option nat :=
  match s with
  | [] => None
  | c :: s' => if p c then Some O else S <$> find_if p s'
  end.

(** [s.find(c, pos)] and [s.find_first_of(cs, pos)]. *)
Definition find_from (c : ascii) (pos : nat) (s : text) : option nat :=
  (λ i, (pos + i)%nat) <$> find c (drop pos s).

Definition find_first_of (cs : text) (pos : nat) (s : text) : option nat :=
  (λ i, (pos + i)%nat) <$> find_if (λ c, contains c cs) (drop pos s).

(** [s.substr(pos, q - pos)] for a position [q] that can be [npos]. *)
Definition substr_until (s : text) (pos : nat) (q : option nat) : text :=
  match q with
  | Some q => substr s pos (q - pos)
  | None => drop pos s
  end.

(** The text between the double quotes that follow the first colon after the
    first occurrence of the quoted key; [def] when one of the four searches
    fails.  This is the body of [jsonGetStr] and of the [getStr] of
    [Config::fromJSON]. *)
Definition quotedValue (j key def : text) : text :=
  match find_sub (quoted key) j with
  | None => def
  | Some p =>
      match find_from ":" p j with
      | None => def
      | Some p =>
          match find_from DQ p j with
          | None => def
          | Some p =>
              match find_from DQ (S p) j with
              | None => def
              | Some q => substr j (S p) (q - S p)
              end
          end
      end
  end.

(** [jsonGetStr]. *)
Definition jsonGetStr (j key : text) : text := quotedValue j key [].

(** The manifest read from the text of [plugin.json]. *)
Definition manifestOf (dir j : text) : PluginManifest :=
  {| pm_name := jsonGetStr j (str "name");
     entry_win := jsonGetStr j (str "entry_win");
     entry_lin := jsonGetStr j (str "entry_lin");
     pm_dir := dir |}.

(** [loadManifest]: a manifest that cannot be opened is read as the empty
    text. *)
Definition loadManifest (cwd : text) (fs : FS) (dir : text) : res PluginManifest :=
  match readTextFile cwd fs (path_join dir (str "plugin.json")) with
  | Ret j => Ret (manifestOf dir (default [] j))
  | Throw e => Throw e
  | OutOfFuel => OutOfFuel
  end.

(** ** The configuration file *)

Definition INT_MAX : Z := 2 ^ 31 - 1.
Definition INT_MIN : Z := - 2 ^ 31.

(** [std::stoi]: leading space characters are skipped, a sign is read, then
    the decimal digits that follow; [None] when the call throws, for want of
    a digit or for a value that is no [int]. *)
Definition stoi (s : text) : option Z :=
  let s := dropwhile isspace s in
  let '(neg, s) :=
    match s with
    | c :: r => if eqc c "-" then (true, r) else if eqc c "+" then (false, r) else (false, s)
    | [] => (false, s)
    end in
  match takewhile isdigit s with
  | [] => None
  | ds =>
      let v := fold_left (λ v c, v * 10 + digitValue c) ds 0 in
      let v := if neg then - v else v in
      if (INT_MIN <=? v) && (v <=? INT_MAX) then Some v else None
  end.

(** [Config::toJSON]. *)
Definition toJSON (c : Config) : text :=
  str "{" ++ [LF] ++
  str "  " ++ quoted (str "prefix") ++ str ": " ++ quoted [cfg_prefix c] ++ str "," ++ [LF] ++
  str "  " ++ quoted (str "base") ++ str ": " ++ to_string (cfg_base c) ++ str "," ++ [LF] ++
  str "  " ++ quoted (str "widthBank") ++ str ": " ++ to_string (widthBank c) ++ str "," ++ [LF] ++
  str "  " ++ quoted (str "widthReg") ++ str ": " ++ to_string (widthReg c) ++ str "," ++ [LF] ++
  str "  " ++ quoted (str "widthAddr") ++ str ": " ++ to_string (widthAddr c) ++ [LF] ++
  str "}" ++ [LF].

(** The [getInt] of [Config::fromJSON]. *)
Definition getInt (j key : text) (def : Z) : Z :=
  match find_sub (quoted key) j with
  | None => def
  | Some p =>
      match find_from ":" p j with
      | None => def
      | Some p =>
          let q := find_first_of (str "," ++ LF :: str "}") (S p) j in
          default def (stoi (trim (substr_until j (S p) q)))
      end
  end.

(** [Config::fromJSON]. *)
Definition fromJSON (j : text) : Config :=
  let pf := quotedValue j (str "prefix") (quoted (str "x")) in
  {| cfg_prefix := match pf with
                   | _ :: c :: _ => c
                   | _ => "x"%char
                   end;
     cfg_base := getInt j (str "base") 10;
     widthBank := getInt j (str "widthBank") 5;
     widthReg := getInt j (str "widthReg") 2;
     widthAddr := getInt j (str "widthAddr") 4 |}.

(** The text made of segments held apart by double quotes. *)
Fixpoint joinDQ (segs : list text) : text :=
  match segs with
  | [] => []
  | [s] => s
  | s :: segs' => s ++ DQ :: joinDQ segs'
  end.

(** The segments of the text [Config::toJSON] writes, between its double
    quotes. *)
Definition configSegments (c : Config) : list text :=
  [ str "{" ++ LF :: str "  "; str "prefix"; str ": " ]
  ++ (if decide (cfg_prefix c = DQ) then [[]; []] else [[cfg_prefix c]])
  ++ [ str "," ++ LF :: str "  "; str "base";
       str ": " ++ to_string (cfg_base c) ++ str "," ++ LF :: str "  "; str "widthBank";
       str ": " ++ to_string (widthBank c) ++ str "," ++ LF :: str "  "; str "widthReg";
       str ": " ++ to_string (widthReg c) ++ str "," ++ LF :: str "  "; str "widthAddr";
       str ": " ++ to_string (widthAddr c) ++ LF :: str "}" ++ [LF] ].

(** ** Writing a bank with its values resolved *)

Section ResolvedText.
Variable cwd : text.
Variable cfg : Config.
Variable fs : FS.

(** The inner loop of [resolveBankToText]: one line for each address, the
    value resolved with an empty visited set. *)
Fixpoint resolveAddrs (fuel : nat) (bank : Z) (es : list (Z * text)) : M text :=
  match es with
  | [] => ret []
  | e :: es' =>
      let* out := resolve cwd cfg fs fuel e.2 bank ∅ in
      let* rest := resolveAddrs fuel bank es' in
      ret (TAB :: toBaseN e.1 (cfg_base cfg) (widthAddr cfg) ++ TAB :: out ++ LF :: rest)
  end.

(** The outer loop: the register line is written when the bank has more
    than one register. *)
Fixpoint resolveRegs (fuel : nat) (bank : Z) (many : bool)
    (rs : list (Z * gmap Z text)) : M text :=
  match rs with
  | [] => ret []
  | r :: rs' =>
      let* body := resolveAddrs fuel bank (entries r.2) in
      let* rest := resolveRegs fuel bank many rs' in
      ret ((if many then toBaseN r.1 (cfg_base cfg) (widthReg cfg) ++ [LF] else [])
           ++ body ++ rest)
  end.

(** [resolveBankToText]: [ws.banks[bankId]] inserts a missing bank; the
    values are resolved with the [id] field of the bank as current bank. *)
Definition resolveBankToText (fuel : nat) (bankId : Z) : M text := λ ws,
  let '(b, ws) := bank_at ws bankId in
  (let* body := resolveRegs fuel (bank_id b) (bool_decide (1 < size (regs b))%nat)
                  (entries (regs b)) in
   ret (cfg_prefix cfg :: toBaseN (bank_id b) (cfg_base cfg) (widthBank cfg)
        ++ TAB :: "("%char :: bank_title b ++ str "){" ++ LF :: body ++ "}"%char :: [LF])) ws.
End ResolvedText.

(** The bank as [resolveBankToText] shows it: a bank with one register
    only is shown with that register as register 1. *)
Definition compactBank (b : Bank) : Bank :=
  match entries (regs b) with
  | [e] => {| bank_id := bank_id b; bank_title := bank_title b; regs := {[ 1 := e.2 ]} |}
  | _ => b
  end.

(** * Proofs *)

(** ** Characters *)

Lemma code_chr z : 0 ≤ z < 256 → code (chr z) = z.
Proof.
  intros Hz. unfold code, chr.
  rewrite N_ascii_embedding by lia. lia.
Qed.

Lemma chr_code c : chr (code c) = c.
Proof.
  unfold code, chr. rewrite N2Z.id. apply ascii_N_embedding.
Qed.

Lemma code_inj a b : code a = code b → a = b.
Proof. intros H. rewrite <- (chr_code a), <- (chr_code b). by rewrite H. Qed.

Lemma eqc_true a b : eqc a b = true ↔ a = b.
Proof. apply Ascii.eqb_eq. Qed.

Lemma eqc_false a b : eqc a b = false ↔ a ≠ b.
Proof. apply Ascii.eqb_neq. Qed.

Lemma eqc_refl a : eqc a a = true.
Proof. by apply eqc_true. Qed.

(** ** Digits *)

Lemma digitValue_digitChar d : 0 ≤ d < 36 → digitValue (digitChar d) = d.
Proof.
  intros Hd. unfold digitValue, digitChar.
  change (code "0") with 48. change (code "9") with 57.
  change (code "A") with 65. change (code "Z") with 90.
  change (code "a") with 97. change (code "z") with 122.
  destruct (d <? 10) eqn:E.
  - apply Z.ltb_lt in E. rewrite code_chr by lia.
    replace ((48 <=? 48 + d) && (48 + d <=? 57)) with true by (symmetry; apply andb_true_iff; lia).
    lia.
  - apply Z.ltb_ge in E. rewrite code_chr by lia.
    replace ((48 <=? 97 + (d - 10)) && (97 + (d - 10) <=? 57)) with false
      by (symmetry; apply andb_false_iff; lia).
    replace ((65 <=? 97 + (d - 10)) && (97 + (d - 10) <=? 90)) with false
      by (symmetry; apply andb_false_iff; lia).
    replace ((97 <=? 97 + (d - 10)) && (97 + (d - 10) <=? 122)) with true
      by (symmetry; apply andb_true_iff; lia).
    lia.
Qed.

Lemma isalnum_digitChar d : 0 ≤ d < 36 → isalnum (digitChar d) = true.
Proof.
  intros Hd. unfold isalnum, digitChar.
  change (code "0") with 48. change (code "a") with 97.
  destruct (d <? 10) eqn:E.
  - apply Z.ltb_lt in E. rewrite code_chr by lia.
    apply orb_true_iff. left. apply orb_true_iff. left. apply andb_true_iff. lia.
  - apply Z.ltb_ge in E. rewrite code_chr by lia.
    apply orb_true_iff. right. apply andb_true_iff. lia.
Qed.

Lemma wrap64_id z : LLONG_MIN ≤ z ≤ LLONG_MAX → wrap64 z = z.
Proof.
  unfold LLONG_MIN, LLONG_MAX, wrap64. intros Hz.
  rewrite Z.mod_small by lia. lia.
Qed.

(** ** [parseIntBase] on concatenations and on digits written by [toBaseN] *)

Lemma parseIntBase_loop_app s1 s2 base v :
  parseIntBase_loop (s1 ++ s2) base v =
  parseIntBase_loop s1 base v ≫= parseIntBase_loop s2 base.
Proof.
  revert v. induction s1 as [|c s1 IH]; intros v; simpl; [done|].
  destruct (_ || _); [done|]. destruct (_ <? 0); [done|]. apply IH.
Qed.

Lemma parseIntBase_loop_zeros n s base :
  0 < base → parseIntBase_loop (replicate n "0"%char ++ s) base 0 = parseIntBase_loop s base 0.
Proof.
  intros Hb. induction n as [|n IH]; simpl; [done|].
  change (digitValue "0") with 0.
  replace (base <=? 0) with false by (symmetry; apply Z.leb_gt; lia).
  simpl. apply IH.
Qed.

Lemma parseIntBase_loop_digit d base v :
  0 ≤ d < base → base ≤ 36 → 0 ≤ v → v * base + d ≤ LLONG_MAX →
  parseIntBase_loop [digitChar d] base v = Some (v * base + d).
Proof.
  intros Hd Hb Hv Hmax. simpl. rewrite digitValue_digitChar by lia.
  replace (d <? 0) with false by (symmetry; apply Z.ltb_ge; lia).
  replace (base <=? d) with false by (symmetry; apply Z.leb_gt; lia).
  simpl. rewrite wrap64_id by (unfold LLONG_MIN, LLONG_MAX in *; nia).
  replace (v * base + d <? 0) with false by (symmetry; apply Z.ltb_ge; nia).
  done.
Qed.

(** The digits produced by the loop of [toBaseN], most significant first. *)
Lemma toBaseN_loop_acc fuel val base s :
  toBaseN_loop fuel val base s = s ++ toBaseN_loop fuel val base [].
Proof.
  revert val s. induction fuel as [|f IH]; intros val s; simpl.
  - by rewrite app_nil_r.
  - destruct (0 <? val); [|by rewrite app_nil_r].
    rewrite (IH _ (s ++ _)), (IH _ [_]). by rewrite <- app_assoc.
Qed.

Lemma toBaseN_loop_parse fuel val base :
  2 ≤ base ≤ 36 → 0 ≤ val < 2 ^ Z.of_nat fuel → val ≤ LLONG_MAX →
  parseIntBase_loop (reverse (toBaseN_loop fuel val base [])) base 0 = Some val.
Proof.
  intros Hb. revert val. induction fuel as [|f IH]; intros val Hval Hmax.
  - simpl in *. assert (val = 0) as -> by lia. done.
  - simpl. destruct (0 <? val) eqn:E.
    + apply Z.ltb_lt in E.
      rewrite toBaseN_loop_acc, reverse_app, parseIntBase_loop_app.
      rewrite Z.quot_div_nonneg, Z.rem_mod_nonneg by lia.
      pose proof (Z.div_mod val base ltac:(lia)) as Hdm.
      pose proof (Z.mod_pos_bound val base ltac:(lia)) as Hm.
      assert (0 ≤ val / base) by (apply Z.div_pos; lia).
      assert (val / base < 2 ^ Z.of_nat f).
      { apply Z.div_lt_upper_bound; [lia|].
        rewrite Nat2Z.inj_succ, Z.pow_succ_r in Hval by lia.
        assert (0 < 2 ^ Z.of_nat f) by (apply Z.pow_pos_nonneg; lia). nia. }
      rewrite IH by (try split; nia). simpl option_bind. cbn [mbind option_bind].
      change (reverse [digitChar (val `mod` base)]) with [digitChar (val `mod` base)].
      rewrite parseIntBase_loop_digit by (try split; nia).
      f_equal. lia.
    + apply Z.ltb_ge in E. assert (val = 0) as -> by lia. done.
Qed.

Lemma toBaseN_loop_nonempty fuel val base :
  0 < val → toBaseN_loop (S fuel) val base [] ≠ [].
Proof.
  intros Hv. simpl. replace (0 <? val) with true by (symmetry; apply Z.ltb_lt; lia).
  rewrite toBaseN_loop_acc. simpl. done.
Qed.

Lemma parseIntBase_nonempty s base :
  s ≠ [] → parseIntBase s base = parseIntBase_loop s base 0.
Proof. by destruct s. Qed.

Lemma effectiveBase_valid base : 2 ≤ base ≤ 36 → effectiveBase base = base.
Proof.
  intros H. unfold effectiveBase.
  replace (base <? 2) with false by (symmetry; apply Z.ltb_ge; lia).
  replace (36 <? base) with false by (symmetry; apply Z.ltb_ge; lia).
  done.
Qed.

(** [toBaseN] of a positive value: zeros, then the digits. *)
Lemma toBaseN_pos val base width :
  0 < val →
  ∃ n, toBaseN val base width =
       replicate n "0"%char ++ reverse (toBaseN_loop 64 val (effectiveBase base) []).
Proof.
  intros Hv. unfold toBaseN. fold (effectiveBase base).
  replace (val =? 0) with false by (symmetry; apply Z.eqb_neq; lia).
  replace (val <? 0) with false by (symmetry; apply Z.ltb_ge; lia).
  destruct (_ && _).
  - eexists. reflexivity.
  - exists O. reflexivity.
Qed.

(** Parsing what [toBaseN] wrote gives the value back. *)
Lemma parse_render_id (v base width : Z) :
  2 ≤ base ≤ 36 → 0 ≤ v ≤ LLONG_MAX →
  parseIntBase (toBaseN v base width) base = Some v.
Proof.
  intros Hb Hv. destruct (decide (v = 0)) as [->|Hne].
  - unfold toBaseN. simpl (0 =? 0). cbv iota.
    destruct (Z.to_nat (Z.max 1 width)) as [|n] eqn:En; [lia|].
    rewrite parseIntBase_nonempty by done.
    rewrite <- (app_nil_r (replicate _ _)), parseIntBase_loop_zeros by lia. done.
  - destruct (toBaseN_pos v base width) as [n ->]; [lia|].
    rewrite effectiveBase_valid by done.
    rewrite parseIntBase_nonempty.
    + rewrite parseIntBase_loop_zeros by lia.
      apply toBaseN_loop_parse; [done| |lia].
      unfold LLONG_MAX in Hv. change (Z.of_nat 64) with 64. lia.
    + intros H. apply app_eq_nil in H as [_ H].
      apply (f_equal reverse) in H. rewrite reverse_involutive in H.
      revert H. apply toBaseN_loop_nonempty. lia.
Qed.

(** Letters are digits in either case. *)
Lemma digitValue_toupper c : digitValue (toupper c) = digitValue c.
Proof.
  unfold toupper. change (code "a") with 97. change (code "z") with 122.
  destruct ((97 <=? code c) && (code c <=? 122)) eqn:E; [|done].
  apply andb_true_iff in E as [E1%Z.leb_le E2%Z.leb_le].
  unfold digitValue. rewrite code_chr by lia.
  change (code "0") with 48. change (code "9") with 57.
  change (code "A") with 65. change (code "Z") with 90.
  change (code "a") with 97. change (code "z") with 122.
  replace ((48 <=? code c - 32) && (code c - 32 <=? 57)) with false
    by (symmetry; apply andb_false_iff; lia).
  replace ((65 <=? code c - 32) && (code c - 32 <=? 90)) with true
    by (symmetry; apply andb_true_iff; lia).
  replace ((48 <=? code c) && (code c <=? 57)) with false
    by (symmetry; apply andb_false_iff; lia).
  replace ((65 <=? code c) && (code c <=? 90)) with false
    by (symmetry; apply andb_false_iff; lia).
  replace ((97 <=? code c) && (code c <=? 122)) with true
    by (symmetry; apply andb_true_iff; lia).
  lia.
Qed.

Lemma parseIntBase_loop_toupper s base v :
  parseIntBase_loop (toupper <$> s) base v = parseIntBase_loop s base v.
Proof.
  revert v. induction s as [|c s IH]; intros v; [done|].
  rewrite fmap_cons. cbn [parseIntBase_loop]. rewrite digitValue_toupper.
  destruct (_ || _); [done|]. destruct (_ <? 0); [done|]. apply IH.
Qed.

Lemma parseIntBase_toupper s base :
  parseIntBase (toupper <$> s) base = parseIntBase s base.
Proof.
  destruct s as [|c s]; [done|].
  rewrite fmap_cons. unfold parseIntBase. rewrite <- fmap_cons.
  apply parseIntBase_loop_toupper.
Qed.

(** [toBaseN] pads to the width and never cuts. *)
Lemma toBaseN_length val base width :
  width ≤ Z.of_nat (length (toBaseN val base width)).
Proof.
  unfold toBaseN. destruct (val =? 0).
  - rewrite length_replicate. lia.
  - match goal with
    | |- context [reverse ?l] => generalize (reverse l)
    end.
    intros s. destruct (0 <? width) eqn:E1; simpl.
    + destruct (Z.of_nat (length s) <? width) eqn:E2.
      * apply Z.ltb_lt in E2. rewrite length_app, length_replicate. lia.
      * apply Z.ltb_ge in E2. lia.
    + apply Z.ltb_ge in E1. lia.
Qed.

(** C4.  For every base from 2 to 36, every minimum width and every
    non-negative value [v] of a [long long], [parseIntBase] succeeds on
    [toBaseN v base width] and returns exactly [v].  The rendering has at
    least [width] characters (zeros are added on the left, and nothing is cut
    from a wider value, or the value would not come back), and the same
    digits in upper case parse to [v] as well. *)
Theorem parseIntBase_toBaseN_roundtrip (v base width : Z) :
  2 ≤ base ≤ 36 → 0 ≤ v ≤ LLONG_MAX →
  parseIntBase (toBaseN v base width) base = Some v
  ∧ parseIntBase (toupper <$> toBaseN v base width) base = Some v
  ∧ width ≤ Z.of_nat (length (toBaseN v base width)).
Proof.
  intros Hb Hv. split; [by apply parse_render_id|]. split.
  - rewrite parseIntBase_toupper. by apply parse_render_id.
  - apply toBaseN_length.
Qed.

Lemma parseIntBase_toBaseN_roundtrip_witness :
  parseIntBase (toBaseN 255 16 4) 16 = Some 255
  ∧ parseIntBase (toupper <$> toBaseN 255 16 4) 16 = Some 255
  ∧ 4 ≤ Z.of_nat (length (toBaseN 255 16 4)).
Proof. apply parseIntBase_toBaseN_roundtrip; unfold LLONG_MAX; lia. Defined.

(** C10.  With a base below 2 or above 36, [toBaseN] does not fail: it gives
    what it gives for base 10, for every value and width.  [parseIntBase]
    has no such check: it takes base 40 as it is (and reads [z] as 35, which
    base 10 rejects) and base 1 as it is (and rejects [1], which base 10
    reads). *)
Theorem toBaseN_base_out_of_range (v base width : Z) :
  base < 2 ∨ 36 < base →
  toBaseN v base width = toBaseN v 10 width
  ∧ parseIntBase (str "z") 40 = Some 35 ∧ parseIntBase (str "z") 10 = None
  ∧ parseIntBase (str "1") 1 = None ∧ parseIntBase (str "1") 10 = Some 1.
Proof.
  intros Hb. split; [|by vm_compute].
  unfold toBaseN.
  replace ((base <? 2) || (36 <? base)) with true; [done|].
  symmetry. apply orb_true_iff. destruct Hb; [left; by apply Z.ltb_lt|right; by apply Z.ltb_lt].
Qed.

Lemma toBaseN_base_out_of_range_witness :
  toBaseN 255 99 4 = toBaseN 255 10 4
  ∧ parseIntBase (str "z") 40 = Some 35 ∧ parseIntBase (str "z") 10 = None
  ∧ parseIntBase (str "1") 1 = None ∧ parseIntBase (str "1") 10 = Some 1.
Proof. apply toBaseN_base_out_of_range. right. lia. Defined.

(** ** The search loop and its list of matches *)

Lemma regex_replace_matches mt h prev skip s ws :
  regex_replace mt h prev skip s ws =
  replace_all h (find_matches mt prev skip s).1 (find_matches mt prev skip s).2 ws.
Proof.
  revert prev skip ws. induction s as [|c s IH]; intros prev skip ws; [done|].
  simpl. destruct skip as [|k]; [|apply IH].
  destruct (mt (c :: s)) as [m|].
  - destruct (find_matches mt (Some c) (length (m0 m) - 1) s) as [ms tl] eqn:E.
    simpl. unfold bind. destruct (h prev m ws) as [[r| |] ws1]; try done.
    rewrite IH, E. done.
  - unfold bind at 1. rewrite IH.
    destruct (find_matches mt (Some c) 0 s) as [[|[[pre p] m] ms] tl]; [done|].
    simpl. unfold bind.
    destruct (h p m ws) as [[r| |] ws1]; try done.
    destruct (replace_all h ms tl ws1) as [[rest| |] ws2]; done.
Qed.

(** A loop whose matches are known. *)
Lemma regex_replace_eval mt h s ms tl ws :
  find_matches mt None 0 s = (ms, tl) →
  regex_replace mt h None 0 s ws = replace_all h ms tl ws.
Proof. intros E. by rewrite regex_replace_matches, E. Qed.

(** A property of the workspace that every handler call keeps is kept by the
    loop. *)
Lemma replace_all_preserves (R : Workspace → Workspace → Prop) h ms tl :
  (∀ ws, R ws ws) →
  (∀ a b c, R a b → R b c → R a c) →
  (∀ p m ws, R ws (h p m ws).2) →
  ∀ ws, R ws (replace_all h ms tl ws).2.
Proof.
  intros Hrefl Htrans Hh. induction ms as [|[[pre p] m] ms IH]; intros ws; simpl.
  - apply Hrefl.
  - unfold bind. pose proof (Hh p m ws) as H1.
    destruct (h p m ws) as [[r| |] ws1]; simpl in *; try done.
    pose proof (IH ws1) as H2.
    destruct (replace_all h ms tl ws1) as [[rest| |] ws2]; simpl in *; eauto.
Qed.

Lemma regex_replace_preserves (R : Workspace → Workspace → Prop) mt h prev skip s :
  (∀ ws, R ws ws) →
  (∀ a b c, R a b → R b c → R a c) →
  (∀ p m ws, R ws (h p m ws).2) →
  ∀ ws, R ws (regex_replace mt h prev skip s ws).2.
Proof.
  intros Hrefl Htrans Hh ws. rewrite regex_replace_matches.
  by apply replace_all_preserves.
Qed.

Lemma bind_preserves {A B} (R : Workspace → Workspace → Prop) (m : M A) (k : A → M B) :
  (∀ a b c, R a b → R b c → R a c) →
  (∀ ws, R ws (m ws).2) →
  (∀ a ws, R ws (k a ws).2) →
  ∀ ws, R ws (bind m k ws).2.
Proof.
  intros Htrans Hm Hk ws. unfold bind. pose proof (Hm ws) as H1.
  destruct (m ws) as [[a| |] ws1]; simpl in *; try done.
  eapply Htrans; [exact H1|apply Hk].
Qed.

(** ** The loop at a known match *)

Lemma lastc_cons prev c s : lastc prev (c :: s) = lastc (Some c) s.
Proof.
  unfold lastc. destruct s as [|d s]; [done|]. rewrite last_cons_cons.
  destruct (last (d :: s)) eqn:E; [done|]. by apply last_None in E.
Qed.

Lemma regex_replace_skip mt h prev s t ws :
  regex_replace mt h prev (length s) (s ++ t) ws = regex_replace mt h (lastc prev s) 0 t ws.
Proof.
  revert prev. induction s as [|c s IH]; intros prev; [done|].
  cbn [length app regex_replace]. by rewrite IH, lastc_cons.
Qed.

(** The loop on a text whose leftmost match is known. *)
Lemma regex_replace_at mt h prev pre tok post m ws :
  (∀ a c t, pre = a ++ c :: t → mt (c :: t ++ tok ++ post) = None) →
  mt (tok ++ post) = Some m → m0 m = tok → tok ≠ [] →
  regex_replace mt h prev 0 (pre ++ tok ++ post) ws =
  bind (h (lastc prev pre) m)
    (λ r, bind (regex_replace mt h (lastc None tok) 0 post) (λ rest, ret (pre ++ r ++ rest))) ws.
Proof.
  intros Hpre Hm Hm0 Htok. revert prev ws Hpre.
  induction pre as [|d pre IH]; intros prev ws Hpre.
  - destruct tok as [|c tok']; [done|]. cbn [app regex_replace] in *.
    rewrite Hm, Hm0. cbn [length]. rewrite Nat.sub_1_r. cbn [Nat.pred].
    unfold bind. change (lastc prev []) with prev.
    destruct (h prev m ws) as [[r| |] ws1]; try done.
    by rewrite regex_replace_skip, lastc_cons.
  - cbn [app regex_replace]. rewrite (Hpre [] d pre) by done.
    unfold bind at 1. rewrite IH by (intros a c t ->; by apply (Hpre (d :: a) c t)).
    rewrite lastc_cons. unfold bind.
    destruct (h _ m ws) as [[r| |] ws1]; try done.
    by destruct (regex_replace mt h _ 0 post ws1) as [[rest| |] ws2].
Qed.

(** ** Resolution and the workspace *)

Section ResolverFrame.
Variable cwd : text.
Variable cfg : Config.
Variable fs : FS.

Lemma ws_grows_refl ws : ws_grows cwd cfg fs ws ws.
Proof. intros id. by left. Qed.

Lemma ws_grows_trans a b c :
  ws_grows cwd cfg fs a b → ws_grows cwd cfg fs b c → ws_grows cwd cfg fs a c.
Proof.
  intros Hab Hbc id.
  destruct (Hab id) as [[H1 H2]|[H1 (x & Hx & H2 & H3)]],
           (Hbc id) as [[H4 H5]|[H4 (y & Hy & H5 & H6)]].
  - left. split; congruence.
  - right. split; [congruence|]. exists y. done.
  - right. split; [done|]. exists x. repeat split; congruence.
  - congruence.
Qed.

Lemma ensureBankLoadedInWorkspace_grows ws id :
  ws_grows cwd cfg fs ws (ensureBankLoadedInWorkspace cwd cfg fs ws id).2.
Proof.
  unfold ensureBankLoadedInWorkspace.
  destruct (banks ws !! id) eqn:Hid; [apply ws_grows_refl|].
  destruct (fs_exists _ _ _) as [[]| |]; try apply ws_grows_refl.
  destruct (loadContextFile _ _ _ _) as [[err|b]| |] eqn:Hload; try apply ws_grows_refl.
  intros id'. simpl. destruct (decide (id = id')) as [<-|Hne].
  - right. split; [done|]. exists b. by rewrite !lookup_insert_eq.
  - left. by rewrite !lookup_insert_ne.
Qed.

Lemma getValue_grows bank reg addr ws :
  ws_grows cwd cfg fs ws (getValue cwd cfg fs bank reg addr ws).2.
Proof.
  unfold getValue. apply bind_preserves; [apply ws_grows_trans| |].
  - intros ws0. apply ensureBankLoadedInWorkspace_grows.
  - intros _ ws0. apply ws_grows_refl.
Qed.

Lemma getValueTwoPart_grows bank addr ws :
  ws_grows cwd cfg fs ws (getValueTwoPart cwd cfg fs bank addr ws).2.
Proof.
  unfold getValueTwoPart. apply bind_preserves; [apply ws_grows_trans| |].
  - intros ws0. apply ensureBankLoadedInWorkspace_grows.
  - intros _ ws0. apply getValue_grows.
Qed.

Lemma expand_grows rec visited lookup key token bank :
  (∀ v b vis ws, ws_grows cwd cfg fs ws (rec v b vis ws).2) →
  (∀ ws, ws_grows cwd cfg fs ws (lookup ws).2) →
  ∀ ws, ws_grows cwd cfg fs ws (expand rec visited lookup key token bank ws).2.
Proof.
  intros Hrec Hlook ws. unfold expand.
  destruct (decide _); [apply ws_grows_refl|].
  apply bind_preserves; [apply ws_grows_trans|done|].
  intros [v|] ws1; [apply Hrec|apply ws_grows_refl].
Qed.

(** The handlers: a handler either returns a marker, which leaves the
  workspace alone, or goes through [expand]. *)
Ltac handler_grows :=
repeat first
  [ apply ws_grows_refl
  | apply expand_grows;
    [assumption | first [apply getValue_grows | apply getValueTwoPart_grows]]
  | match goal with
    | |- context [match ?x with _ => _ end] => destruct x
    end ].

Lemma sameHandler_grows rec currentBank visited m :
(∀ v b vis ws, ws_grows cwd cfg fs ws (rec v b vis ws).2) →
∀ ws, ws_grows cwd cfg fs ws (sameHandler cwd cfg fs rec currentBank visited m ws).2.
Proof. intros Hrec ws. unfold sameHandler. handler_grows. Qed.

Lemma pref3Handler_grows rec visited m :
(∀ v b vis ws, ws_grows cwd cfg fs ws (rec v b vis ws).2) →
∀ ws, ws_grows cwd cfg fs ws (pref3Handler cwd cfg fs rec visited m ws).2.
Proof. intros Hrec ws. unfold pref3Handler. handler_grows. Qed.

Lemma twoHandler_grows rec visited m :
(∀ v b vis ws, ws_grows cwd cfg fs ws (rec v b vis ws).2) →
∀ ws, ws_grows cwd cfg fs ws (twoHandler cwd cfg fs rec visited m ws).2.
Proof. intros Hrec ws. unfold twoHandler. handler_grows. Qed.

Lemma triHandler_grows rec visited p m :
(∀ v b vis ws, ws_grows cwd cfg fs ws (rec v b vis ws).2) →
∀ ws, ws_grows cwd cfg fs ws (triHandler cwd cfg fs rec visited p m ws).2.
Proof. intros Hrec ws. unfold triHandler. handler_grows. Qed.

Lemma cellPasses_grows rec currentBank visited s :
(∀ v b vis ws, ws_grows cwd cfg fs ws (rec v b vis ws).2) →
∀ ws, ws_grows cwd cfg fs ws (cellPasses cwd cfg fs rec currentBank visited s ws).2.
Proof.
intros Hrec. unfold cellPasses, samePass, pref3Pass, twoPass, triPass.
repeat (apply bind_preserves; [apply ws_grows_trans| |intros ?]).
- apply regex_replace_preserves; [apply ws_grows_refl|apply ws_grows_trans|].
  intros _ m. by apply sameHandler_grows.
- destruct (regex_ordinary _).
  { apply regex_replace_preserves; [apply ws_grows_refl|apply ws_grows_trans|].
    intros _ m. by apply pref3Handler_grows. }
  destruct (eqc _ "."%char).
  { apply regex_replace_preserves; [apply ws_grows_refl|apply ws_grows_trans|].
    intros _ m. by apply pref3Handler_grows. }
  destruct (eqc _ "^"%char).
  { destruct (match_bol3 _) as [m|]; [|intros ws; apply ws_grows_refl].
    apply bind_preserves; [apply ws_grows_trans| |].
    - by apply pref3Handler_grows.
    - intros r ws. apply ws_grows_refl. }
  destruct (eqc _ "$"%char); [intros ws; apply ws_grows_refl|].
  destruct (eqc _ "|"%char); intros ws; apply ws_grows_refl.
- apply regex_replace_preserves; [apply ws_grows_refl|apply ws_grows_trans|].
  intros _ m. by apply twoHandler_grows.
- apply regex_replace_preserves; [apply ws_grows_refl|apply ws_grows_trans|].
  intros p m. by apply triHandler_grows.
Qed.

(** The file pass reads files and leaves the workspace alone. *)
Lemma filePass_frame s ws : (filePass cwd fs s ws).2 = ws.
Proof.
  unfold filePass.
  apply (regex_replace_preserves (λ a b, b = a)); [done|congruence|done].
Qed.

Lemma resolve_grows fuel input currentBank visited ws :
  ws_grows cwd cfg fs ws (resolve cwd cfg fs fuel input currentBank visited ws).2.
Proof.
  revert input currentBank visited ws.
  induction fuel as [|f IH]; intros input currentBank visited ws; simpl.
  - apply ws_grows_refl.
  - apply bind_preserves; [apply ws_grows_trans| |].
    + intros ws0. rewrite filePass_frame. apply ws_grows_refl.
    + intros s ws0. by apply cellPasses_grows.
Qed.
End ResolverFrame.

(** ** Unfolding the handlers *)

Section ResolverSteps.
Variable cwd : text.
Variable cfg : Config.
Variable fs : FS.

Lemma getValue_loaded bank reg addr ws b :
  banks ws !! bank = Some b →
  getValue cwd cfg fs bank reg addr ws = (Ret (cell b reg addr), ws).
Proof.
  intros Hb. unfold getValue, bind, ensureBankLoadedInWorkspace. rewrite Hb.
  by rewrite Hb.
Qed.

Lemma expand_circular rec visited lookup key token bank ws :
  key ∈ visited →
  expand rec visited lookup key token bank ws =
  (Ret (str "[Circular Ref: " ++ token ++ str "]"), ws).
Proof. intros H. unfold expand. by rewrite decide_True. Qed.

Lemma expand_found rec visited lookup key token bank ws v ws1 :
  key ∉ visited → lookup ws = (Ret (Some v), ws1) →
  expand rec visited lookup key token bank ws = rec v bank ({[key]} ∪ visited) ws1.
Proof. intros H Hl. unfold expand. rewrite decide_False by done. unfold bind. by rewrite Hl. Qed.

Lemma expand_missing rec visited lookup key token bank ws ws1 :
  key ∉ visited → lookup ws = (Ret None, ws1) →
  expand rec visited lookup key token bank ws =
  (Ret (str "[Missing " ++ token ++ str "]"), ws1).
Proof. intros H Hl. unfold expand. rewrite decide_False by done. unfold bind. by rewrite Hl. Qed.

Lemma sameHandler_ok rec currentBank visited m r a :
  parseIntBase (m1 m) (cfg_base cfg) = Some r →
  parseIntBase (m2 m) (cfg_base cfg) = Some a →
  sameHandler cwd cfg fs rec currentBank visited m =
  expand rec visited (getValue cwd cfg fs currentBank r a)
    (to_string currentBank ++ "."%char :: to_string r ++ "."%char :: to_string a)
    (m0 m) currentBank.
Proof. intros H1 H2. unfold sameHandler. by rewrite H1, H2. Qed.


Lemma twoHandler_other rec visited m pf rest ws :
  m1 m = pf :: rest → pf ≠ cfg_prefix cfg →
  twoHandler cwd cfg fs rec visited m ws = (Ret (m0 m), ws).
Proof.
  intros H1 Hne. unfold twoHandler. rewrite H1.
  apply eqc_false in Hne. by rewrite Hne.
Qed.



Lemma resolve_S fuel input currentBank visited :
  resolve cwd cfg fs (S fuel) input currentBank visited =
  bind (filePass cwd fs input) (cellPasses cwd cfg fs (resolve cwd cfg fs fuel) currentBank visited).
Proof. reflexivity. Qed.
End ResolverSteps.

(** Computes the matches of the pass at the head of the goal. *)
Ltac pass_matches :=
  erewrite regex_replace_eval by (vm_compute; reflexivity); simpl replace_all.

(** C7.  With the default configuration (prefix [x], base 10) and a store
    whose bank 1 holds [r1.0001] at register 1, address 1, resolving that
    value with current bank 1 and an empty visited set returns exactly
    [[Circular Ref: r1.0001]], whatever else the store and the file system
    hold, at every recursion budget from 2 on. *)
Theorem resolve_self_reference (cwd : text) (fs : FS) (ws : Workspace) (b : Bank) (fuel : nat) :
  banks ws !! 1 = Some b →
  cell b 1 1 = Some (str "r1.0001") →
  resolve cwd defaultConfig fs (S (S fuel)) (str "r1.0001") 1 ∅ ws
  = (Ret (str "[Circular Ref: r1.0001]"), ws).
Proof.
  intros Hb Hc.
  assert (Hrest : ∀ rec vis ws0,
    bind (pref3Pass cwd defaultConfig fs rec vis (str "[Circular Ref: r1.0001]"))
      (λ s, bind (twoPass cwd defaultConfig fs rec vis s) (triPass cwd defaultConfig fs rec vis)) ws0
    = (Ret (str "[Circular Ref: r1.0001]"), ws0)).
  { intros rec vis ws0. unfold bind, pref3Pass.
    change (regex_ordinary (cfg_prefix defaultConfig)) with true. cbv iota.
    pass_matches.
    unfold ret at 1, twoPass.
    pass_matches.
    unfold bind. rewrite (twoHandler_other _ _ _ _ _ _ "r"%char []) by (simpl; first [reflexivity|discriminate]).
    unfold ret at 1 2, triPass.
    pass_matches. reflexivity. }
  set (key := to_string 1 ++ "."%char :: to_string 1 ++ "."%char :: to_string 1).
  assert (Hinner : ∀ f, resolve cwd defaultConfig fs (S f) (str "r1.0001") 1 ({[key]} ∪ ∅) ws
                   = (Ret (str "[Circular Ref: r1.0001]"), ws)).
  { intros f. rewrite resolve_S. unfold bind at 1, filePass.
    pass_matches.
    unfold ret at 1, cellPasses. unfold bind at 1, samePass.
    pass_matches.
    unfold bind at 1.
    erewrite sameHandler_ok by (vm_compute; reflexivity).
    rewrite expand_circular by (subst key; set_solver).
    unfold bind at 1, ret at 1 2. apply Hrest. }
  rewrite resolve_S. unfold bind at 1, filePass.
  pass_matches.
  unfold ret at 1, cellPasses. unfold bind at 1, samePass.
  pass_matches.
  unfold bind at 1.
  erewrite sameHandler_ok by (vm_compute; reflexivity).
  erewrite expand_found; [| set_solver | rewrite (getValue_loaded _ _ _ _ _ _ _ _ Hb), Hc; reflexivity].
  fold key. rewrite <- resolve_S, Hinner.
  unfold bind at 1, ret at 1 2. apply Hrest.
Qed.

Lemma resolve_self_reference_witness :
  resolve (str "/w") defaultConfig ∅ 2 (str "r1.0001") 1 ∅ (oneCellWorkspace (str "r1.0001"))
  = (Ret (str "[Circular Ref: r1.0001]"), oneCellWorkspace (str "r1.0001")).
Proof.
  apply (resolve_self_reference (str "/w") ∅ (oneCellWorkspace (str "r1.0001"))
           (oneCellBank 1 (str "r1.0001")) 0); reflexivity.
Defined.

(** C1.  Cell (1, 1, 1) holds [a x01.1.1], a prefixed reference to itself.
    Resolving [r1.1] puts the key [1.1.1] on the path; inside the cell the
    prefixed pass looks for the key [x01.1.1], does not find it, and enters
    the cell a second time before it reports the cycle.  The second equation
    is the inner call alone: the target (1, 1, 1) is on the path, and the
    reference is expanded, not reported. *)
Theorem resolve_prefixed_reference_reenters_cell (fuel : nat) :
  resolve (str "/w") defaultConfig ∅ (S (S (S fuel))) (str "r1.1") 1 ∅
    (oneCellWorkspace (str "a x01.1.1"))
  = (Ret (str "a a [Circular Ref: a [Circular Ref: x01.1.1]]"),
     oneCellWorkspace (str "a x01.1.1"))
  ∧ resolve (str "/w") defaultConfig ∅ (S (S fuel)) (str "a x01.1.1") 1 {[ str "1.1.1" ]}
      (oneCellWorkspace (str "a x01.1.1"))
    = (Ret (str "a a [Circular Ref: x01.1.1]"), oneCellWorkspace (str "a x01.1.1")).
Proof. split; vm_compute; reflexivity. Qed.

(** C2, as stated, fails: resolving a reference to bank 2, which is on disk
    and not in the workspace, returns the value and leaves a workspace that
    holds bank 2. *)
Lemma resolve_loads_missing_bank :
  (resolve (str "/w") defaultConfig fs_bank2 2 (str "x2.1.1") 1 ∅ emptyWorkspace).1
  = Ret (str "hello")
  ∧ (resolve (str "/w") defaultConfig fs_bank2 2 (str "x2.1.1") 1 ∅ emptyWorkspace).2
    ≠ emptyWorkspace.
Proof.
  split; [vm_compute; reflexivity|].
  intros H. apply (f_equal (λ ws, bool_decide (is_Some (banks ws !! 2)))) in H.
  vm_compute in H. discriminate.
Qed.

Lemma ws_grows_nothing_to_load cwd cfg fs ws ws' :
  ws_grows cwd cfg fs ws ws' →
  (∀ id, banks ws !! id = None → fs_exists cwd fs (contextFileName cfg id) ≠ Ret true) →
  ws' = ws.
Proof.
  intros Hg Hfiles.
  assert (H : ∀ id, banks ws' !! id = banks ws !! id
                    ∧ filenames ws' !! id = filenames ws !! id).
  { intros id. destruct (Hg id) as [?|[Hnone (b & Hload & _)]]; [done|].
    apply Hfiles in Hnone. unfold loadContextFile in Hload.
    by destruct (fs_exists _ _ _) as [[]| |]. }
  destruct ws as [bs fns], ws' as [bs' fns']. simpl in *. f_equal.
  - apply map_eq. intros id. apply H.
  - apply map_eq. intros id. apply H.
Qed.

(** C2, amended.  Resolution never changes a bank that is in the workspace,
    in any configuration, on any input and however the call ends (a value,
    an exception, or no return): every bank id bound before the call is bound
    to the same bank (id, title, registers and values) and the same file name
    after it.  The workspace after the call differs only by banks that were
    absent and have been loaded from their canonical files; when no absent
    bank has a file on disk, the workspace is identical before and after the
    call. *)
Theorem resolve_keeps_loaded_banks (cwd : text) (cfg : Config) (fs : FS) (fuel : nat)
    (input : text) (currentBank : Z) (visited : gset text) (ws : Workspace) :
  let ws' := (resolve cwd cfg fs fuel input currentBank visited ws).2 in
  ws_grows cwd cfg fs ws ws'
  ∧ (∀ id b, banks ws !! id = Some b →
             banks ws' !! id = Some b ∧ filenames ws' !! id = filenames ws !! id)
  ∧ ((∀ id, banks ws !! id = None → fs_exists cwd fs (contextFileName cfg id) ≠ Ret true) →
     ws' = ws).
Proof.
  intros ws'. assert (H : ws_grows cwd cfg fs ws ws') by apply resolve_grows.
  split; [done|]. split.
  - intros id b Hb.
    destruct (H id) as [[H1 H2]|[H1 _]]; [|congruence].
    split; congruence.
  - by apply ws_grows_nothing_to_load.
Qed.

Lemma resolve_keeps_loaded_banks_witness :
  let ws := oneCellWorkspace (str "x2.1.1") in
  let ws' := (resolve (str "/w") defaultConfig fs_bank2 3 (str "r1.1") 1 ∅ ws).2 in
  ws_grows (str "/w") defaultConfig fs_bank2 ws ws'
  ∧ (∀ id b, banks ws !! id = Some b →
             banks ws' !! id = Some b ∧ filenames ws' !! id = filenames ws !! id)
  ∧ ((∀ id, banks ws !! id = None →
            fs_exists (str "/w") fs_bank2 (contextFileName defaultConfig id) ≠ Ret true) →
     ws' = ws).
Proof.
  apply (resolve_keeps_loaded_banks (str "/w") defaultConfig fs_bank2 3 (str "r1.1") 1 ∅
           (oneCellWorkspace (str "x2.1.1"))).
Defined.

(** ** One match among the matches of a pass *)






(** ** File inclusion *)

Lemma bind_ret_r {A} (m : M A) ws : bind m ret ws = m ws.
Proof. unfold bind, ret. by destruct (m ws) as [[a| |] ws1]. Qed.

(** The scan does not look at the character before a match when the handler
    does not. *)
Lemma regex_replace_prev mt (h : option ascii → smatch → M text) p q skip s ws :
  (∀ p q m, h p m = h q m) →
  regex_replace mt h p skip s ws = regex_replace mt h q skip s ws.
Proof.
  intros Hh. revert skip ws. destruct s as [|c s]; intros skip ws; [done|].
  cbn [regex_replace]. destruct skip as [|k]; [|done].
  destruct (mt (c :: s)) as [m|]; [|done]. by rewrite (Hh p q).
Qed.

(** The scan of [pre ++ rest] is the scan of [pre] followed by the scan of
    [rest], when the pattern sees at every position of [pre] what it sees
    there without [rest], and no match goes beyond [pre]. *)
Lemma regex_replace_app mt h prev skip pre rest ws :
  (∀ a c x, pre = a ++ c :: x → mt (c :: x ++ rest) = mt (c :: x)) →
  (∀ a x m, pre = a ++ x → mt x = Some m → (length (m0 m) ≤ length x)%nat) →
  (skip ≤ length pre)%nat →
  regex_replace mt h prev skip (pre ++ rest) ws =
  (let* a := regex_replace mt h prev skip pre in
   let* b := regex_replace mt h (lastc prev pre) 0 rest in
   ret (a ++ b)) ws.
Proof.
  intros Hloc Hlen. revert prev skip ws.
  induction pre as [|c pre IH]; intros prev skip ws Hskip.
  - cbn [length] in Hskip. replace skip with O by lia. cbn [app regex_replace].
    unfold bind at 1, ret at 1. change (lastc prev []) with prev.
    symmetry. apply (bind_ret_r (regex_replace mt h prev 0 rest)).
  - assert (Hloc' : ∀ a d x, pre = a ++ d :: x → mt (d :: x ++ rest) = mt (d :: x)).
    { intros a d x ->. by apply (Hloc (c :: a)). }
    assert (Hlen' : ∀ a x m, pre = a ++ x → mt x = Some m → (length (m0 m) ≤ length x)%nat).
    { intros a x m ->. by apply (Hlen (c :: a)). }
    cbn [app regex_replace]. destruct skip as [|k].
    + change (c :: pre ++ rest) with (c :: (pre ++ rest)).
      rewrite (Hloc [] c pre) by done.
      destruct (mt (c :: pre)) as [m|] eqn:Hm.
      * pose proof (Hlen [] (c :: pre) m eq_refl Hm) as Hl. cbn [length] in Hl.
        unfold bind at 1 3 4. destruct (h prev m ws) as [[r| |] ws1]; try done.
        unfold bind at 1. rewrite (IH Hloc' Hlen') by lia.
        rewrite lastc_cons. unfold bind, ret.
        destruct (regex_replace mt h (Some c) _ pre ws1) as [[o1| |] ws2]; try done.
        destruct (regex_replace mt h _ 0 rest ws2) as [[o2| |] ws3]; try done.
        by rewrite app_assoc.
      * unfold bind at 1. rewrite (IH Hloc' Hlen') by (cbn [length]; lia).
        rewrite lastc_cons. unfold bind, ret.
        destruct (regex_replace mt h (Some c) 0 pre ws) as [[o1| |] ws2]; try done.
        by destruct (regex_replace mt h _ 0 rest ws2) as [[o2| |] ws3].
    + cbn [length] in Hskip. rewrite (IH Hloc' Hlen') by lia. by rewrite lastc_cons.
Qed.

Lemma strip_prefix_spec lit s r : strip_prefix lit s = Some r → s = lit ++ r.
Proof.
  revert s. induction lit as [|c lit IH]; intros s; cbn [strip_prefix].
  - by intros [= ->].
  - destruct s as [|d s]; [done|]. destruct (eqc c d) eqn:E; [|done].
    apply eqc_true in E as ->. intros H. by rewrite (IH _ H).
Qed.

Lemma strip_prefix_app_some lit s r rest :
  strip_prefix lit s = Some r → strip_prefix lit (s ++ rest) = Some (r ++ rest).
Proof.
  revert s. induction lit as [|c lit IH]; intros s; cbn [strip_prefix].
  - by intros [= ->].
  - destruct s as [|d s]; [done|]. cbn [app strip_prefix].
    destruct (eqc c d); [apply IH|done].
Qed.

(** A literal that does not contain [d] cannot go on into a text that starts
    with [d]. *)
Lemma strip_prefix_app_none lit s d rest :
  strip_prefix lit s = None → d ∉ lit → strip_prefix lit (s ++ d :: rest) = None.
Proof.
  revert s. induction lit as [|c lit IH]; intros s; cbn [strip_prefix]; [done|].
  intros H Hd. apply not_elem_of_cons in Hd as [Hne Hd].
  destruct s as [|e s]; cbn [app strip_prefix].
  - replace (eqc c d) with false; [done|]. symmetry. by apply eqc_false.
  - destruct (eqc c e); [by apply IH|done].
Qed.

Lemma takewhile_app_inside {A} (p : A → bool) s rest :
  existsb (λ c, negb (p c)) s = true →
  takewhile p (s ++ rest) = takewhile p s
  ∧ dropwhile p (s ++ rest) = dropwhile p s ++ rest
  ∧ dropwhile p s ≠ [].
Proof.
  induction s as [|c s IH]; [done|]. cbn [existsb app takewhile dropwhile].
  destruct (p c); cbn [negb orb]; [|done].
  intros H. destruct (IH H) as (-> & -> & ?). done.
Qed.

Lemma takewhile_length_le {A} (p : A → bool) s : (length (takewhile p s) ≤ length s)%nat.
Proof. induction s as [|c s IH]; cbn [takewhile]; [done|]. destruct (p c); cbn [length]; lia. Qed.

Lemma takewhile_dropwhile_length {A} (p : A → bool) s :
  (length (takewhile p s) + length (dropwhile p s) = length s)%nat.
Proof. induction s as [|c s IH]; cbn [takewhile dropwhile]; [done|]. destruct (p c); cbn [length]; lia. Qed.

Lemma contains_exists c s :
  contains c s = existsb (λ d, negb (negb (eqc d c))) s.
Proof.
  unfold contains. induction s as [|d s IH]; [done|]. cbn [existsb].
  rewrite IH, negb_involutive. f_equal.
  destruct (eqc c d) eqn:E.
  - apply eqc_true in E as ->. by rewrite eqc_refl.
  - symmetry. apply eqc_false. apply eqc_false in E. congruence.
Qed.

(** A match of the file pattern covers a prefix of the text. *)
Lemma match_file_length s m : match_file s = Some m → (length (m0 m) ≤ length s)%nat.
Proof.
  unfold match_file. destruct (strip_prefix _ s) as [r|] eqn:E; [|done].
  apply strip_prefix_spec in E as ->.
  pose proof (takewhile_dropwhile_length (λ c, negb (eqc c ")")) r) as Hl.
  destruct (takewhile _ r) as [|c name]; [done|].
  destruct (dropwhile _ r) as [|d t]; [done|]. intros [= <-].
  cbn [m0]. rewrite !length_app. change (length (str "@file(")) with 6%nat.
  cbn [length] in *. rewrite ?length_app. cbn [length]. lia.
Qed.

(** Where every token is closed, the file pattern sees at every position what
    it sees without the text that follows, when that text starts with an
    at-sign. *)
Lemma match_file_local c x rest :
  closed_tokens (c :: x) = true →
  match_file (c :: x ++ "@"%char :: rest) = match_file (c :: x).
Proof.
  cbn [closed_tokens]. intros H. apply andb_true_iff in H as [H _].
  unfold match_file. change (c :: x ++ "@"%char :: rest) with ((c :: x) ++ "@"%char :: rest).
  destruct (strip_prefix (str "@file(") (c :: x)) as [r|] eqn:E.
  - rewrite (strip_prefix_app_some _ _ _ _ E).
    rewrite contains_exists in H.
    destruct (takewhile_app_inside (λ c, negb (eqc c ")")) r ("@"%char :: rest) H)
      as (-> & -> & Hne).
    destruct (takewhile _ r) as [|d name]; [done|].
    destruct (dropwhile _ r) as [|e t]; done.
  - change (str "@file(") with ("@"%char :: str "file(") in *.
    cbn [strip_prefix app] in *. destruct (eqc "@" c); [|done].
    rewrite strip_prefix_app_none; [done|done|].
    apply (bool_decide_unpack _). vm_compute. reflexivity.
Qed.

Lemma closed_tokens_suffix a x : closed_tokens (a ++ x) = true → closed_tokens x = true.
Proof.
  induction a as [|c a IH]; [done|]. cbn [app closed_tokens].
  intros H. apply andb_true_iff in H as [_ H]. by apply IH.
Qed.

(** The file pattern at a token. *)
Lemma match_file_here name post :
  name ≠ [] → ")"%char ∉ name →
  match_file (str "@file(" ++ name ++ ")"%char :: post)
  = Some {| m0 := str "@file(" ++ name ++ [")"%char]; m1 := name; m2 := []; m3 := [] |}.
Proof.
  intros Hne Hrp. unfold match_file.
  rewrite (strip_prefix_app_some (str "@file(") (str "@file(") [] _ eq_refl). cbn [app].
  assert (Hall : Forall (λ c, negb (eqc c ")") = true) name).
  { apply Forall_forall. intros c Hc. apply negb_true_iff, eqc_false. intros ->. done. }
  assert (Htw : takewhile (λ c, negb (eqc c ")")) (name ++ ")"%char :: post) = name
                ∧ dropwhile (λ c, negb (eqc c ")")) (name ++ ")"%char :: post)
                  = ")"%char :: post).
  { clear Hne Hrp. induction Hall as [|c name Hc Hall IH]; cbn [app takewhile dropwhile].
    - by rewrite eqc_refl.
    - rewrite Hc. destruct IH as [-> ->]. done. }
  destruct Htw as [-> ->]. by destruct name.
Qed.

Section FileInclusion.
Variable cwd : text.
Variable fs : FS.

Lemma includeFile_readable name c :
  fs_exists cwd fs (path_join (str "files") name) = Ret true →
  fs_read cwd fs (path_join (str "files") name) = Ret (Some c) →
  includeFile cwd fs name = Ret c.
Proof. intros He Hr. unfold includeFile. by rewrite He, Hr. Qed.

(** The file pass on a text with a token whose file is there. *)
Lemma filePass_token pre name post c ws :
  closed_tokens pre = true → name ≠ [] → ")"%char ∉ name →
  fs_exists cwd fs (path_join (str "files") (trim name)) = Ret true →
  fs_read cwd fs (path_join (str "files") (trim name)) = Ret (Some c) →
  filePass cwd fs (pre ++ str "@file(" ++ name ++ ")"%char :: post) ws =
  (let* a := filePass cwd fs pre in
   let* b := filePass cwd fs post in
   ret (a ++ c ++ b)) ws.
Proof.
  intros Hcl Hne Hrp He Hr. unfold filePass.
  set (h := λ (_ : option ascii) (m : smatch) (ws : Workspace),
              (includeFile cwd fs (trim (m1 m)), ws)).
  set (tok := str "@file(" ++ name ++ [")"%char]).
  assert (Htok : str "@file(" ++ name ++ ")"%char :: post = [] ++ tok ++ post).
  { unfold tok. cbn [app]. rewrite <- !app_assoc. reflexivity. }
  rewrite regex_replace_app; [| | |lia].
  - unfold bind at 1 3.
    destruct (regex_replace match_file h None 0 pre ws) as [[a| |] ws1]; try done.
    rewrite Htok. unfold bind at 1 2.
    rewrite (regex_replace_at match_file h _ [] tok post
               {| m0 := tok; m1 := name; m2 := []; m3 := [] |}).
    + unfold bind at 1. unfold h at 1. cbn [m1].
      rewrite (includeFile_readable _ _ He Hr).
      unfold bind at 1.
      rewrite (regex_replace_prev match_file h (lastc None tok) None) by done.
      unfold ret.
      by destruct (regex_replace match_file h None 0 post ws1) as [[b| |] ws2].
    + intros a0 c0 t H. by destruct a0.
    + change (tok ++ post) with ([] ++ tok ++ post). rewrite <- Htok.
      by apply match_file_here.
    + done.
    + unfold tok. by destruct name.
  - intros a c0 x ->. apply closed_tokens_suffix in Hcl.
    exact (match_file_local c0 x (str "file(" ++ name ++ ")"%char :: post) Hcl).
  - intros a x m _. apply match_file_length.
Qed.
End FileInclusion.

(** C6, as stated, fails: the readable file [a.txt] holds [r1.1], and
    resolving [@file(a.txt)] returns the value of the cell [r1.1] names, not
    the text [r1.1]. *)
Lemma resolve_expands_included_reference :
  resolve (str "/w") defaultConfig fs_include 2 (str "@file(a.txt)") 1 ∅
    (oneCellWorkspace (str "hello"))
  = (Ret (str "hello"), oneCellWorkspace (str "hello"))
  ∧ fs_read (str "/w") fs_include (path_join (str "files") (str "a.txt"))
    = Ret (Some (str "r1.1")).
Proof. split; vm_compute; reflexivity. Qed.

(** C6, amended.  Take an input [pre ++ @file(<name>) ++ post] in which every
    [@file(] of [pre] is closed by a parenthesis in [pre] (so that the token
    is not inside an earlier one), [<name>] is not empty and has no closing
    parenthesis, and the file [files/<trimmed name>] exists and is read as
    [c].  Then the file pass gives the output of the pass on [pre], the
    contents [c] verbatim (not searched for [@file] tokens) and the output of
    the pass on [post]; and [resolve] gives what the four cell-reference
    passes give on that whole text, so that reference tokens inside [c] are
    expanded like any other.  An exception thrown for another token of [pre]
    or [post] propagates. *)
Theorem resolve_included_file_text (cwd : text) (cfg : Config) (fs : FS) (fuel : nat)
    (pre name post c : text) (currentBank : Z) (visited : gset text) (ws : Workspace) :
  closed_tokens pre = true →
  name ≠ [] → ")"%char ∉ name →
  fs_exists cwd fs (path_join (str "files") (trim name)) = Ret true →
  fs_read cwd fs (path_join (str "files") (trim name)) = Ret (Some c) →
  let s := pre ++ str "@file(" ++ name ++ ")"%char :: post in
  filePass cwd fs s ws =
    (let* a := filePass cwd fs pre in
     let* b := filePass cwd fs post in
     ret (a ++ c ++ b)) ws
  ∧ resolve cwd cfg fs (S fuel) s currentBank visited ws =
    (let* a := filePass cwd fs pre in
     let* b := filePass cwd fs post in
     cellPasses cwd cfg fs (resolve cwd cfg fs fuel) currentBank visited (a ++ c ++ b)) ws.
Proof.
  intros Hcl Hne Hrp He Hr s.
  pose proof (filePass_token cwd fs pre name post c ws Hcl Hne Hrp He Hr) as Hfile.
  split; [exact Hfile|].
  rewrite resolve_S. unfold bind at 1. fold s in Hfile. rewrite Hfile.
  unfold bind, ret.
  destruct (filePass cwd fs pre ws) as [[a| |] ws1]; try done.
  by destruct (filePass cwd fs post ws1) as [[b| |] ws2].
Qed.

Lemma resolve_included_file_text_witness :
  let ws := oneCellWorkspace (str "hello") in
  let s := str "see " ++ str "@file(" ++ str "a.txt" ++ ")"%char :: str " now" in
  filePass (str "/w") fs_include s ws =
    (let* a := filePass (str "/w") fs_include (str "see ") in
     let* b := filePass (str "/w") fs_include (str " now") in
     ret (a ++ str "r1.1" ++ b)) ws
  ∧ resolve (str "/w") defaultConfig fs_include 2 s 1 ∅ ws =
    (let* a := filePass (str "/w") fs_include (str "see ") in
     let* b := filePass (str "/w") fs_include (str " now") in
     cellPasses (str "/w") defaultConfig fs_include (resolve (str "/w") defaultConfig fs_include 1)
       1 ∅ (a ++ str "r1.1" ++ b)) ws.
Proof.
  apply (resolve_included_file_text (str "/w") defaultConfig fs_include 1
           (str "see ") (str "a.txt") (str " now") (str "r1.1") 1 ∅
           (oneCellWorkspace (str "hello"))).
  - reflexivity.
  - discriminate.
  - apply (bool_decide_unpack _). vm_compute. reflexivity.
  - vm_compute. reflexivity.
  - vm_compute. reflexivity.
Defined.

(** The included reference of the example is expanded. *)
Example included_reference_example :
  resolve (str "/w") defaultConfig fs_include 2 (str "see @file(a.txt) now") 1 ∅
    (oneCellWorkspace (str "hello"))
  = (Ret (str "see hello now"), oneCellWorkspace (str "hello")).
Proof. vm_compute. reflexivity. Qed.

(** ** Files and directories *)

Section Files.
Variable cwd : text.

Lemma create_directory_only_dirs acc d r fs1 :
  create_directory acc d = (r, fs1) →
  ∀ q, fs1 !! q = acc.2 !! q ∨ (acc.2 !! q = None ∧ fs1 !! q = Some Dir).
Proof.
  unfold create_directory. destruct acc as [[[]|e|] fs]; cbn [snd];
    try (intros [= <- <-] q; by left).
  destruct (fs !! d) as [[|rd w c]|] eqn:Hd; try (intros [= <- <-] q; by left).
  destruct (_ <? _)%nat; intros [= <- <-] q; [by left|].
  destruct (decide (d = q)) as [<-|Hne].
  - right. by rewrite lookup_insert_eq.
  - left. by rewrite lookup_insert_ne.
Qed.


Lemma foldl_create_directory_only_dirs ds acc r fs1 :
  foldl create_directory acc ds = (r, fs1) →
  ∀ q, fs1 !! q = acc.2 !! q ∨ (acc.2 !! q = None ∧ fs1 !! q = Some Dir).
Proof.
  revert acc. induction ds as [|d ds IH]; intros acc; cbn [foldl].
  - intros -> q. by left.
  - intros H q. destruct (create_directory acc d) as [r0 fs0] eqn:E.
    destruct (IH _ H q) as [H1|[H1 H2]]; cbn [snd] in *;
      destruct (create_directory_only_dirs _ _ _ _ E q) as [H3|[H3 H4]].
    + left. congruence.
    + right. split; congruence.
    + right. split; congruence.
    + congruence.
Qed.


(** [create_directories] adds directories and nothing else, however it
    ends. *)
Lemma create_directories_only_dirs fs p r fs1 :
  create_directories cwd fs p = (r, fs1) →
  ∀ q, fs1 !! q = fs !! q ∨ (fs !! q = None ∧ fs1 !! q = Some Dir).
Proof.
  unfold create_directories. destruct p as [|c p]; [intros [= <- <-] q; by left|].
  destruct (_ <=? _)%nat; [intros [= <- <-] q; by left|].
  apply foldl_create_directory_only_dirs.
Qed.


Lemma writeTextFile_written fs p s fs' :
  writeTextFile cwd fs p s = (Ret true, fs') →
  ∃ rd, fs' !! absolute cwd p = Some (File rd true s).
Proof.
  unfold writeTextFile.
  destruct (create_directories cwd fs (parent_path p)) as [[[]|e|] fs1]; try done.
  destruct (name_too_long cwd fs1 p); [done|]. destruct (filename p); [done|].
  destruct (fs1 !! absolute cwd p) as [[|rd [] c]|]; intros [= <-].
  - exists rd. by rewrite lookup_insert_eq.
  - exists true. by rewrite lookup_insert_eq.
Qed.

(** Whatever [writeTextFile] does, at any other path the file system
    differs by new directories only. *)
Lemma writeTextFile_elsewhere fs p s r fs' q :
  writeTextFile cwd fs p s = (r, fs') → q ≠ absolute cwd p →
  fs' !! q = fs !! q ∨ (fs !! q = None ∧ fs' !! q = Some Dir).
Proof.
  unfold writeTextFile.
  destruct (create_directories cwd fs (parent_path p)) as [r1 fs1] eqn:Hmk.
  pose proof (create_directories_only_dirs _ _ _ _ Hmk q) as Hq.
  destruct r1 as [[]|e|]; try (by intros [= <- <-]).
  destruct (name_too_long cwd fs1 p); [by intros [= <- <-]|].
  destruct (filename p); [by intros [= <- <-]|].
  destruct (fs1 !! absolute cwd p) as [[|rd [] c]|]; intros [= <- <-] Hne;
    rewrite ?lookup_insert_ne by done; done.
Qed.

Lemma writeTextFile_keeps_file fs p s r fs' q rd w c :
  writeTextFile cwd fs p s = (r, fs') → q ≠ absolute cwd p →
  fs !! q = Some (File rd w c) → fs' !! q = Some (File rd w c).
Proof.
  intros Hw Hne Hq. destruct (writeTextFile_elsewhere _ _ _ _ _ q Hw Hne) as [->|[H _]];
    congruence.
Qed.

(** A [writeTextFile] that does not report success has written no file. *)
Lemma writeTextFile_refused fs p s r fs' :
  writeTextFile cwd fs p s = (r, fs') → r ≠ Ret true →
  ∀ q, fs' !! q = fs !! q ∨ (fs !! q = None ∧ fs' !! q = Some Dir).
Proof.
  unfold writeTextFile.
  destruct (create_directories cwd fs (parent_path p)) as [r1 fs1] eqn:Hmk.
  pose proof (create_directories_only_dirs _ _ _ _ Hmk) as Hq.
  destruct r1 as [[]|e|]; try (by intros [= <- <-]).
  destruct (name_too_long cwd fs1 p); [by intros [= <- <-]|].
  destruct (filename p); [by intros [= <- <-]|].
  destruct (fs1 !! absolute cwd p) as [[|rd [] c]|]; intros [= <- <-]; done.
Qed.

Lemma absolute_join_ne d a b :
  isAbsolute a = false → isAbsolute b = false → a ≠ b →
  absolute cwd (path_join d a) ≠ absolute cwd (path_join d b).
Proof.
  intros Ha Hb Hne. unfold path_join. rewrite Ha, Hb.
  assert (Habs : isAbsolute (d ++ "/"%char :: a) = isAbsolute (d ++ "/"%char :: b)).
  { by destruct d. }
  unfold absolute. rewrite <- Habs.
  destruct (isAbsolute (d ++ "/"%char :: a)) eqn:E.
  - intros H. apply app_inv_head in H. congruence.
  - unfold path_join. rewrite <- Habs, E.
    intros H. apply app_inv_head in H. injection H as H.
    apply app_inv_head in H. congruence.
Qed.

End Files.

(** ** The outcomes of [Kernel::run] *)

Lemma ws_grows_keeps cwd cfg fs ws ws' id b :
  ws_grows cwd cfg fs ws ws' → banks ws !! id = Some b → banks ws' !! id = Some b.
Proof. intros H Hb. destruct (H id) as [[-> _]|[Hn _]]; congruence. Qed.

Lemma bank_at_present ws id b : banks ws !! id = Some b → bank_at ws id = (b, ws).
Proof. intros H. unfold bank_at. by rewrite H. Qed.

Lemma app_singleton_ne {A} (l : list A) x : l ++ [x] ≠ l.
Proof. intros H. apply (f_equal length) in H. rewrite length_app in H. simpl in H. lia. Qed.

Section KernelProofs.
Variable cwd : text.
Variable cfg : Config.
Variable kWindows : bool.
Variable system : text → FS → Z * FS.
Variable plugins : list PluginManifest.

(** Looking for a bank a second time changes nothing. *)
Lemma ensureBankLoadedInWorkspace_twice fs ws bank e ws1 :
  ensureBankLoadedInWorkspace cwd cfg fs ws bank = (Ret e, ws1) →
  ∃ e', ensureBankLoadedInWorkspace cwd cfg fs ws1 bank = (Ret e', ws1).
Proof.
  intros E. pose proof E as E0. unfold ensureBankLoadedInWorkspace in E.
  destruct (banks ws !! bank) eqn:Hb.
  { injection E as <- <-. by exists None. }
  destruct (fs_exists _ _ _) as [[]|x|] eqn:Hex; try done.
  - destruct (loadContextFile _ _ _ _) as [[err|b]|x|] eqn:Hload; try done.
    + injection E as <- <-. by eexists.
    + injection E as <- <-. exists None. unfold ensureBankLoadedInWorkspace. cbn [banks].
      by rewrite lookup_insert_eq.
  - injection E as <- <-. by eexists.
Qed.

(** Looking a bank up after it has been looked for is looking it up. *)
Lemma getValue_after_ensure fs ws bank reg addr :
  (let* _ := (λ ws, ensureBankLoadedInWorkspace cwd cfg fs ws bank) in
   getValue cwd cfg fs bank reg addr) ws
  = getValue cwd cfg fs bank reg addr ws.
Proof.
  unfold getValue, bind.
  destruct (ensureBankLoadedInWorkspace cwd cfg fs ws bank) as [r ws1] eqn:E.
  destruct r as [e|x|]; [|done..].
  destruct (ensureBankLoadedInWorkspace_twice _ _ _ _ _ E) as [e' ->]. done.
Qed.

Lemma getValue_some_bank fs bank reg addr ws raw ws1 :
  getValue cwd cfg fs bank reg addr ws = (Ret (Some raw), ws1) →
  ∃ b, banks ws1 !! bank = Some b.
Proof.
  unfold getValue, bind. destruct (ensureBankLoadedInWorkspace _ _ _ _ _) as [[e|x|] ws'];
    try done.
  intros [= H <-]. destruct (banks ws' !! bank) as [b|]; [by exists b|done].
Qed.

(** Every run either ends before a process is started, with the failure
    flag if it returns, or goes through all its steps. *)
Lemma run_inv fuel name bank reg addr stdin st r st' :
  run cwd cfg kWindows system plugins fuel name bank reg addr stdin st = (r, st') →
  ws_grows cwd cfg (k_fs st) (k_ws st) (k_ws st')
  ∧ ((k_calls st' = k_calls st
      ∧ ∀ rr, r = Ret rr → run_ok rr = false ∧ out_json rr = None)
     ∨ ∃ P raw ws1 code cmd fs0 ec,
         find_plugin plugins name = Some P
         ∧ getValue cwd cfg (k_fs st) bank reg addr (k_ws st) = (Ret (Some raw), ws1)
         ∧ resolve cwd cfg (k_fs st) fuel raw bank ∅ ws1 = (Ret code, k_ws st')
         ∧ k_calls st' = k_calls st ++ [cmd]
         ∧ system cmd fs0 = (ec, k_fs st')
         ∧ (∃ rd, fs0 !! absolute cwd (runFile cwd cfg name bank reg addr "code.txt")
                  = Some (File rd true code))
         ∧ (∃ rd c, fs0 !! absolute cwd (runFile cwd cfg name bank reg addr "input.json")
                    = Some (File rd true c))
         ∧ r = readBack cwd (k_fs st') ec
                 (runFile cwd cfg name bank reg addr "output.json")
                 (runFile cwd cfg name bank reg addr "run.log")
                 (runFile cwd cfg name bank reg addr "run.err")).
Proof.
  intros Hrun. unfold run in Hrun.
  destruct (find_plugin plugins name) as [P|] eqn:Hfind.
  2:{ injection Hrun as <- <-. split; [apply ws_grows_refl|]. left.
      split; [done|]. by intros rr [= <-]. }
  rewrite getValue_after_ensure in Hrun.
  pose proof (getValue_grows cwd cfg (k_fs st) bank reg addr (k_ws st)) as G1.
  destruct (getValue cwd cfg (k_fs st) bank reg addr (k_ws st)) as [[[raw|]| |] ws1] eqn:Hget;
    cbn [snd] in G1.
  2-4: injection Hrun as <- <-; (split; [done|]); left;
       (split; [done|]); by intros rr [= <-].
  pose proof (resolve_grows cwd cfg (k_fs st) fuel raw bank ∅ ws1) as G2.
  destruct (resolve cwd cfg (k_fs st) fuel raw bank ∅ ws1) as [[code| |] ws2] eqn:Hres;
    cbn [snd] in G2.
  2-3: injection Hrun as <- <-;
       (split; [by eapply ws_grows_trans|]); left;
       (split; [done|]); by intros rr [=].
  assert (G : ws_grows cwd cfg (k_fs st) (k_ws st) ws2) by (by eapply ws_grows_trans).
  destruct (create_directories cwd (k_fs st) _) as [[[]| |] fs1].
  2-3: injection Hrun as <- <-; (split; [done|]); left; (split; [done|]); by intros rr [=].
  destruct (entryOf kWindows P) eqn:He.
  { injection Hrun as <- <-. split; [done|]. left. split; [done|]. by intros rr [= <-]. }
  destruct (fs_exists cwd fs1 _) as [[]| |].
  2:{ injection Hrun as <- <-. split; [done|]. left. split; [done|]. by intros rr [= <-]. }
  2-3: injection Hrun as <- <-; (split; [done|]); left; (split; [done|]); by intros rr [=].
  fold (runFile cwd cfg name bank reg addr "code.txt") in Hrun.
  fold (runFile cwd cfg name bank reg addr "input.json") in Hrun.
  fold (runFile cwd cfg name bank reg addr "output.json") in Hrun.
  fold (runFile cwd cfg name bank reg addr "run.log") in Hrun.
  fold (runFile cwd cfg name bank reg addr "run.err") in Hrun.
  destruct (writeTextFile cwd fs1 _ code) as [[[]| |] fs2] eqn:Hw1.
  2:{ injection Hrun as <- <-. split; [done|]. left. split; [done|]. by intros rr [= <-]. }
  2-3: injection Hrun as <- <-; (split; [done|]); left; (split; [done|]); by intros rr [=].
  destruct (stdinJson cwd fs2 stdin) as [stdin_json| |].
  2-3: injection Hrun as <- <-; (split; [done|]); left; (split; [done|]); by intros rr [=].
  destruct (getValue_some_bank _ _ _ _ _ _ _ Hget) as [b Hb].
  rewrite (bank_at_present ws2 bank b) in Hrun
    by exact (ws_grows_keeps _ _ _ _ _ _ _ G2 Hb).
  destruct (writeTextFile cwd fs2 _ _) as [[[]| |] fs3] eqn:Hw2.
  2:{ injection Hrun as <- <-. split; [done|]. left. split; [done|]. by intros rr [= <-]. }
  2-3: injection Hrun as <- <-; (split; [done|]); left; (split; [done|]); by intros rr [=].
  destruct (writeTextFile_written _ _ _ _ _ Hw1) as [rd1 Hcode].
  destruct (writeTextFile_written _ _ _ _ _ Hw2) as [rd2 Hinput].
  assert (Hcode3 : fs3 !! absolute cwd (runFile cwd cfg name bank reg addr "code.txt")
                   = Some (File rd1 true code)).
  { eapply writeTextFile_keeps_file; [exact Hw2| |exact Hcode].
    by apply absolute_join_ne. }
  unfold invoke in Hrun.
  match type of Hrun with context [system ?c] => set (cmd := c) in * end.
  match type of Hrun with
  | context [match ?o with (_, _) => _ end] =>
      destruct o as [rc fs4] eqn:Hcrumb
  end.
  assert (Hfs4 : (∃ rd, fs4 !! absolute cwd (runFile cwd cfg name bank reg addr "code.txt")
                        = Some (File rd true code))
                 ∧ ∃ rd c, fs4 !! absolute cwd (runFile cwd cfg name bank reg addr "input.json")
                           = Some (File rd true c)).
  { destruct kWindows.
    - split.
      + exists rd1. eapply writeTextFile_keeps_file; [exact Hcrumb| |exact Hcode3].
        by apply absolute_join_ne.
      + exists rd2. eexists. eapply writeTextFile_keeps_file; [exact Hcrumb| |exact Hinput].
        by apply absolute_join_ne.
    - injection Hcrumb as <- <-. split; [by exists rd1|by exists rd2; eexists]. }
  destruct rc as [ok| |].
  2-3: injection Hrun as <- <-; (split; [done|]); left; (split; [done|]); by intros rr [=].
  destruct (system cmd fs4) as [ec fs5] eqn:Hsys.
  injection Hrun as <- <-. split; [done|].
  right. exists P, raw, ws1, code, cmd, fs4, ec.
  destruct Hfs4 as [H1 H2]. done.
Qed.

End KernelProofs.




(** The run of the example without an entry script. *)
Example missing_entry_report_example :
  (run (str "/w") defaultConfig false failingProcess [echoPlugin] 1 (str "echo")
     1 1 1 [] (kernelState ∅)).1
  = Ret (failure (str "Entry not found: /w/plugins/echo/run.sh")).
Proof. vm_compute. reflexivity. Qed.




(** The run of the example: exit code 3, wait status 768, and the captured
    error text. *)
Example failing_plugin_report_example :
  (run (str "/w") defaultConfig false failingProcess [echoPlugin] 1 (str "echo")
     1 1 1 [] (kernelState fs_plugin)).1
  = Ret (failure (str "Plugin did not produce output.json. Exit=768" ++ LF :: str "err:" ++ LF :: str "boom")).
Proof. vm_compute. reflexivity. Qed.

(** ** Text utilities *)

Lemma dropwhile_app_stop {A} (p : A → bool) a x s :
  Forall (λ c, p c = true) a → p x = false → dropwhile p (a ++ x :: s) = x :: s.
Proof.
  intros Ha Hx. induction Ha as [|c a Hc _ IH]; simpl.
  - by rewrite Hx.
  - by rewrite Hc.
Qed.

Lemma dropwhile_all {A} (p : A → bool) a :
  Forall (λ c, p c = true) a → dropwhile p a = [].
Proof. intros Ha. induction Ha as [|c a Hc _ IH]; simpl; [done|]. by rewrite Hc. Qed.

Lemma takewhile_app_stop {A} (p : A → bool) a x s :
  Forall (λ c, p c = true) a → p x = false → takewhile p (a ++ x :: s) = a.
Proof.
  intros Ha Hx. induction Ha as [|c a Hc _ IH]; simpl.
  - by rewrite Hx.
  - rewrite Hc. by f_equal.
Qed.

Lemma solid_head s : solid s → ∃ c s', s = c :: s' ∧ isspace c = false.
Proof. intros (c & d & mid & Hc & Hd & [[-> ->]| ->]); eauto. Qed.

Lemma solid_reverse s : solid s → solid (reverse s).
Proof.
  intros (c & d & mid & Hc & Hd & [[-> ->]| ->]).
  - exists c, c, []. eauto.
  - exists d, c, (reverse mid). repeat split; [done..|]. right.
    rewrite reverse_cons, reverse_app. done.
Qed.

Lemma trim_solid a s b :
  Forall (λ c, isspace c = true) a → Forall (λ c, isspace c = true) b → solid s →
  trim (a ++ s ++ b) = s.
Proof.
  intros Ha Hb Hs. unfold trim, ltrim.
  destruct (solid_head s Hs) as (c & s' & -> & Hc).
  rewrite <- app_comm_cons, dropwhile_app_stop by done.
  rewrite app_comm_cons, reverse_app.
  destruct (solid_head _ (solid_reverse _ Hs)) as (d & t & Hrev & Hd).
  rewrite Hrev, dropwhile_app_stop; [| |done].
  - by rewrite <- Hrev, reverse_involutive.
  - apply Forall_reverse. done.
Qed.

Lemma trim_solid_id s : solid s → trim s = s.
Proof. intros Hs. rewrite <- (trim_solid [] s []) at 2 by done. by rewrite app_nil_r. Qed.

Lemma solid_ends c mid d :
  isspace c = false → isspace d = false → solid (c :: mid ++ [d]).
Proof. intros Hc Hd. exists c, d, mid. eauto. Qed.

Lemma solid_single c : isspace c = false → solid [c].
Proof. intros Hc. exists c, c, []. eauto. Qed.

Lemma solid_nonempty s : solid s → s ≠ [].
Proof. intros (c & s' & -> & _)%solid_head. done. Qed.

(** A non-empty text without space characters is solid. *)
Lemma solid_nospace s :
  s ≠ [] → Forall (λ c, isspace c = false) s → solid s.
Proof.
  intros Hne Hall. destruct s as [|c s]; [done|].
  destruct (decide (s = [])) as [->|Hs].
  - exists c, c, []. apply Forall_cons in Hall as [Hc _]. eauto.
  - destruct (exists_last Hs) as (mid & d & ->).
    apply Forall_cons in Hall as [Hc Hall]. apply Forall_app in Hall as [_ Hd].
    apply Forall_cons in Hd as [Hd _]. by apply solid_ends.
Qed.

Lemma solid_app s t : solid s → solid t → solid (s ++ t).
Proof.
  intros (c & s' & -> & Hc)%solid_head Ht.
  destruct (solid_head _ (solid_reverse _ Ht)) as (d & t' & Hrev & Hd).
  apply (f_equal reverse) in Hrev. rewrite reverse_involutive, reverse_cons in Hrev.
  subst t. rewrite <- app_comm_cons, app_assoc. by apply solid_ends.
Qed.

Lemma solid_app_mid s mid t : solid s → solid t → solid (s ++ mid ++ t).
Proof.
  intros (c & s' & -> & Hc)%solid_head Ht.
  destruct (solid_head _ (solid_reverse _ Ht)) as (d & t' & Hrev & Hd).
  apply (f_equal reverse) in Hrev. rewrite reverse_involutive, reverse_cons in Hrev.
  subst t. rewrite <- app_comm_cons, !app_assoc. by apply solid_ends.
Qed.

Lemma isblank_solid a s b :
  Forall (λ c, isspace c = true) a → Forall (λ c, isspace c = true) b → solid s →
  isblank (a ++ s ++ b) = false.
Proof.
  intros Ha Hb Hs. unfold isblank. rewrite trim_solid by done.
  apply bool_decide_eq_false_2. by apply solid_nonempty.
Qed.

(** [contains], [find], [rfind] *)

Lemma contains_false c s : contains c s = false ↔ c ∉ s.
Proof.
  unfold contains. induction s as [|d s IH]; simpl.
  - split; [intros _; apply not_elem_of_nil|done].
  - rewrite orb_false_iff, IH, not_elem_of_cons, eqc_false. done.
Qed.

Lemma contains_true c s : contains c s = true ↔ c ∈ s.
Proof.
  destruct (contains c s) eqn:E.
  - split; [|done]. intros _. destruct (decide (c ∈ s)) as [|Hn]; [done|].
    apply contains_false in Hn. congruence.
  - apply contains_false in E. split; [done|]. intros. done.
Qed.

Lemma find_app_stop c a s : c ∉ a → find c (a ++ c :: s) = Some (length a).
Proof.
  intros Ha. induction a as [|d a IH]; simpl.
  - by rewrite eqc_refl.
  - apply not_elem_of_cons in Ha as [Hne Ha].
    replace (eqc d c) with false by (symmetry; apply eqc_false; congruence).
    by rewrite IH.
Qed.

Lemma find_none c s : c ∉ s → find c s = None.
Proof.
  intros Hs. induction s as [|d s IH]; simpl; [done|].
  apply not_elem_of_cons in Hs as [Hne Hs].
  replace (eqc d c) with false by (symmetry; apply eqc_false; congruence).
  by rewrite IH.
Qed.

Lemma rfind_app_ge c a s : ∃ i, rfind c (a ++ c :: s) = Some i ∧ (length a ≤ i)%nat.
Proof.
  induction a as [|d a IH]; simpl.
  - destruct (rfind c s) as [i|]; [exists (S i); split; [done|lia]|].
    exists O. by rewrite eqc_refl.
  - destruct IH as (i & -> & Hi). exists (S i). split; [done|lia].
Qed.

(** [getlines] *)

Lemma getlines_line l rest :
  LF ∉ l → getlines (l ++ LF :: rest) = l :: getlines rest.
Proof.
  intros Hl. induction l as [|c l IH]; cbn [getlines app].
  - by rewrite eqc_refl.
  - apply not_elem_of_cons in Hl as [Hne Hl].
    replace (eqc c LF) with false by (symmetry; apply eqc_false; congruence).
    by rewrite IH.
Qed.

Lemma getlines_lines ls rest :
  Forall (λ l, LF ∉ l) ls →
  getlines (concat ((λ l, l ++ [LF]) <$> ls) ++ rest) = ls ++ getlines rest.
Proof.
  intros Hls. induction Hls as [|l ls Hl _ IH]; [done|].
  rewrite fmap_cons. cbn [concat]. rewrite <- !app_assoc. cbn [app].
  rewrite getlines_line by done. by rewrite IH.
Qed.

(** ** The digits written by [toBaseN] *)

Lemma effectiveBase_range base : 2 ≤ effectiveBase base ≤ 36.
Proof.
  unfold effectiveBase. destruct (base <? 2) eqn:E1; simpl; [lia|].
  destruct (36 <? base) eqn:E2; [lia|].
  apply Z.ltb_ge in E1, E2. lia.
Qed.

Lemma toBaseN_loop_alnum fuel val base s :
  2 ≤ base ≤ 36 → Forall (λ c, isalnum c = true) s →
  Forall (λ c, isalnum c = true) (toBaseN_loop fuel val base s).
Proof.
  intros Hb. revert val s. induction fuel as [|f IH]; intros val s Hs; simpl; [done|].
  destruct (0 <? val) eqn:E; [|done]. apply Z.ltb_lt in E.
  apply IH. apply Forall_app. split; [done|]. apply Forall_singleton.
  apply isalnum_digitChar. rewrite Z.rem_mod_nonneg by lia.
  pose proof (Z.mod_pos_bound val base ltac:(lia)). lia.
Qed.

Lemma toBaseN_alnum val base width :
  0 ≤ val → Forall (λ c, isalnum c = true) (toBaseN val base width).
Proof.
  intros Hv. destruct (decide (val = 0)) as [->|Hne].
  - unfold toBaseN. simpl (0 =? 0). cbv iota. by apply Forall_replicate.
  - destruct (toBaseN_pos val base width) as [n ->]; [lia|].
    apply Forall_app. split; [by apply Forall_replicate|].
    apply Forall_reverse, toBaseN_loop_alnum; [apply effectiveBase_range|done].
Qed.

Lemma toBaseN_nonempty val base width : 0 ≤ val → toBaseN val base width ≠ [].
Proof.
  intros Hv. destruct (decide (val = 0)) as [->|Hne].
  - unfold toBaseN. simpl (0 =? 0). cbv iota.
    destruct (Z.to_nat (Z.max 1 width)) eqn:E; [lia|done].
  - destruct (toBaseN_pos val base width) as [n ->]; [lia|].
    intros H. apply app_eq_nil in H as [_ H].
    apply (f_equal reverse) in H. rewrite reverse_involutive in H.
    revert H. apply toBaseN_loop_nonempty. lia.
Qed.

Lemma isalnum_code c : isalnum c = true → 48 ≤ code c ≤ 122.
Proof.
  unfold isalnum. rewrite !orb_true_iff, !andb_true_iff, !Z.leb_le. lia.
Qed.

Lemma alnum_neq c d : isalnum c = true → code d < 48 ∨ 122 < code d → c ≠ d.
Proof. intros Hc Hd ->. apply isalnum_code in Hc. lia. Qed.

Lemma alnum_not_space c : isalnum c = true → isspace c = false.
Proof.
  intros Hc%isalnum_code. unfold isspace.
  rewrite orb_false_iff, andb_false_iff, !Z.leb_gt, Z.eqb_neq. lia.
Qed.

Lemma alnum_not_indent c : isalnum c = true → isindent c = false.
Proof.
  intros Hc. unfold isindent. rewrite orb_false_iff, !eqc_false.
  split; apply alnum_neq; try done; vm_compute; left; done.
Qed.

Lemma alnum_not_in c s :
  Forall (λ c, isalnum c = true) s → code c < 48 ∨ 122 < code c → c ∉ s.
Proof.
  intros Hs Hc Hin. rewrite Forall_forall in Hs. apply Hs in Hin.
  by apply (alnum_neq c c).
Qed.

Lemma alnum_solid s : s ≠ [] → Forall (λ c, isalnum c = true) s → solid s.
Proof.
  intros Hne Hs. apply solid_nospace; [done|].
  eapply Forall_impl; [exact Hs|]. apply alnum_not_space.
Qed.

(** ** Body lines *)

Section BodyLines.
Variable base : Z.
Hypothesis base_range : 2 ≤ base ≤ 36.

Lemma parseBody_close ls cur rs :
  parseBody base (str "}" :: ls) cur rs = inr rs.
Proof. reflexivity. Qed.

Lemma parseBody_register r w ls cur rs :
  valid_id r →
  parseBody base (toBaseN r base w :: ls) cur rs = parseBody base ls r rs.
Proof.
  intros [Hr0 Hr1]. cbn [parseBody].
  pose proof (toBaseN_alnum r base w Hr0) as Hal.
  pose proof (toBaseN_nonempty r base w Hr0) as Hne.
  pose proof (alnum_solid _ Hne Hal) as Hsolid.
  replace (contains "}" (toBaseN r base w)) with false
    by (symmetry; apply contains_false, alnum_not_in; [done|vm_compute; right; done]).
  replace (isblank (toBaseN r base w)) with false.
  2:{ symmetry. rewrite <- (app_nil_r (toBaseN _ _ _)).
      by apply (isblank_solid []). }
  rewrite trim_solid_id by done.
  rewrite parse_render_id by done.
  destruct (toBaseN r base w) as [|c D] eqn:ED; [done|].
  apply Forall_cons in Hal as [Hc _]. by rewrite alnum_not_indent.
Qed.

Lemma parseBody_address a w v ls cur rs :
  valid_id a → valid_value v →
  parseBody base ((TAB :: toBaseN a base w ++ TAB :: v) :: ls) cur rs
  = parseBody base ls cur (setCell rs cur a v).
Proof.
  intros [Ha0 Ha1] [Hlf Hbr]. cbn [parseBody].
  pose proof (toBaseN_alnum a base w Ha0) as Hal.
  pose proof (toBaseN_nonempty a base w Ha0) as Hne.
  pose proof (alnum_solid _ Hne Hal) as Hsolid.
  set (D := toBaseN a base w) in *.
  replace (contains "}" (TAB :: D ++ TAB :: v)) with false.
  2:{ symmetry. apply contains_false. rewrite not_elem_of_cons, not_elem_of_app, not_elem_of_cons.
      repeat split; try done. apply alnum_not_in; [done|vm_compute; right; done]. }
  replace (isblank (TAB :: D ++ TAB :: v)) with false.
  2:{ symmetry. unfold isblank. apply bool_decide_eq_false_2. unfold trim, ltrim.
      cbn [dropwhile]. change (isspace TAB) with true. cbv iota.
      destruct D as [|c D']; [done|]. apply Forall_cons in Hal as [Hc _].
      cbn [app dropwhile]. rewrite (alnum_not_space c) by done.
      intros H. apply (f_equal reverse) in H. rewrite reverse_involutive in H.
      change (reverse []) with (@nil ascii) in H.
      destruct (reverse (c :: D' ++ TAB :: v)) as [|x l] eqn:E.
      - apply (f_equal reverse) in E. by rewrite reverse_involutive in E.
      - assert (Hlast : ∃ y l', x :: l = l' ++ [y] ∧ isspace y = false).
        { exists c, (reverse (D' ++ TAB :: v)). rewrite <- E, reverse_cons.
          split; [done|]. by apply alnum_not_space. }
        destruct Hlast as (y & l' & Hxl & Hy). rewrite Hxl in H.
        clear -H Hy. induction l' as [|z l' IH]; simpl in H.
        + by rewrite Hy in H.
        + destruct (isspace z); [auto|done]. }
  change (negb (isindent TAB)) with false. cbv iota.
  assert (Hstrip : stripIndent (TAB :: D ++ TAB :: v) = D ++ TAB :: v).
  { unfold stripIndent. cbn [dropwhile]. change (isindent TAB) with true. cbv iota.
    destruct D as [|c D']; [done|]. apply Forall_cons in Hal as [Hc _].
    cbn [app dropwhile]. by rewrite alnum_not_indent. }
  rewrite Hstrip.
  rewrite find_app_stop by (apply alnum_not_in; [done|vm_compute; left; done]).
  unfold substr. rewrite drop_0, take_app_length.
  rewrite trim_solid_id by done.
  replace (drop (S (length D)) (D ++ TAB :: v)) with v.
  2:{ rewrite drop_app_ge by lia.
      by replace (S (length D) - length D)%nat with 1%nat by lia. }
  subst D. rewrite parse_render_id by done. done.
Qed.
End BodyLines.

(** ** Maps, their entries, and what the parser rebuilds *)

Lemma entries_Permutation {A} (m : gmap Z A) : entries m ≡ₚ map_to_list m.
Proof. apply merge_sort_Permutation. Qed.

Lemma elem_of_entries {A} (m : gmap Z A) k v : (k, v) ∈ entries m ↔ m !! k = Some v.
Proof. rewrite entries_Permutation. apply elem_of_map_to_list. Qed.

Lemma NoDup_fst_entries {A} (m : gmap Z A) : NoDup (entries m).*1.
Proof. rewrite entries_Permutation. apply NoDup_fst_map_to_list. Qed.

Lemma not_elem_of_fst_entries {A} (m : gmap Z A) k : k ∉ (entries m).*1 ↔ m !! k = None.
Proof.
  rewrite entries_Permutation. split.
  - intros Hk. destruct (m !! k) as [v|] eqn:E; [|done].
    exfalso. apply Hk. apply list_elem_of_fmap. exists (k, v). split; [done|].
    by apply elem_of_map_to_list.
  - intros Hk Hin. apply list_elem_of_fmap in Hin as ([k' v] & -> & Hin).
    apply elem_of_map_to_list in Hin. simpl in Hk. congruence.
Qed.

Lemma cell_cellOf b r a : cell b r a = cellOf (regs b) r a.
Proof. reflexivity. Qed.

Lemma cellOf_setCell rs cur k v r a :
  cellOf (setCell rs cur k v) r a =
  if decide (r = cur ∧ a = k) then Some v else cellOf rs r a.
Proof.
  unfold cellOf, setCell. destruct (decide (r = cur)) as [->|Hr].
  - rewrite lookup_insert_eq. simpl. destruct (decide (a = k)) as [->|Ha].
    + rewrite lookup_insert_eq. by rewrite decide_True.
    + rewrite lookup_insert_ne by done. rewrite decide_False by (by intros [_ ?]).
      by destruct (rs !! cur).
  - rewrite lookup_insert_ne by done. by rewrite decide_False by (by intros [? _]).
Qed.

Lemma cellOf_fillRegister_other cur rs es r a :
  r ≠ cur ∨ a ∉ es.*1 → cellOf (fillRegister cur rs es) r a = cellOf rs r a.
Proof.
  revert rs. induction es as [|[k v] es IH]; intros rs Hra; [done|].
  unfold fillRegister in *. simpl. rewrite IH.
  - rewrite cellOf_setCell. simpl. rewrite decide_False; [done|].
    intros [-> ->]. destruct Hra as [?|Hn]; [done|]. apply Hn. simpl. left.
  - destruct Hra as [?|Hn]; [by left|right]. simpl in Hn.
    by apply not_elem_of_cons in Hn as [_ ?].
Qed.

Lemma cellOf_fillRegister_in cur rs es a v :
  NoDup es.*1 → (a, v) ∈ es → cellOf (fillRegister cur rs es) cur a = Some v.
Proof.
  revert rs. induction es as [|[k w] es IH]; intros rs Hnd Hin.
  - by apply elem_of_nil in Hin.
  - simpl in Hnd. apply NoDup_cons in Hnd as [Hk Hnd].
    apply elem_of_cons in Hin as [[= <- <-]|Hin].
    + change (fillRegister cur rs ((a, v) :: es))
        with (fillRegister cur (setCell rs cur a v) es).
      rewrite cellOf_fillRegister_other by (by right).
      rewrite cellOf_setCell. by rewrite decide_True.
    + by apply IH.
Qed.

Lemma cellOf_fillRegister_entries cur rs (m : gmap Z text) r a :
  cellOf (fillRegister cur rs (entries m)) r a =
  if decide (r = cur) then
    match m !! a with Some v => Some v | None => cellOf rs r a end
  else cellOf rs r a.
Proof.
  destruct (decide (r = cur)) as [->|Hr].
  - destruct (m !! a) as [v|] eqn:E.
    + apply cellOf_fillRegister_in; [apply NoDup_fst_entries|by apply elem_of_entries].
    + apply cellOf_fillRegister_other. right. by apply not_elem_of_fst_entries.
  - apply cellOf_fillRegister_other. by left.
Qed.

Lemma cellOf_fillRegisters_other rs res r a :
  r ∉ res.*1 → cellOf (fillRegisters rs res) r a = cellOf rs r a.
Proof.
  revert rs. induction res as [|[k m] res IH]; intros rs Hr; [done|].
  simpl in Hr. apply not_elem_of_cons in Hr as [Hne Hr].
  unfold fillRegisters in *. simpl. rewrite IH by done.
  rewrite cellOf_fillRegister_entries. by rewrite decide_False.
Qed.

Lemma cellOf_fillRegisters_in rs res r m a :
  NoDup res.*1 → (r, m) ∈ res →
  cellOf (fillRegisters rs res) r a =
  match m !! a with Some v => Some v | None => cellOf rs r a end.
Proof.
  revert rs. induction res as [|[k m'] res IH]; intros rs Hnd Hin.
  - by apply elem_of_nil in Hin.
  - simpl in Hnd. apply NoDup_cons in Hnd as [Hk Hnd].
    apply elem_of_cons in Hin as [[= <- <-]|Hin].
    + change (fillRegisters rs ((r, m) :: res))
        with (fillRegisters (fillRegister r rs (entries m)) res).
      rewrite cellOf_fillRegisters_other by done.
      rewrite cellOf_fillRegister_entries. by rewrite decide_True.
    + change (fillRegisters rs ((k, m') :: res))
        with (fillRegisters (fillRegister k rs (entries m')) res).
      rewrite IH by done.
      rewrite cellOf_fillRegister_entries. rewrite decide_False; [done|].
      intros ->. apply Hk. apply list_elem_of_fmap. by exists (k, m).
Qed.

Lemma cellOf_empty r a : cellOf ∅ r a = None.
Proof. unfold cellOf. by rewrite lookup_empty. Qed.

Lemma cellOf_fillRegisters_entries (rs : gmap Z (gmap Z text)) r a :
  cellOf (fillRegisters ∅ (entries rs)) r a = cellOf rs r a.
Proof.
  destruct (rs !! r) as [m|] eqn:E.
  - rewrite (cellOf_fillRegisters_in _ _ r m);
      [|apply NoDup_fst_entries|by apply elem_of_entries].
    rewrite cellOf_empty. unfold cellOf. rewrite E. simpl. by destruct (m !! a).
  - rewrite cellOf_fillRegisters_other by (by apply not_elem_of_fst_entries).
    rewrite cellOf_empty. unfold cellOf. by rewrite E.
Qed.

(** A bank written in the compact form has register 1 at most. *)
Lemma isMulti_false (rs : gmap Z (gmap Z text)) r m :
  isMulti rs = false → rs !! r = Some m → r = 1.
Proof.
  intros Hm Hr. apply elem_of_entries in Hr. unfold isMulti in Hm.
  destruct (entries rs) as [|[k m'] [|e es]]; [by apply elem_of_nil in Hr| |done].
  apply list_elem_of_singleton in Hr as [= -> ->]. simpl in Hm.
  apply negb_false_iff, Z.eqb_eq in Hm. done.
Qed.

Lemma cellOf_compact (rs : gmap Z (gmap Z text)) r a :
  isMulti rs = false →
  cellOf (match rs !! 1 with
          | Some addrs => fillRegister 1 ∅ (entries addrs)
          | None => ∅
          end) r a = cellOf rs r a.
Proof.
  intros Hm. destruct (decide (r = 1)) as [->|Hr].
  - destruct (rs !! 1) as [m|] eqn:E.
    + rewrite cellOf_fillRegister_entries, decide_True by done.
      rewrite cellOf_empty. unfold cellOf. rewrite E. simpl. by destruct (m !! a).
    + rewrite cellOf_empty. unfold cellOf. by rewrite E.
  - assert (rs !! r = None) as Hnone.
    { destruct (rs !! r) as [m|] eqn:E; [|done]. by apply isMulti_false in E. }
    transitivity (@None text); [|unfold cellOf; by rewrite Hnone].
    destruct (rs !! 1) as [m|].
    + rewrite cellOf_fillRegister_entries, decide_False by done. apply cellOf_empty.
    + apply cellOf_empty.
Qed.

(** ** The body of a written bank *)

Section WrittenBody.
Variable cfg : Config.
Hypothesis base_range : 2 ≤ cfg_base cfg ≤ 36.

Lemma parseBody_addresses es ls cur rs :
  Forall (λ e : Z * text, valid_id e.1 ∧ valid_value e.2) es →
  parseBody (cfg_base cfg) ((addrText cfg <$> es) ++ ls) cur rs
  = parseBody (cfg_base cfg) ls cur (fillRegister cur rs es).
Proof.
  intros Hes. revert rs. induction Hes as [|[a v] es [Ha Hv] _ IH]; intros rs; [done|].
  rewrite fmap_cons. cbn [app]. unfold addrText at 1. cbn [fst snd].
  rewrite parseBody_address by done. by rewrite IH.
Qed.

Lemma parseBody_blocks res ls cur rs :
  Forall (λ e : Z * gmap Z text,
            valid_id e.1 ∧ Forall (λ x : Z * text, valid_id x.1 ∧ valid_value x.2) (entries e.2))
         res →
  parseBody (cfg_base cfg) (concat (blockLines cfg <$> res) ++ str "}" :: ls) cur rs
  = inr (fillRegisters rs res).
Proof.
  intros Hres. revert cur rs.
  induction Hres as [|[r m] res [Hr Hm] _ IH]; intros cur rs; [done|].
  rewrite fmap_cons. cbn [concat]. unfold blockLines at 1. cbn [fst snd].
  rewrite <- app_assoc. cbn [app].
  rewrite parseBody_register by done.
  rewrite parseBody_addresses by done. by rewrite IH.
Qed.

Lemma valid_regs_entries (rs : gmap Z (gmap Z text)) :
  valid_regs rs →
  Forall (λ e : Z * gmap Z text,
            valid_id e.1 ∧ Forall (λ x : Z * text, valid_id x.1 ∧ valid_value x.2) (entries e.2))
         (entries rs).
Proof.
  intros Hv. apply Forall_forall. intros [r m] Hin%elem_of_entries.
  destruct (Hv r m Hin) as [Hr Hm]. split; [done|].
  apply Forall_forall. intros [a v] Hav%elem_of_entries. by apply Hm.
Qed.

Lemma parseBody_bodyLines rs ls :
  valid_regs rs →
  ∃ rs', parseBody (cfg_base cfg) (bodyLines cfg rs ++ str "}" :: ls) 1 ∅ = inr rs'
         ∧ ∀ r a, cellOf rs' r a = cellOf rs r a.
Proof.
  intros Hv. unfold bodyLines. destruct (isMulti rs) eqn:Hm.
  - eexists. split; [apply parseBody_blocks, valid_regs_entries, Hv|].
    apply cellOf_fillRegisters_entries.
  - exists (match rs !! 1 with
            | Some addrs => fillRegister 1 ∅ (entries addrs)
            | None => ∅
            end).
    split; [|intros r a; by apply cellOf_compact].
    destruct (rs !! 1) as [m|] eqn:E; [|done].
    rewrite parseBody_addresses; [done|].
    destruct (Hv 1 m E) as [_ Hm1].
    apply Forall_forall. intros [a v] Hav%elem_of_entries. by apply Hm1.
Qed.

Lemma addrText_no_newline e :
  valid_id e.1 → valid_value e.2 → LF ∉ addrText cfg e.
Proof.
  intros [H0 _] [Hlf _]. unfold addrText.
  rewrite not_elem_of_cons, not_elem_of_app, not_elem_of_cons.
  repeat split; try done.
  apply alnum_not_in; [by apply toBaseN_alnum|vm_compute; left; done].
Qed.

Lemma bodyLines_no_newline rs :
  valid_regs rs → Forall (λ l, LF ∉ l) (bodyLines cfg rs).
Proof.
  intros Hv. unfold bodyLines. destruct (isMulti rs).
  - apply Forall_concat, Forall_fmap, Forall_forall.
    intros [r m] Hin%elem_of_entries. destruct (Hv r m Hin) as [[Hr0 _] Hm].
    unfold blockLines. cbn [fst snd]. apply Forall_cons. split.
    + apply alnum_not_in; [by apply toBaseN_alnum|vm_compute; left; done].
    + apply Forall_fmap, Forall_forall. intros [a v] Hav%elem_of_entries.
      destruct (Hm a v Hav). by apply addrText_no_newline.
  - destruct (rs !! 1) as [m|] eqn:E; [|done].
    destruct (Hv 1 m E) as [_ Hm].
    apply Forall_fmap, Forall_forall. intros [a v] Hav%elem_of_entries.
    destruct (Hm a v Hav). by apply addrText_no_newline.
Qed.

(** The text after the header line. *)
Lemma writeBankText_body b :
  writeBankText b cfg =
  (cfg_prefix cfg :: toBaseN (bank_id b) (cfg_base cfg) (widthBank cfg)
     ++ TAB :: "("%char :: bank_title b ++ str "){")
  ++ LF :: concat ((λ l, l ++ [LF]) <$> bodyLines cfg (regs b)) ++ "}"%char :: [LF].
Proof.
  unfold writeBankText, bodyLines.
  assert (Haddr : ∀ m : gmap Z text,
            addrLines cfg m = concat ((λ l, l ++ [LF]) <$> (addrText cfg <$> entries m))).
  { intros m. unfold addrLines. f_equal. rewrite <- list_fmap_compose.
    apply list_fmap_ext. intros _ [a v] _. unfold addrLine, addrText. simpl.
    by rewrite <- app_assoc. }
  cbn [app]. f_equal. rewrite <- !app_assoc. cbn [app]. do 3 f_equal.
  rewrite <- !app_assoc. f_equal. cbn [app]. do 3 f_equal.
  destruct (isMulti (regs b)).
  - induction (entries (regs b)) as [|[r m] l IH]; [done|].
    rewrite !fmap_cons. cbn [concat]. rewrite fmap_app, concat_app, <- IH. f_equal.
    unfold regBlock, blockLines. cbn [fst snd]. rewrite fmap_cons. cbn [concat].
    rewrite <- app_assoc. cbn [app]. by rewrite Haddr.
  - destruct (regs b !! 1); [|done]. by rewrite Haddr.
Qed.
End WrittenBody.

(** ** The header of a written bank *)

Lemma rfind_app_last c a s : c ∉ s → rfind c (a ++ c :: s) = Some (length a).
Proof.
  intros Hs. induction a as [|d a IH]; cbn [app rfind length].
  - replace (rfind c s) with (@None nat); [by rewrite eqc_refl|].
    symmetry. clear -Hs. induction s as [|d s IH]; cbn [rfind]; [done|].
    apply not_elem_of_cons in Hs as [Hne Hs]. rewrite IH by done.
    by replace (eqc d c) with false by (symmetry; apply eqc_false; congruence).
  - by rewrite IH.
Qed.

Lemma accumHeader_done acc ls : contains "{" acc = true → accumHeader acc ls = acc.
Proof. intros H. destruct ls; simpl; by rewrite H. Qed.

Lemma strip_bom_alnum c d rest :
  isalnum d = true → strip_bom (c :: d :: rest) = c :: d :: rest.
Proof.
  intros Hd%isalnum_code. destruct rest as [|e rest]; [done|]. cbn [strip_bom].
  replace (code d =? 187) with false by (symmetry; apply Z.eqb_neq; lia).
  by rewrite andb_false_r.
Qed.

Section WrittenHeader.
Variable cfg : Config.
Variable D T : text.
Variable bankId : Z.
Hypothesis D_alnum : Forall (λ c, isalnum c = true) D.
Hypothesis D_nonempty : D ≠ [].
Hypothesis D_parses : parseIntBase D (cfg_base cfg) = Some bankId.
Hypothesis T_line : LF ∉ T.
Hypothesis prefix_not_paren : cfg_prefix cfg ≠ "("%char.

Let P := cfg_prefix cfg.
Let hdr := D ++ TAB :: "("%char :: T ++ str "){".
Let pre : text := if isspace P then [] else [P].

Lemma hdr_solid : solid hdr.
Proof.
  unfold hdr.
  replace (D ++ TAB :: "("%char :: T ++ str "){")
    with (D ++ (TAB :: "("%char :: T ++ str ")") ++ str "{").
  - apply solid_app_mid; [by apply alnum_solid|]. by apply solid_single.
  - cbn [app]. do 3 f_equal. by rewrite <- app_assoc.
Qed.

Lemma header_solid : solid (pre ++ hdr).
Proof.
  unfold pre. destruct (isspace P) eqn:E; [apply hdr_solid|].
  apply solid_app; [|apply hdr_solid]. by apply solid_single.
Qed.

Lemma hdr_no_newline : LF ∉ hdr.
Proof.
  unfold hdr. rewrite not_elem_of_app, !not_elem_of_cons, not_elem_of_app.
  repeat split; try done.
  - apply alnum_not_in; [done|vm_compute; left; done].
  - intros Hin. by repeat (apply elem_of_cons in Hin as [?|Hin]; [done|]);
      apply elem_of_nil in Hin.
Qed.

Lemma hdr_brace : contains "{" hdr = true.
Proof.
  apply contains_true. unfold hdr. apply elem_of_app. right. do 2 right.
  apply elem_of_app. right. right. left.
Qed.

Lemma header_brace : contains "{" (pre ++ hdr) = true.
Proof.
  apply contains_true, elem_of_app. right. apply contains_true, hdr_brace.
Qed.

(** The first non-blank line and what [trim] leaves of it. *)
Lemma written_first_line body :
  ∃ l0, dropwhile isblank (getlines ((P :: hdr) ++ LF :: body)) = l0 :: getlines body
        ∧ trim l0 = pre ++ hdr
        ∧ contains "{" l0 = true.
Proof.
  pose proof hdr_brace as Hc.
  destruct (decide (P = LF)) as [HP|HP].
  - exists hdr. rewrite HP. cbn [app getlines]. rewrite eqc_refl.
    rewrite getlines_line by apply hdr_no_newline.
    cbn [dropwhile]. change (isblank []) with true. cbv iota.
    replace (isblank hdr) with false.
    2:{ symmetry. rewrite <- (app_nil_r hdr). apply (isblank_solid []); try done.
        apply hdr_solid. }
    repeat split; [|done].
    unfold pre. rewrite HP. change (isspace LF) with true. cbv iota.
    apply trim_solid_id, hdr_solid.
  - exists (P :: hdr). rewrite getlines_line.
    2:{ apply not_elem_of_cons. split; [congruence|apply hdr_no_newline]. }
    assert (Ht : trim (P :: hdr) = pre ++ hdr).
    { pose proof header_solid as Hs. pose proof hdr_solid as Hs'.
      unfold pre in *. destruct (isspace P) eqn:E.
      - rewrite <- (app_nil_r hdr) at 1. apply (trim_solid [P] hdr []); try done.
        by apply Forall_singleton.
      - by apply trim_solid_id. }
    cbn [dropwhile]. replace (isblank (P :: hdr)) with false.
    2:{ symmetry. unfold isblank. rewrite Ht. apply bool_decide_eq_false_2.
        apply solid_nonempty, header_solid. }
    repeat split; [done|].
    apply contains_true, elem_of_cons. right. by apply contains_true.
Qed.

Lemma pre_no_paren : "("%char ∉ pre ++ D ++ [TAB].
Proof.
  rewrite !not_elem_of_app. repeat split.
  - unfold pre. destruct (isspace P); [apply not_elem_of_nil|].
    apply not_elem_of_cons. split; [|apply not_elem_of_nil]. by apply not_eq_sym.
  - apply alnum_not_in; [done|vm_compute; left; done].
  - apply not_elem_of_cons. split; [unfold TAB; congruence|apply not_elem_of_nil].
Qed.

Lemma header_shape :
  pre ++ hdr = (pre ++ D ++ [TAB]) ++ "("%char :: T ++ ")"%char :: str "{".
Proof. unfold hdr. by rewrite <- !app_assoc. Qed.

Lemma header_find_open : find "(" (pre ++ hdr) = Some (length (pre ++ D ++ [TAB])).
Proof. rewrite header_shape. apply find_app_stop, pre_no_paren. Qed.

Lemma header_rfind_close :
  rfind ")" (pre ++ hdr) = Some (length (pre ++ D ++ [TAB]) + 1 + length T)%nat.
Proof.
  replace (pre ++ hdr) with (((pre ++ D ++ [TAB]) ++ "("%char :: T) ++ ")"%char :: str "{").
  - rewrite rfind_app_last.
    + f_equal. rewrite (length_app _ (_ :: T)). simpl. lia.
    + intros Hin. apply elem_of_cons in Hin as [?|Hin]; [done|]. by apply elem_of_nil in Hin.
  - rewrite header_shape. rewrite <- !app_assoc. done.
Qed.

Lemma header_left :
  trim (substr (pre ++ hdr) 0 (length (pre ++ D ++ [TAB]))) = pre ++ D.
Proof.
  unfold substr. rewrite drop_0, header_shape, take_app_length.
  rewrite app_assoc. rewrite <- (app_nil_l ((pre ++ D) ++ [TAB])).
  apply (trim_solid [] (pre ++ D) [TAB]); [done|by apply Forall_singleton|].
  unfold pre. destruct (isspace P) eqn:E; [by apply alnum_solid|].
  apply solid_app; [by apply solid_single|by apply alnum_solid].
Qed.

Lemma header_title :
  substr (pre ++ hdr) (S (length (pre ++ D ++ [TAB])))
    (length (pre ++ D ++ [TAB]) + 1 + length T - length (pre ++ D ++ [TAB]) - 1) = T.
Proof.
  unfold substr. rewrite header_shape.
  rewrite drop_app_ge by lia.
  replace (S (length (pre ++ D ++ [TAB])) - length (pre ++ D ++ [TAB]))%nat with 1%nat by lia.
  cbn [drop].
  replace (length (pre ++ D ++ [TAB]) + 1 + length T - length (pre ++ D ++ [TAB]) - 1)%nat
    with (length T) by lia.
  apply take_app_length.
Qed.

Lemma header_strip_prefix :
  match pre ++ D with
  | c :: left' => if eqc c (cfg_prefix cfg) then left' else pre ++ D
  | [] => pre ++ D
  end = D.
Proof.
  unfold pre. fold P. destruct (isspace P) eqn:E; cbn [app].
  - destruct D as [|d D'] eqn:ED; [done|].
    apply Forall_cons in D_alnum as [Hd _].
    replace (eqc d P) with false; [done|].
    symmetry. apply eqc_false. intros ->. apply alnum_not_space in Hd. congruence.
  - by rewrite eqc_refl.
Qed.

Lemma parseBankText_written (bodyl : list text) (rs : gmap Z (gmap Z text)) :
  Forall (λ l, LF ∉ l) bodyl →
  parseBody (cfg_base cfg) (bodyl ++ [str "}"]) 1 ∅ = inr rs →
  parseBankText ((P :: hdr) ++ LF :: concat ((λ l, l ++ [LF]) <$> bodyl) ++ "}"%char :: [LF]) cfg
  = ParseOk {| bank_id := bankId; bank_title := trim T; regs := rs |}.
Proof.
  intros Hbody Hparse. unfold parseBankText.
  assert (Hbom : ∀ rest, strip_bom ((P :: hdr) ++ rest) = (P :: hdr) ++ rest).
  { intros rest. unfold hdr. destruct D as [|d D']; [done|].
    apply Forall_cons in D_alnum as [Hd _]. cbn [app]. by apply strip_bom_alnum. }
  rewrite Hbom.
  destruct (written_first_line (concat ((λ l, l ++ [LF]) <$> bodyl) ++ "}"%char :: [LF]))
    as (l0 & Hdrop & Htrim & Hbrace).
  assert (Hlines : getlines ((P :: hdr) ++ LF :: concat ((λ l, l ++ [LF]) <$> bodyl)
                               ++ "}"%char :: [LF]) ≠ []).
  { intros Hnil. rewrite Hnil in Hdrop. done. }
  destruct (getlines ((P :: hdr) ++ LF :: concat ((λ l, l ++ [LF]) <$> bodyl)
                        ++ "}"%char :: [LF])) as [|x xs] eqn:El; [done|].
  rewrite Hdrop, Htrim.
  rewrite accumHeader_done by apply header_brace.
  rewrite header_brace.
  cbn [negb]. cbv iota.
  rewrite header_find_open, header_rfind_close.
  replace (_ <? _)%nat with false by (symmetry; apply Nat.ltb_ge; lia).
  cbv iota. rewrite header_left, header_title, header_strip_prefix, D_parses.
  cbn [dropwhile]. rewrite Hbrace. cbn [negb]. cbv iota.
  rewrite getlines_lines by done.
  change (getlines ("}"%char :: [LF])) with [str "}"].
  by rewrite Hparse.
Qed.
End WrittenHeader.

(** C3, as stated, fails: a value that is a closing brace is lost without
    an error; a value with a newline, a negative bank id, and the prefix
    character [(] each make the parser reject what the serializer wrote. *)
Lemma roundtrip_fails_on_unescaped_text :
  (parseBankText (writeBankText (oneCellBank 1 (str "}")) defaultConfig) defaultConfig
   = ParseOk {| bank_id := 1; bank_title := str "demo"; regs := ∅ |}
   ∧ cell (oneCellBank 1 (str "}")) 1 1 = Some (str "}")
   ∧ cell {| bank_id := 1; bank_title := str "demo"; regs := ∅ |} 1 1 = None)
  ∧ parseBankText (writeBankText (oneCellBank 1 (str "a" ++ LF :: str "b")) defaultConfig)
      defaultConfig
    = ParseErr (str "invalid register line: b")
  ∧ parseBankText (writeBankText (oneCellBank (-1) (str "v")) defaultConfig) defaultConfig
    = ParseErr (str "cannot parse bank id")
  ∧ parseBankText
      (writeBankText (oneCellBank 1 (str "v"))
         {| cfg_prefix := "("%char; cfg_base := 10; widthBank := 5; widthReg := 2; widthAddr := 4 |})
      {| cfg_prefix := "("%char; cfg_base := 10; widthBank := 5; widthReg := 2; widthAddr := 4 |}
    = ParseErr (str "cannot parse bank id").
Proof. repeat split; vm_compute; reflexivity. Qed.

(** C3, amended.  For every base from 2 to 36 and every prefix character
    other than [(], and every bank whose id, register ids and address ids are
    non-negative [long long] values, whose title has no newline and whose
    values have neither a newline nor a closing brace, parsing the text
    [writeBankText] writes succeeds and gives a bank with the same id, the
    trimmed title, and the same value at every (register, address). *)
Theorem parseBankText_writeBankText (b : Bank) (cfg : Config) :
  2 ≤ cfg_base cfg ≤ 36 →
  cfg_prefix cfg ≠ "("%char →
  valid_id (bank_id b) →
  LF ∉ bank_title b →
  valid_regs (regs b) →
  ∃ b', parseBankText (writeBankText b cfg) cfg = ParseOk b'
        ∧ bank_id b' = bank_id b
        ∧ bank_title b' = trim (bank_title b)
        ∧ ∀ r a, cell b' r a = cell b r a.
Proof.
  intros Hbase Hprefix Hid Htitle Hregs.
  destruct (parseBody_bodyLines cfg Hbase (regs b) [] Hregs) as (rs' & Hparse & Hcells).
  exists {| bank_id := bank_id b; bank_title := trim (bank_title b); regs := rs' |}.
  split; [|by repeat split].
  rewrite writeBankText_body.
  apply parseBankText_written; try done.
  - apply toBaseN_alnum, Hid.
  - apply toBaseN_nonempty, Hid.
  - by apply parse_render_id.
  - by apply bodyLines_no_newline.
Qed.

Lemma parseBankText_writeBankText_witness :
  ∃ b', parseBankText (writeBankText (oneCellBank 7 (str "see r02.0003")) defaultConfig)
          defaultConfig = ParseOk b'
        ∧ bank_id b' = 7
        ∧ bank_title b' = trim (str "demo")
        ∧ ∀ r a, cell b' r a = cell (oneCellBank 7 (str "see r02.0003")) r a.
Proof.
  apply (parseBankText_writeBankText (oneCellBank 7 (str "see r02.0003")) defaultConfig).
  - simpl. lia.
  - discriminate.
  - unfold valid_id, LLONG_MAX. simpl. lia.
  - vm_compute. intros H. by repeat (inversion H as [|? ? ? H']; subst; clear H; rename H' into H).
  - intros r addrs Hr. unfold oneCellBank in Hr. cbn [regs] in Hr.
    apply lookup_singleton_Some in Hr as [<- <-]. split; [unfold valid_id, LLONG_MAX; lia|].
    intros a v Ha. apply lookup_singleton_Some in Ha as [<- <-].
    split; [unfold valid_id, LLONG_MAX; lia|].
    split; vm_compute; intros H;
      by repeat (inversion H as [|? ? ? H']; subst; clear H; rename H' into H).
Defined.

(** * Further properties *)

(** ** [parseIntBase] *)

Lemma wrap64_range z : LLONG_MIN ≤ wrap64 z ≤ LLONG_MAX.
Proof.
  unfold wrap64, LLONG_MIN, LLONG_MAX.
  pose proof (Z.mod_pos_bound (z + 2 ^ 63) (2 ^ 64) ltac:(lia)). lia.
Qed.

Lemma parseIntBase_loop_sound s base v r :
  0 ≤ v ≤ LLONG_MAX →
  parseIntBase_loop s base v = Some r →
  0 ≤ r ≤ LLONG_MAX ∧ Forall (λ c, 0 ≤ digitValue c < base) s.
Proof.
  revert v. induction s as [|c s IH]; intros v Hv; cbn [parseIntBase_loop].
  - intros [= <-]. split; [done|constructor].
  - destruct (digitValue c <? 0) eqn:E1; [done|].
    destruct (base <=? digitValue c) eqn:E2; [done|]. cbn [orb].
    destruct (wrap64 (v * base + digitValue c) <? 0) eqn:E3; [done|].
    apply Z.ltb_ge in E1, E3. apply Z.leb_gt in E2.
    intros Hr. apply IH in Hr as [Hr Hs].
    + split; [done|]. constructor; [lia|done].
    + pose proof (wrap64_range (v * base + digitValue c)). lia.
Qed.

(** X1.  [parseIntBase] accepts a text only if it is not empty and each of
    its characters is a digit below the base, and what it returns is a
    non-negative [long long]: an empty token, a sign, a space, or a digit the
    base does not have make it fail. *)
Theorem parseIntBase_accepts_digits_only (s : text) (base r : Z) :
  parseIntBase s base = Some r →
  s ≠ [] ∧ Forall (λ c, 0 ≤ digitValue c < base) s ∧ 0 ≤ r ≤ LLONG_MAX.
Proof.
  intros H. destruct s as [|c s]; [done|]. split; [done|].
  unfold parseIntBase in H.
  apply parseIntBase_loop_sound in H as [? ?]; [done|]. unfold LLONG_MAX. lia.
Qed.

Lemma parseIntBase_accepts_digits_only_witness :
  str "7f" ≠ [] ∧ Forall (λ c, 0 ≤ digitValue c < 16) (str "7f") ∧ 0 ≤ 127 ≤ LLONG_MAX.
Proof. apply (parseIntBase_accepts_digits_only (str "7f") 16 127). reflexivity. Defined.

Lemma digitsValue_snoc base s c :
  digitsValue base (s ++ [c]) = digitsValue base s * base + digitValue c.
Proof. unfold digitsValue. by rewrite fold_left_app. Qed.

Lemma parseIntBase_loop_value s base v :
  1 ≤ base → 0 ≤ v →
  Forall (λ c, 0 ≤ digitValue c < base) s →
  fold_left (λ v c, v * base + digitValue c) s v ≤ LLONG_MAX →
  parseIntBase_loop s base v = Some (fold_left (λ v c, v * base + digitValue c) s v).
Proof.
  intros Hb. revert v. induction s as [|c s IH]; intros v Hv Hs Hmax; [done|].
  apply Forall_cons in Hs as [Hc Hs]. cbn [parseIntBase_loop fold_left] in *.
  assert (Hmono : ∀ t w, Forall (λ c, 0 ≤ digitValue c < base) t → 0 ≤ w →
                         w ≤ fold_left (λ v c, v * base + digitValue c) t w).
  { clear -Hb. induction t as [|d t IHt]; intros w Ht Hw; simpl; [lia|].
    apply Forall_cons in Ht as [Hd Ht].
    etransitivity; [|apply IHt; [done|nia]]. nia. }
  pose proof (Hmono s (v * base + digitValue c) Hs ltac:(nia)) as Hle.
  replace (digitValue c <? 0) with false by (symmetry; apply Z.ltb_ge; lia).
  replace (base <=? digitValue c) with false by (symmetry; apply Z.leb_gt; lia).
  cbn [orb]. rewrite wrap64_id by (unfold LLONG_MIN, LLONG_MAX in *; nia).
  replace (v * base + digitValue c <? 0) with false by (symmetry; apply Z.ltb_ge; nia).
  apply IH; [nia|done|done].
Qed.

(** X2.  On a non-empty text of digits below the base whose value fits a
    [long long], [parseIntBase] succeeds and returns the value the digits
    denote in that base, most significant digit first. *)
Theorem parseIntBase_value (s : text) (base : Z) :
  1 ≤ base → s ≠ [] →
  Forall (λ c, 0 ≤ digitValue c < base) s →
  digitsValue base s ≤ LLONG_MAX →
  parseIntBase s base = Some (digitsValue base s).
Proof.
  intros Hb Hne Hs Hmax. rewrite parseIntBase_nonempty by done.
  by apply parseIntBase_loop_value.
Qed.

Lemma parseIntBase_value_witness :
  parseIntBase (str "00ff") 16 = Some (digitsValue 16 (str "00ff")).
Proof.
  apply parseIntBase_value; [lia|done| |by vm_compute].
  repeat constructor; by vm_compute.
Defined.

(** X3.  Spelling variants read the same: zeros in front and the
    upper-case spelling of the letters change nothing in what [parseIntBase]
    reads from a non-empty text, in any base from 1 on -- the same value, or
    the same rejection. *)
Theorem parseIntBase_spelling_variants (n : nat) (s : text) (base : Z) :
  1 ≤ base → s ≠ [] →
  parseIntBase (replicate n "0"%char ++ (toupper <$> s)) base = parseIntBase s base.
Proof.
  intros Hb Hne. rewrite <- (parseIntBase_toupper s base).
  assert (Hup : toupper <$> s ≠ []) by (by destruct s).
  rewrite !parseIntBase_nonempty.
  - apply parseIntBase_loop_zeros. lia.
  - done.
  - intros H. apply app_eq_nil in H as [_ H]. done.
Qed.

Lemma parseIntBase_spelling_variants_witness :
  parseIntBase (replicate 3 "0"%char ++ (toupper <$> str "7f")) 16 = parseIntBase (str "7f") 16.
Proof. apply parseIntBase_spelling_variants; [lia|done]. Defined.

Lemma parseIntBase_loop_bad_digit s1 c s2 base v :
  digitValue c < 0 → parseIntBase_loop (s1 ++ c :: s2) base v = None.
Proof.
  intros Hc. rewrite parseIntBase_loop_app.
  destruct (parseIntBase_loop s1 base v) as [w|]; [|done]. cbn.
  by replace (digitValue c <? 0) with true by (symmetry; apply Z.ltb_lt; lia).
Qed.

(** X4.  [toBaseN] writes a minus sign for a negative value, and
    [parseIntBase] has no sign handling: the rendering of a negative
    [long long] that can be negated is rejected in every base and at every
    width. *)
Theorem parseIntBase_rejects_negative_rendering (v base width : Z) :
  LLONG_MIN < v < 0 →
  parseIntBase (toBaseN v base width) base = None.
Proof.
  intros Hv. unfold toBaseN.
  replace (v =? 0) with false by (symmetry; apply Z.eqb_neq; lia).
  replace (v <? 0) with true by (symmetry; apply Z.ltb_lt; lia).
  match goal with
  | |- context [toBaseN_loop ?f ?x ?b []] => generalize (toBaseN_loop f x b [])
  end.
  intros digits. rewrite reverse_app. change (reverse ["-"%char]) with ["-"%char].
  cbn [app]. destruct (_ && _).
  - rewrite parseIntBase_nonempty.
    + by apply parseIntBase_loop_bad_digit.
    + intros H. apply app_eq_nil in H as [_ H]. done.
  - unfold parseIntBase.
    by apply (parseIntBase_loop_bad_digit [] "-"%char (reverse digits)).
Qed.

Lemma parseIntBase_rejects_negative_rendering_witness :
  parseIntBase (toBaseN (-255) 16 6) 16 = None.
Proof. apply parseIntBase_rejects_negative_rendering. unfold LLONG_MIN. lia. Defined.

(** ** [trim] *)

Lemma dropwhile_split {A} (p : A → bool) (s : list A) :
  ∃ a, s = a ++ dropwhile p s ∧ Forall (λ c, p c = true) a
       ∧ match dropwhile p s with [] => True | c :: _ => p c = false end.
Proof.
  induction s as [|c s (a & Hs & Ha & Hd)]; simpl.
  - exists []. by repeat split.
  - destruct (p c) eqn:E.
    + exists (c :: a). split; [cbn [app]; by f_equal|]. split; [by constructor|done].
    + exists []. split; [done|]. split; [constructor|done].
Qed.

Lemma trim_split s :
  ∃ a b, s = a ++ trim s ++ b
         ∧ Forall (λ c, isspace c = true) a ∧ Forall (λ c, isspace c = true) b
         ∧ (trim s = [] ∨ solid (trim s)).
Proof.
  unfold trim, ltrim.
  destruct (dropwhile_split isspace s) as (a & Hs & Ha & Hhd).
  set (t := dropwhile isspace s) in *.
  destruct (dropwhile_split isspace (reverse t)) as (b & Ht & Hb & Hu).
  set (u := dropwhile isspace (reverse t)) in *.
  assert (Ht' : t = reverse u ++ reverse b).
  { rewrite <- reverse_app, <- Ht. by rewrite reverse_involutive. }
  exists a, (reverse b). repeat split.
  - by rewrite <- Ht'.
  - done.
  - by apply Forall_reverse.
  - destruct u as [|d u']; [by left|]. right.
    rewrite reverse_cons in *.
    destruct (reverse u') as [|c m] eqn:Eu.
    + apply solid_single. done.
    + cbn [app]. apply solid_ends; [|done].
      rewrite Ht' in Hhd. by cbn [app] in Hhd.
Qed.

Lemma trim_idemp s : trim (trim s) = trim s.
Proof.
  destruct (trim_split s) as (_ & _ & _ & _ & _ & [->|H]); [done|].
  by apply trim_solid_id.
Qed.

(** X5.  [trim] takes away space characters at the two ends and nothing
    else: the text is its trimmed form between two runs of space characters,
    the trimmed form is empty or starts and ends with a character that is
    not a space, and trimming it again changes nothing. *)
Theorem trim_removes_outer_spaces_only (s : text) :
  (∃ a b, s = a ++ trim s ++ b
          ∧ Forall (λ c, isspace c = true) a ∧ Forall (λ c, isspace c = true) b)
  ∧ (trim s = [] ∨ solid (trim s))
  ∧ trim (trim s) = trim s.
Proof.
  destruct (trim_split s) as (a & b & Hs & Ha & Hb & Hsolid).
  split; [by exists a, b|]. split; [done|apply trim_idemp].
Qed.

Lemma trim_subseteq s c : c ∈ trim s → c ∈ s.
Proof.
  intros Hc. destruct (trim_split s) as (a & b & Hs & _).
  rewrite Hs. set_solver.
Qed.

Lemma trim_all_space s : Forall (λ c, isspace c = true) s → trim s = [].
Proof.
  intros Hs. unfold trim, ltrim. rewrite (dropwhile_all isspace s) by done. reflexivity.
Qed.

(** ** [Bank::empty] *)

(** X6.  [Bank::empty] holds exactly when the bank has no cell: no register
    at all, or registers that hold no address. *)
Theorem bank_empty_iff_no_cell (b : Bank) :
  bank_empty b = true ↔ ∀ r a, cell b r a = None.
Proof.
  assert (Hall : forallb (λ e : Z * gmap Z text, bool_decide (e.2 = ∅)) (entries (regs b)) = true
                 ↔ ∀ r a, cell b r a = None).
  { rewrite forallb_forall. split.
    - intros H r a. unfold cell. destruct (regs b !! r) as [m|] eqn:Er; [|done].
      cbn. assert (Hin : (r, m) ∈ entries (regs b)) by by apply elem_of_entries.
      apply list_elem_of_In in Hin. apply H in Hin.
      apply bool_decide_eq_true in Hin. cbn in Hin. by rewrite Hin.
    - intros H [r m] Hin. apply list_elem_of_In, elem_of_entries in Hin.
      apply bool_decide_eq_true. cbn. apply map_eq. intros a.
      specialize (H r a). unfold cell in H. rewrite Hin in H. cbn in H.
      by rewrite H, lookup_empty. }
  unfold bank_empty. case_bool_decide as He; [|done].
  split; [|done]. intros _ r a. unfold cell. by rewrite He, lookup_empty.
Qed.

(** ** What [parseBankText] rejects *)

Lemma getlines_elem s l c : l ∈ getlines s → c ∈ l → c ∈ s ∧ c ≠ LF.
Proof.
  revert l. induction s as [|d s IH]; intros l; cbn [getlines].
  - intros H. by apply elem_of_nil in H.
  - destruct (eqc d LF) eqn:E.
    + intros [->|Hl]%elem_of_cons Hc; [by apply elem_of_nil in Hc|].
      destruct (IH l Hl Hc). split; [by right|done].
    + apply eqc_false in E. destruct (getlines s) as [|l0 ls].
      * intros ->%list_elem_of_singleton [->|Hc]%elem_of_cons; [|by apply elem_of_nil in Hc].
        split; [by left|congruence].
      * intros [->|Hl]%elem_of_cons Hc.
        -- apply elem_of_cons in Hc as [->|Hc]; [split; [by left|congruence]|].
           destruct (IH l0 ltac:(by left) Hc). split; [by right|done].
        -- destruct (IH l ltac:(by right) Hc). split; [by right|done].
Qed.

Lemma getlines_nonempty c s : getlines (c :: s) ≠ [].
Proof. cbn [getlines]. destruct (eqc c LF); [done|]. by destruct (getlines s). Qed.

Lemma strip_bom_subseteq s c : c ∈ strip_bom s → c ∈ s.
Proof.
  unfold strip_bom. destruct s as [|c0 [|c1 [|c2 rest]]]; try done.
  destruct (_ && _); [|done]. intros H. by do 3 right.
Qed.

Lemma strip_bom_space s : Forall (λ c, isspace c = true) s → strip_bom s = s.
Proof.
  unfold strip_bom. destruct s as [|c0 [|c1 [|c2 rest]]]; try done.
  intros Hs. apply Forall_cons in Hs as [H0 _].
  destruct (code c0 =? 239) eqn:E; [|done]. apply Z.eqb_eq in E.
  rewrite <- (chr_code c0), E in H0. by vm_compute in H0.
Qed.

(** X7.  A text of space characters only is no bank: [parseBankText] fails
    with "empty file" when the text is empty and with "no header found"
    when it is not. *)
Theorem parseBankText_blank_text (txt : text) (cfg : Config) :
  Forall (λ c, isspace c = true) txt →
  parseBankText txt cfg
  = ParseErr (match txt with [] => str "empty file" | _ => str "no header found" end).
Proof.
  intros Hs. unfold parseBankText. rewrite strip_bom_space by done.
  destruct txt as [|c txt]; [done|].
  destruct (getlines (c :: txt)) as [|l ls] eqn:El; [by apply getlines_nonempty in El|].
  rewrite <- El. rewrite dropwhile_all; [done|].
  apply Forall_forall. intros l' Hl'. unfold isblank. apply bool_decide_eq_true.
  apply trim_all_space, Forall_forall. intros d Hd.
  destruct (getlines_elem _ _ _ Hl' Hd) as [Hin _].
  by apply (proj1 (Forall_forall _ _) Hs).
Qed.

Lemma parseBankText_blank_text_witness :
  parseBankText (str " " ++ [LF; TAB]) defaultConfig = ParseErr (str "no header found").
Proof.
  apply (parseBankText_blank_text (str " " ++ [LF; TAB]) defaultConfig).
  by repeat constructor.
Defined.

Lemma accumHeader_no_brace acc ls :
  "{"%char ∉ acc → Forall (λ l, "{"%char ∉ l) ls → "{"%char ∉ accumHeader acc ls.
Proof.
  revert acc. induction ls as [|l ls IH]; intros acc Hacc Hls; cbn [accumHeader].
  - by destruct (contains "{" acc).
  - destruct (contains "{" acc); [done|].
    apply Forall_cons in Hls as [Hl Hls]. apply IH; [|done].
    rewrite not_elem_of_app, not_elem_of_cons. split; [done|]. split; [done|].
    intros H. by apply trim_subseteq in H.
Qed.

(** X8.  A text without an opening brace is never parsed into a bank:
    [parseBankText] fails, and with one of its first three messages. *)
Theorem parseBankText_needs_opening_brace (txt : text) (cfg : Config) :
  "{"%char ∉ txt →
  parseBankText txt cfg = ParseErr (str "empty file")
  ∨ parseBankText txt cfg = ParseErr (str "no header found")
  ∨ parseBankText txt cfg = ParseErr (str "missing '{' after header").
Proof.
  intros Hno. unfold parseBankText.
  assert (Hlines : Forall (λ l, "{"%char ∉ l) (getlines (strip_bom txt))).
  { apply Forall_forall. intros l Hl Hc.
    destruct (getlines_elem _ _ _ Hl Hc) as [Hin _]. by apply strip_bom_subseteq in Hin. }
  destruct (getlines (strip_bom txt)) as [|l ls] eqn:El; [by left|]. right.
  rewrite <- El.
  assert (Hdrop : Forall (λ l, "{"%char ∉ l) (dropwhile isblank (getlines (strip_bom txt)))).
  { rewrite El in *. clear El. set (ll := l :: ls) in *. clearbody ll.
    induction Hlines as [|x xs Hx Hxs IH]; simpl; [done|].
    destruct (isblank x); [done|]. by constructor. }
  destruct (dropwhile isblank (getlines (strip_bom txt))) as [|l0 rest]; [by left|]. right.
  apply Forall_cons in Hdrop as [H0 Hrest].
  assert (Hacc : "{"%char ∉ accumHeader (trim l0) rest).
  { apply accumHeader_no_brace; [|done]. intros H. by apply trim_subseteq in H. }
  apply contains_false in Hacc. cbv zeta. by rewrite Hacc.
Qed.

Lemma parseBankText_needs_opening_brace_witness :
  parseBankText (str "x00001 (title)") defaultConfig = ParseErr (str "empty file")
  ∨ parseBankText (str "x00001 (title)") defaultConfig = ParseErr (str "no header found")
  ∨ parseBankText (str "x00001 (title)") defaultConfig
    = ParseErr (str "missing '{' after header").
Proof.
  apply (parseBankText_needs_opening_brace (str "x00001 (title)") defaultConfig).
  vm_compute. intros H.
  by repeat (inversion H as [|? ? ? H']; subst; clear H; rename H' into H).
Defined.

(** ** What [parseBankText] accepts *)

(** The registers the body loop can build: identifiers are non-negative,
    no register is without an address, and no value holds a newline. *)
Lemma parseIntBase_valid_id s base r : parseIntBase s base = Some r → valid_id r.
Proof.
  intros H. destruct s as [|c s]; [done|]. unfold parseIntBase in H.
  apply parseIntBase_loop_sound in H as [? _]; [done|]. unfold LLONG_MAX. lia.
Qed.

Lemma Forall_dropwhile {A} (P : A → Prop) (p : A → bool) l :
  Forall P l → Forall P (dropwhile p l).
Proof.
  induction 1 as [|x l Hx Hl IH]; simpl; [done|]. destruct (p x); [done|by constructor].
Qed.

Lemma setCell_parsed_regs rs r a v :
  parsed_regs rs → valid_id r → valid_id a → LF ∉ v → parsed_regs (setCell rs r a v).
Proof.
  intros Hrs Hr Ha Hv r' addrs. unfold setCell.
  destruct (decide (r' = r)) as [->|Hne].
  - rewrite lookup_insert_eq. intros [= <-]. split; [done|]. split.
    + apply insert_non_empty.
    + intros a' v'. destruct (decide (a' = a)) as [->|Hna].
      * rewrite lookup_insert_eq. by intros [= <-].
      * rewrite lookup_insert_ne by done.
        destruct (rs !! r) as [m|] eqn:Em; cbn [default].
        -- intros Hm. by apply (Hrs r m Em).
        -- by rewrite lookup_empty.
  - rewrite lookup_insert_ne by done. apply Hrs.
Qed.

Lemma parseBody_parsed_regs base ls cur rs rs' :
  Forall (λ l, LF ∉ l) ls → valid_id cur → parsed_regs rs →
  parseBody base ls cur rs = inr rs' → parsed_regs rs'.
Proof.
  intros Hls. revert cur rs. induction Hls as [|s ls Hs Hls IH]; intros cur rs Hcur Hrs;
    cbn [parseBody].
  - by intros [= <-].
  - destruct (contains "}" s); [by intros [= <-]|].
    destruct (isblank s); [by apply IH|].
    destruct s as [|c s']; [by apply IH|].
    destruct (negb (isindent c)).
    + destruct (parseIntBase _ base) as [regId|] eqn:Ep; [|done].
      apply IH; [|done]. by apply parseIntBase_valid_id in Ep.
    + set (t := stripIndent (c :: s')).
      assert (Ht : LF ∉ t).
      { intros Hin. apply Hs. unfold t, stripIndent in Hin.
        destruct (dropwhile_split isindent (c :: s')) as (a & Heq & _).
        rewrite Heq. set_solver. }
      destruct (match find TAB t with Some i => Some i | None => find " " t end) as [i|].
      * destruct (parseIntBase _ base) as [addrId|] eqn:Ep; [|done].
        apply IH; [done|]. apply setCell_parsed_regs; [done..| |].
        -- by apply parseIntBase_valid_id in Ep.
        -- intros Hin. apply Ht. by apply (subseteq_drop (S i) t).
      * destruct (parseIntBase _ base) as [addrId|] eqn:Ep; [|done].
        apply IH; [done|]. apply setCell_parsed_regs; [done..| |].
        -- by apply parseIntBase_valid_id in Ep.
        -- apply not_elem_of_nil.
Qed.

(** X9.  Every bank [parseBankText] returns has a non-negative identifier
    and a trimmed title; its registers and addresses are non-negative, none
    of its registers is without an address (a register line that no address
    line follows leaves nothing), and no value holds a newline. *)
Theorem parseBankText_bank_shape (txt : text) (cfg : Config) (b : Bank) :
  parseBankText txt cfg = ParseOk b →
  valid_id (bank_id b) ∧ trim (bank_title b) = bank_title b ∧ parsed_regs (regs b).
Proof.
  unfold parseBankText.
  assert (Hlines : Forall (λ l, LF ∉ l) (getlines (strip_bom txt))).
  { apply Forall_forall. intros l Hl Hc. by destruct (getlines_elem _ _ _ Hl Hc). }
  destruct (getlines (strip_bom txt)) as [|l ls]; [done|].
  pose proof (Forall_dropwhile _ isblank _ Hlines) as Hdrop.
  destruct (dropwhile isblank (l :: ls)) as [|l0 rest]; [done|].
  cbv zeta. destruct (negb _); [done|].
  destruct (find "(" _) as [lp|]; [|done]. destruct (rfind ")" _) as [rp|]; [|done].
  destruct (rp <? lp)%nat; [done|].
  destruct (parseIntBase _ (cfg_base cfg)) as [bankId|] eqn:Eid; [|done].
  pose proof (Forall_dropwhile _ (λ l, negb (contains "{" l)) _ Hdrop) as Hbody.
  destruct (dropwhile (λ l, negb (contains "{" l)) (l0 :: rest)) as [|l1 body]; [done|].
  destruct (parseBody _ body 1 ∅) as [err|rs] eqn:Eb; [done|].
  intros [= <-]. cbn [bank_id bank_title regs]. split; [|split].
  - by apply parseIntBase_valid_id in Eid.
  - apply trim_idemp.
  - apply Forall_cons in Hbody as [_ Hbody].
    apply (parseBody_parsed_regs _ _ _ _ _ Hbody) in Eb; [done| |].
    + unfold valid_id, LLONG_MAX. lia.
    + intros r addrs. by rewrite lookup_empty.
Qed.

Lemma parseBankText_bank_shape_witness :
  ∃ b, parseBankText bank2_text defaultConfig = ParseOk b
       ∧ valid_id (bank_id b) ∧ trim (bank_title b) = bank_title b ∧ parsed_regs (regs b).
Proof.
  destruct (parseBankText bank2_text defaultConfig) as [b|err] eqn:E.
  - exists b. split; [done|]. apply (parseBankText_bank_shape bank2_text defaultConfig b E).
  - by vm_compute in E.
Defined.

(** ** Resolution of text without references *)

Lemma takewhile_dropwhile {A} (p : A → bool) (s : list A) :
  s = takewhile p s ++ dropwhile p s.
Proof. induction s as [|c s IH]; simpl; [done|]. destruct (p c); simpl; [by f_equal|done]. Qed.

Lemma Forall_takewhile {A} (p : A → bool) (s : list A) :
  Forall (λ c, p c = true) (takewhile p s).
Proof.
  induction s as [|c s IH]; simpl; [done|]. destruct (p c) eqn:E; [by constructor|done].
Qed.

Lemma takewhile_all {A} (p : A → bool) (s : list A) :
  Forall (λ c, p c = true) s → takewhile p s = s.
Proof. induction 1 as [|c s Hc _ IH]; simpl; [done|]. rewrite Hc. by f_equal. Qed.

Lemma run_dot_some p s a rest :
  run_dot p s = Some (a, rest) → s = a ++ "."%char :: rest ∧ a ≠ [] ∧ Forall (λ c, p c = true) a.
Proof.
  unfold run_dot. pose proof (takewhile_dropwhile p s) as Hs.
  pose proof (Forall_takewhile p s) as Ha.
  destruct (takewhile p s) as [|x a']; [done|].
  destruct (dropwhile p s) as [|c r]; [done|].
  destruct (eqc c ".") eqn:E; [|done]. apply eqc_true in E as ->.
  intros [= <- <-]. done.
Qed.

Lemma run_dot_dot p s x : run_dot p s = Some x → "."%char ∈ s.
Proof. destruct x as [a rest]. intros (-> & _)%run_dot_some. set_solver. Qed.

Lemma match_same_dot s m : match_same s = Some m → "."%char ∈ s.
Proof.
  unfold match_same. destruct s as [|c s]; [done|]. destruct (eqc c "r"); [|done].
  destruct (run_dot isalnum s) as [x|] eqn:E; [|done]. intros _.
  right. by apply run_dot_dot in E.
Qed.

Lemma match_pref3_dot p s m : match_pref3 p s = Some m → "."%char ∈ s.
Proof.
  unfold match_pref3. destruct s as [|c s]; [done|]. destruct (eqc c p); [|done].
  destruct (run_dot isalnum s) as [x|] eqn:E; [|done]. intros _.
  right. by apply run_dot_dot in E.
Qed.

Lemma match_two_dot s m : match_two s = Some m → "."%char ∈ s.
Proof.
  unfold match_two. destruct s as [|c s]; [done|]. destruct (isalpha c); [|done].
  destruct (run_dot isalnum s) as [x|] eqn:E; [|done]. intros _.
  right. by apply run_dot_dot in E.
Qed.

Lemma match_tri_dot s m : match_tri s = Some m → "."%char ∈ s.
Proof.
  unfold match_tri. destruct (run_dot isdigit s) as [x|] eqn:E; [|done]. intros _.
  by apply run_dot_dot in E.
Qed.

Lemma strip_prefix_head c lit s rest : strip_prefix (c :: lit) s = Some rest → c ∈ s.
Proof.
  destruct s as [|d s]; [done|]. cbn [strip_prefix].
  destruct (eqc c d) eqn:E; [|done]. apply eqc_true in E as ->. intros _. by left.
Qed.

Lemma match_file_at s m : match_file s = Some m → "@"%char ∈ s.
Proof.
  unfold match_file. destruct (strip_prefix _ s) as [rest|] eqn:E; [|done].
  intros _. by apply strip_prefix_head in E.
Qed.

(** A loop over a text in which the pattern matches nowhere copies it. *)
Lemma regex_replace_none mt h prev s ws :
  (∀ a t, s = a ++ t → mt t = None) →
  regex_replace mt h prev 0 s ws = (Ret s, ws).
Proof.
  revert prev. induction s as [|c s IH]; intros prev Hno; [done|].
  cbn [regex_replace]. rewrite (Hno [] (c :: s)) by done.
  unfold bind. rewrite IH; [done|]. intros a t ->. by apply (Hno (c :: a)).
Qed.

Lemma regex_replace_without mt h prev s ws (x : ascii) :
  (∀ t m, mt t = Some m → x ∈ t) → x ∉ s →
  regex_replace mt h prev 0 s ws = (Ret s, ws).
Proof.
  intros Hmt Hx. apply regex_replace_none. intros a t ->.
  destruct (mt t) as [m|] eqn:E; [|done]. apply Hmt in E. set_solver.
Qed.

Section ResolverPlain.
Variable cwd : text.
Variable cfg : Config.
Variable fs : FS.
Hypothesis Hprefix : regex_ordinary (cfg_prefix cfg) = true.

Lemma filePass_without s ws : "@"%char ∉ s → filePass cwd fs s ws = (Ret s, ws).
Proof. intros H. unfold filePass. by apply (regex_replace_without _ _ _ _ _ "@"%char); [apply match_file_at|]. Qed.

Lemma cellPasses_without rec bank visited s ws :
  "."%char ∉ s → cellPasses cwd cfg fs rec bank visited s ws = (Ret s, ws).
Proof.
  intros H. unfold cellPasses, bind, samePass.
  rewrite (regex_replace_without _ _ _ _ _ "."%char) by (try apply match_same_dot; done).
  unfold pref3Pass. rewrite Hprefix.
  rewrite (regex_replace_without _ _ _ _ _ "."%char) by (try apply match_pref3_dot; done).
  unfold twoPass.
  rewrite (regex_replace_without _ _ _ _ _ "."%char) by (try apply match_two_dot; done).
  unfold triPass.
  by rewrite (regex_replace_without _ _ _ _ _ "."%char) by (try apply match_tri_dot; done).
Qed.

Lemma resolve_without fuel s bank visited ws :
  "."%char ∉ s → "@"%char ∉ s →
  resolve cwd cfg fs (S fuel) s bank visited ws = (Ret s, ws).
Proof.
  intros Hd Ha. rewrite resolve_S. unfold bind. rewrite filePass_without by done.
  by apply cellPasses_without.
Qed.
End ResolverPlain.

(** X10.  Text with no dot and no at-sign holds no reference: for a
    configuration whose prefix is an ordinary pattern character, [resolve]
    returns it as it is and leaves the workspace as it is, for every current
    bank and visited set and every recursion budget from 1 on. *)
Theorem resolve_text_without_references (cwd : text) (cfg : Config) (fs : FS) (fuel : nat)
    (s : text) (bank : Z) (visited : gset text) (ws : Workspace) :
  regex_ordinary (cfg_prefix cfg) = true →
  "."%char ∉ s → "@"%char ∉ s →
  resolve cwd cfg fs (S fuel) s bank visited ws = (Ret s, ws).
Proof. intros. by apply resolve_without. Qed.

Lemma resolve_text_without_references_witness :
  resolve (str "/w") defaultConfig ∅ 1 (str "hello, world") 1 ∅ emptyWorkspace
  = (Ret (str "hello, world"), emptyWorkspace).
Proof.
  apply (resolve_text_without_references (str "/w") defaultConfig ∅ 0 (str "hello, world")).
  - reflexivity.
  - vm_compute. intros H.
    by repeat (inversion H as [|? ? ? H']; subst; clear H; rename H' into H).
  - vm_compute. intros H.
    by repeat (inversion H as [|? ? ? H']; subst; clear H; rename H' into H).
Defined.

(** ** Resolution of a reference in plain text *)

Lemma takewhile_app_end {A} (p : A → bool) a post :
  Forall (λ c, p c = true) a → (∀ c, head post = Some c → p c = false) →
  takewhile p (a ++ post) = a.
Proof.
  intros Ha Hpost. destruct post as [|c post].
  - rewrite app_nil_r. by apply takewhile_all.
  - apply takewhile_app_stop; [done|]. by apply Hpost.
Qed.

Lemma run_dot_token p a rest :
  a ≠ [] → Forall (λ c, p c = true) a → p "."%char = false →
  run_dot p (a ++ "."%char :: rest) = Some (a, rest).
Proof.
  intros Hne Ha Hp. unfold run_dot.
  rewrite takewhile_app_stop, dropwhile_app_stop by done.
  destruct a; [done|]. by rewrite eqc_refl.
Qed.

Lemma match_same_token R A post :
  R ≠ [] → A ≠ [] →
  Forall (λ c, isalnum c = true) R → Forall (λ c, isalnum c = true) A →
  (∀ c, head post = Some c → isalnum c = false) →
  match_same ("r"%char :: R ++ "."%char :: A ++ post)
  = Some {| m0 := "r"%char :: R ++ "."%char :: A; m1 := R; m2 := A; m3 := [] |}.
Proof.
  intros HR HA HRa HAa Hpost. unfold match_same. rewrite eqc_refl.
  rewrite run_dot_token by done. rewrite takewhile_app_end by done.
  by destruct A.
Qed.

(** A run that meets a character other than a dot before any dot. *)
Lemma run_dot_stopped p t rest :
  "."%char ∉ t → (∃ x, x ∈ t ∧ p x = false) → run_dot p (t ++ rest) = None.
Proof.
  intros Hdot (x & Hx & Hpx).
  destruct (dropwhile_split p t) as (a & Ht & Ha & Hhd).
  destruct (dropwhile p t) as [|y t2] eqn:Ed.
  - rewrite app_nil_r in Ht. subst a.
    apply (proj1 (Forall_forall _ _) Ha) in Hx. congruence.
  - unfold run_dot. rewrite Ht, <- app_assoc. cbn [app].
    rewrite takewhile_app_stop, dropwhile_app_stop by done.
    destruct a; [done|].
    replace (eqc y ".") with false; [done|].
    symmetry. apply eqc_false. intros ->. apply Hdot. rewrite Ht.
    apply elem_of_app. right. by left.
Qed.

Lemma last_nonalnum_suffix (a t : text) c :
  (∀ x, last (a ++ c :: t) = Some x → isalnum x = false) →
  isalnum c = true → ∃ x, x ∈ t ∧ isalnum x = false.
Proof.
  intros Hlast Hc. destruct (last (c :: t)) as [x|] eqn:El.
  - assert (Hx : isalnum x = false).
    { apply Hlast. rewrite last_app. by rewrite El. }
    exists x. split; [|done].
    destruct t as [|d t]; [cbn in El; congruence|].
    rewrite last_cons_cons in El. clear -El.
    revert d El. induction t as [|e t IH]; intros d El.
    + cbn in El. injection El as ->. by left.
    + rewrite last_cons_cons in El. right. by apply IH.
  - by apply last_None in El.
Qed.

Lemma match_same_before pre rest a c t :
  "."%char ∉ pre → (∀ x, last pre = Some x → isalnum x = false) →
  pre = a ++ c :: t → match_same (c :: t ++ rest) = None.
Proof.
  intros Hdot Hlast ->. unfold match_same.
  destruct (eqc c "r") eqn:E; [|done]. apply eqc_true in E as ->.
  rewrite run_dot_stopped; [done| |].
  - set_solver.
  - by apply (last_nonalnum_suffix a t "r"%char).
Qed.

Lemma digit_isalnum c : 0 ≤ digitValue c → isalnum c = true.
Proof.
  unfold digitValue, isalnum.
  change (code "0") with 48. change (code "9") with 57. change (code "A") with 65.
  change (code "Z") with 90. change (code "a") with 97. change (code "z") with 122.
  cbv zeta.
  destruct ((48 <=? code c) && (code c <=? 57)); [done|].
  destruct ((65 <=? code c) && (code c <=? 90)); [done|].
  destruct ((97 <=? code c) && (code c <=? 122)); [done|].
  lia.
Qed.

Lemma parseIntBase_alnum s base r :
  parseIntBase s base = Some r → s ≠ [] ∧ Forall (λ c, isalnum c = true) s.
Proof.
  intros H. destruct s as [|c s]; [done|]. split; [done|].
  unfold parseIntBase in H.
  apply parseIntBase_loop_sound in H as [_ H]; [|unfold LLONG_MAX; lia].
  eapply Forall_impl; [exact H|]. intros x Hx. cbn beta in Hx. apply digit_isalnum. lia.
Qed.

Lemma alnum_not_elem (x : ascii) s :
  isalnum x = false → Forall (λ c, isalnum c = true) s → x ∉ s.
Proof.
  intros Hx Hs Hin. apply (proj1 (Forall_forall _ _) Hs) in Hin. congruence.
Qed.

Section ResolverToken.
Variable cwd : text.
Variable cfg : Config.
Variable fs : FS.
Hypothesis Hprefix : regex_ordinary (cfg_prefix cfg) = true.

Lemma laterPasses_without rec visited s ws :
  "."%char ∉ s →
  bind (pref3Pass cwd cfg fs rec visited s)
    (λ s, bind (twoPass cwd cfg fs rec visited s) (triPass cwd cfg fs rec visited)) ws
  = (Ret s, ws).
Proof.
  intros H. unfold bind, pref3Pass. rewrite Hprefix.
  rewrite (regex_replace_without _ _ _ _ _ "."%char) by (try apply match_pref3_dot; done).
  unfold twoPass.
  rewrite (regex_replace_without _ _ _ _ _ "."%char) by (try apply match_two_dot; done).
  unfold triPass.
  by rewrite (regex_replace_without _ _ _ _ _ "."%char) by (try apply match_tri_dot; done).
Qed.

(** The same-bank pass on a token in plain text. *)
Lemma samePass_token rec bank visited pre R A post ws :
  "."%char ∉ pre → (∀ x, last pre = Some x → isalnum x = false) →
  "."%char ∉ post → (∀ x, head post = Some x → isalnum x = false) →
  R ≠ [] → A ≠ [] →
  Forall (λ c, isalnum c = true) R → Forall (λ c, isalnum c = true) A →
  samePass cwd cfg fs rec bank visited (pre ++ "r"%char :: R ++ "."%char :: A ++ post) ws
  = bind (sameHandler cwd cfg fs rec bank visited
            {| m0 := "r"%char :: R ++ "."%char :: A; m1 := R; m2 := A; m3 := [] |})
      (λ r, ret (pre ++ r ++ post)) ws.
Proof.
  intros Hpre Hlast Hpost Hhead HR HA HRa HAa.
  set (tok := "r"%char :: R ++ "."%char :: A).
  assert (Hshape : pre ++ "r"%char :: R ++ "."%char :: A ++ post = pre ++ tok ++ post).
  { unfold tok. cbn [app]. by rewrite <- app_assoc. }
  rewrite Hshape. unfold samePass.
  rewrite (regex_replace_at _ _ _ pre tok post
             {| m0 := tok; m1 := R; m2 := A; m3 := [] |}).
  - unfold bind. destruct (sameHandler _ _ _ _ _ _ _ ws) as [[r| |] ws1]; try done.
    by rewrite (regex_replace_without _ _ _ _ _ "."%char) by (try apply match_same_dot; done).
  - intros a c t Heq. by apply (match_same_before pre _ a c t).
  - unfold tok. cbn [app]. rewrite <- app_assoc. cbn [app].
    by apply match_same_token.
  - done.
  - done.
Qed.
End ResolverToken.

(** X11.  For a configuration whose prefix is an ordinary pattern character
    and a recursion budget of 2 or more: a same-bank reference [r<R>.<A>]
    standing between two texts without dot and at-sign is replaced by the
    value of its cell when that value has no dot and no at-sign either.  The
    token must be set off from the text around it (no letter or digit right
    before or after it), its two parts must parse in the configured base, the
    current bank must be in the workspace and the key of the cell must not be
    in the visited set.  The workspace stays as it is. *)
Theorem resolve_reference_in_plain_text (cwd : text) (cfg : Config) (fs : FS) (fuel : nat)
    (pre R A post v : text) (r a bank : Z) (visited : gset text) (ws : Workspace) (b : Bank) :
  regex_ordinary (cfg_prefix cfg) = true →
  plain pre → (∀ x, last pre = Some x → isalnum x = false) →
  plain post → (∀ x, head post = Some x → isalnum x = false) →
  parseIntBase R (cfg_base cfg) = Some r →
  parseIntBase A (cfg_base cfg) = Some a →
  banks ws !! bank = Some b →
  cell b r a = Some v → plain v →
  to_string bank ++ "."%char :: to_string r ++ "."%char :: to_string a ∉ visited →
  resolve cwd cfg fs (S (S fuel)) (pre ++ "r"%char :: R ++ "."%char :: A ++ post) bank visited ws
  = (Ret (pre ++ v ++ post), ws).
Proof.
  intros Hprefix [Hpre1 Hpre2] Hlast [Hpost1 Hpost2] Hhead HR HA Hb Hv [Hv1 Hv2] Hkey.
  destruct (parseIntBase_alnum _ _ _ HR) as [HRne HRa].
  destruct (parseIntBase_alnum _ _ _ HA) as [HAne HAa].
  rewrite resolve_S. unfold bind at 1.
  rewrite filePass_without.
  2:{ rewrite not_elem_of_app, not_elem_of_cons, not_elem_of_app, not_elem_of_cons,
        not_elem_of_app.
      repeat split; try done; by apply alnum_not_elem. }
  unfold cellPasses. unfold bind at 1.
  rewrite samePass_token by done.
  unfold bind at 1.
  rewrite (sameHandler_ok _ _ _ _ _ _ _ r a) by done.
  rewrite (expand_found _ _ _ _ _ _ _ v ws)
    by (try done; rewrite (getValue_loaded _ _ _ _ _ _ _ b) by done; by rewrite Hv).
  rewrite resolve_without by done.
  unfold ret at 1.
  apply laterPasses_without; [done|].
  rewrite !not_elem_of_app. done.
Qed.

Lemma resolve_reference_in_plain_text_witness :
  resolve (str "/w") defaultConfig ∅ 2 (str "say r01.0001!") 1 ∅ (oneCellWorkspace (str "hello"))
  = (Ret (str "say hello!"), oneCellWorkspace (str "hello")).
Proof.
  apply (resolve_reference_in_plain_text (str "/w") defaultConfig ∅ 0
           (str "say ") (str "01") (str "0001") (str "!") (str "hello") 1 1 1 ∅
           (oneCellWorkspace (str "hello")) (oneCellBank 1 (str "hello"))).
  - reflexivity.
  - split; vm_compute; intros H;
      by repeat (inversion H as [|? ? ? H']; subst; clear H; rename H' into H).
  - intros x [= <-]. reflexivity.
  - split; vm_compute; intros H;
      by repeat (inversion H as [|? ? ? H']; subst; clear H; rename H' into H).
  - intros x [= <-]. reflexivity.
  - reflexivity.
  - reflexivity.
  - reflexivity.
  - reflexivity.
  - split; vm_compute; intros H;
      by repeat (inversion H as [|? ? ? H']; subst; clear H; rename H' into H).
  - apply not_elem_of_empty.
Defined.

(** ** A reference to a cell that does not exist *)

Lemma dots_app s t : dots (s ++ t) = (dots s + dots t)%nat.
Proof. unfold dots. by rewrite filter_app, length_app. Qed.

Lemma dots_dot s : dots ("."%char :: s) = S (dots s).
Proof. unfold dots. by rewrite filter_cons_True. Qed.

Lemma dots_cons c s : (dots s ≤ dots (c :: s))%nat.
Proof.
  unfold dots. destruct (decide (c = "."%char)) as [->|Hne].
  - rewrite filter_cons_True by done. simpl. lia.
  - by rewrite filter_cons_False.
Qed.

Lemma dots_none s : "."%char ∉ s → dots s = O.
Proof.
  intros H. unfold dots. induction s as [|c s IH]; [done|].
  apply not_elem_of_cons in H as [Hne H]. rewrite filter_cons_False by done. by apply IH.
Qed.

Lemma dots_alnum s : Forall (λ c, isalnum c = true) s → dots s = O.
Proof. intros H. apply dots_none. by apply alnum_not_elem. Qed.

Lemma match_pref3_dots p s m : match_pref3 p s = Some m → (2 ≤ dots s)%nat.
Proof.
  unfold match_pref3. destruct s as [|c s]; [done|]. destruct (eqc c p); [|done].
  destruct (run_dot isalnum s) as [[a s2]|] eqn:E1; [|done].
  destruct (run_dot isalnum s2) as [[b s3]|] eqn:E2; [|done]. intros _.
  apply run_dot_some in E1 as (-> & _). apply run_dot_some in E2 as (-> & _).
  etransitivity; [|apply dots_cons].
  rewrite dots_app, dots_dot, dots_app, dots_dot. lia.
Qed.

Lemma match_tri_dots s m : match_tri s = Some m → (2 ≤ dots s)%nat.
Proof.
  unfold match_tri.
  destruct (run_dot isdigit s) as [[a s2]|] eqn:E1; [|done].
  destruct (run_dot isdigit s2) as [[b s3]|] eqn:E2; [|done]. intros _.
  apply run_dot_some in E1 as (-> & _). apply run_dot_some in E2 as (-> & _).
  rewrite dots_app, dots_dot, dots_app, dots_dot. lia.
Qed.

Lemma regex_replace_few_dots mt h prev s ws :
  (∀ t m, mt t = Some m → (2 ≤ dots t)%nat) → (dots s ≤ 1)%nat →
  regex_replace mt h prev 0 s ws = (Ret s, ws).
Proof.
  intros Hmt Hs. apply regex_replace_none. intros a t ->.
  destruct (mt t) as [m|] eqn:E; [|done]. apply Hmt in E.
  rewrite dots_app in Hs. lia.
Qed.

Lemma isalpha_isalnum c : isalpha c = true → isalnum c = true.
Proof.
  unfold isalpha, isalnum. cbv zeta. intros H.
  apply orb_true_iff in H as [H|H]; rewrite H; by rewrite ?orb_true_r.
Qed.

Lemma match_two_before pre rest a c t :
  "."%char ∉ pre → (∀ x, last pre = Some x → isalnum x = false) →
  pre = a ++ c :: t → match_two (c :: t ++ rest) = None.
Proof.
  intros Hdot Hlast ->. unfold match_two.
  destruct (isalpha c) eqn:E; [|done]. apply isalpha_isalnum in E.
  rewrite run_dot_stopped; [done| |].
  - set_solver.
  - by apply (last_nonalnum_suffix a t c).
Qed.

Lemma match_two_token R A post :
  R ≠ [] → A ≠ [] →
  Forall (λ c, isalnum c = true) R → Forall (λ c, isalnum c = true) A →
  "."%char ∉ post → (∀ c, head post = Some c → isalnum c = false) →
  match_two ("r"%char :: R ++ "."%char :: A ++ post)
  = Some {| m0 := "r"%char :: R ++ "."%char :: A; m1 := ["r"%char]; m2 := R; m3 := A |}.
Proof.
  intros HR HA HRa HAa Hdot Hpost. unfold match_two.
  change (isalpha "r") with true. cbv iota.
  rewrite run_dot_token by done. cbv zeta. rewrite takewhile_app_end by done.
  assert (Hb : match dropwhile isalnum (A ++ post) with
               | d :: _ => if eqc d "." then removelast A else A
               | [] => A
               end = A).
  { destruct post as [|c post].
    - rewrite app_nil_r, dropwhile_all; done.
    - rewrite dropwhile_app_stop; [|done|by apply Hpost].
      replace (eqc c ".") with false; [done|]. symmetry. apply eqc_false.
      intros ->. apply Hdot. by left. }
  rewrite Hb. by destruct A.
Qed.

Section ResolverMissing.
Variable cwd : text.
Variable cfg : Config.
Variable fs : FS.
Hypothesis Hprefix : regex_ordinary (cfg_prefix cfg) = true.
Hypothesis Hr : cfg_prefix cfg ≠ "r"%char.

(** The two-part pass leaves a token alone whose letter is not the
    configured prefix. *)
Lemma twoPass_foreign_token rec visited pre R A post ws :
  "."%char ∉ pre → (∀ x, last pre = Some x → isalnum x = false) →
  "."%char ∉ post → (∀ x, head post = Some x → isalnum x = false) →
  R ≠ [] → A ≠ [] →
  Forall (λ c, isalnum c = true) R → Forall (λ c, isalnum c = true) A →
  twoPass cwd cfg fs rec visited (pre ++ "r"%char :: R ++ "."%char :: A ++ post) ws
  = (Ret (pre ++ "r"%char :: R ++ "."%char :: A ++ post), ws).
Proof.
  intros Hpre Hlast Hpost Hhead HR HA HRa HAa.
  set (tok := "r"%char :: R ++ "."%char :: A).
  assert (Hshape : pre ++ "r"%char :: R ++ "."%char :: A ++ post = pre ++ tok ++ post).
  { unfold tok. cbn [app]. by rewrite <- app_assoc. }
  rewrite Hshape. unfold twoPass.
  rewrite (regex_replace_at _ _ _ pre tok post
             {| m0 := tok; m1 := ["r"%char]; m2 := R; m3 := A |}).
  - unfold bind.
    rewrite (twoHandler_other _ _ _ _ _ _ "r"%char []) by (try done; congruence).
    by rewrite (regex_replace_without _ _ _ _ _ "."%char) by (try apply match_two_dot; done).
  - intros a c t Heq. by apply (match_two_before pre _ a c t).
  - unfold tok. cbn [app]. rewrite <- app_assoc. cbn [app].
    by apply match_two_token.
  - done.
  - done.
Qed.
End ResolverMissing.

(** X12.  For a configuration whose prefix is an ordinary pattern character
    other than [r] and a recursion budget of 1 or more: a same-bank reference
    [r<R>.<A>] to a cell the current bank does not hold is replaced by
    [[Missing r<R>.<A>]], when it stands between two texts without dot and
    at-sign, with no letter or digit right before or after it, its two parts
    parse in the configured base, the current bank is in the workspace and
    the key of the cell is not in the visited set.  The later passes leave
    the marker as it is, although the two-part pass matches the token inside
    it once more.  The workspace stays as it is. *)
Theorem resolve_missing_cell_marker (cwd : text) (cfg : Config) (fs : FS) (fuel : nat)
    (pre R A post : text) (r a bank : Z) (visited : gset text) (ws : Workspace) (b : Bank) :
  regex_ordinary (cfg_prefix cfg) = true →
  cfg_prefix cfg ≠ "r"%char →
  plain pre → (∀ x, last pre = Some x → isalnum x = false) →
  plain post → (∀ x, head post = Some x → isalnum x = false) →
  parseIntBase R (cfg_base cfg) = Some r →
  parseIntBase A (cfg_base cfg) = Some a →
  banks ws !! bank = Some b →
  cell b r a = None →
  to_string bank ++ "."%char :: to_string r ++ "."%char :: to_string a ∉ visited →
  resolve cwd cfg fs (S fuel) (pre ++ "r"%char :: R ++ "."%char :: A ++ post) bank visited ws
  = (Ret (pre ++ (str "[Missing " ++ ("r"%char :: R ++ "."%char :: A) ++ str "]") ++ post), ws).
Proof.
  intros Hprefix Hr [Hpre1 Hpre2] Hlast [Hpost1 Hpost2] Hhead HR HA Hb Hv Hkey.
  destruct (parseIntBase_alnum _ _ _ HR) as [HRne HRa].
  destruct (parseIntBase_alnum _ _ _ HA) as [HAne HAa].
  rewrite resolve_S. unfold bind at 1.
  rewrite filePass_without.
  2:{ rewrite not_elem_of_app, not_elem_of_cons, not_elem_of_app, not_elem_of_cons,
        not_elem_of_app.
      repeat split; try done; by apply alnum_not_elem. }
  unfold cellPasses. unfold bind at 1.
  rewrite samePass_token by done.
  unfold bind at 1.
  rewrite (sameHandler_ok _ _ _ _ _ _ _ r a) by done.
  rewrite (expand_missing _ _ _ _ _ _ _ ws)
    by (try done; rewrite (getValue_loaded _ _ _ _ _ _ _ b) by done; by rewrite Hv).
  unfold ret at 1. cbn [m0].
  set (tok := "r"%char :: R ++ "."%char :: A).
  assert (Hout : pre ++ (str "[Missing " ++ tok ++ str "]") ++ post
                 = (pre ++ str "[Missing ") ++ "r"%char :: R ++ "."%char :: A ++ "]"%char :: post).
  { unfold tok. rewrite <- !app_assoc. cbn [app]. by rewrite <- !app_assoc. }
  assert (Hdots : (dots (pre ++ (str "[Missing " ++ tok ++ str "]") ++ post) ≤ 1)%nat).
  { rewrite Hout, !dots_app. cbn [app].
    rewrite (dots_none pre), (dots_none (str "[Missing ")) by (try done; by vm_compute; intros H;
      repeat (inversion H as [|? ? ? H']; subst; clear H; rename H' into H)).
    etransitivity; [|reflexivity]. 
    assert (Hle : dots ("r"%char :: R ++ "."%char :: A ++ "]"%char :: post) = 1%nat).
    { change ("r"%char :: R ++ "."%char :: A ++ "]"%char :: post)
        with (["r"%char] ++ R ++ "."%char :: A ++ ["]"%char] ++ post).
      rewrite dots_app, dots_app, dots_dot, dots_app, dots_app.
      rewrite (dots_alnum R), (dots_alnum A), (dots_none post) by done.
      reflexivity. }
    rewrite Hle. done. }
  unfold bind at 1. unfold pref3Pass. rewrite Hprefix.
  rewrite regex_replace_few_dots by (try apply match_pref3_dots; done).
  unfold bind at 1. rewrite Hout.
  rewrite twoPass_foreign_token; try done.
  - unfold triPass. rewrite <- Hout.
    by rewrite regex_replace_few_dots by (try apply match_tri_dots; done).
  - rewrite not_elem_of_app. split; [done|]. vm_compute. intros H.
    by repeat (inversion H as [|? ? ? H']; subst; clear H; rename H' into H).
  - intros x. rewrite last_app. cbn. by intros [= <-].
  - rewrite not_elem_of_cons. done.
  - by intros x [= <-].
Qed.

Lemma resolve_missing_cell_marker_witness :
  resolve (str "/w") defaultConfig ∅ 1 (str "say r01.0002!") 1 ∅ (oneCellWorkspace (str "hello"))
  = (Ret (str "say [Missing r01.0002]!"), oneCellWorkspace (str "hello")).
Proof.
  apply (resolve_missing_cell_marker (str "/w") defaultConfig ∅ 0
           (str "say ") (str "01") (str "0002") (str "!") 1 2 1 ∅
           (oneCellWorkspace (str "hello")) (oneCellBank 1 (str "hello"))).
  - reflexivity.
  - discriminate.
  - split; vm_compute; intros H;
      by repeat (inversion H as [|? ? ? H']; subst; clear H; rename H' into H).
  - intros x [= <-]. reflexivity.
  - split; vm_compute; intros H;
      by repeat (inversion H as [|? ? ? H']; subst; clear H; rename H' into H).
  - intros x [= <-]. reflexivity.
  - reflexivity.
  - reflexivity.
  - reflexivity.
  - reflexivity.
  - apply not_elem_of_empty.
Defined.

(** ** A two-part reference to another bank *)

(** No match of the pattern starts in [s1] when [s2] follows. *)
Lemma regex_replace_none_app mt h prev s1 s2 ws :
  (∀ a c t, s1 = a ++ c :: t → mt (c :: t ++ s2) = None) →
  (∀ a t, s2 = a ++ t → mt t = None) →
  regex_replace mt h prev 0 (s1 ++ s2) ws = (Ret (s1 ++ s2), ws).
Proof.
  intros H1 H2. apply regex_replace_none. intros a t Heq.
  apply app_eq_inv in Heq as [(k & -> & ->)|(k & -> & ->)].
  - destruct k as [|c k]; [rewrite app_nil_l; by apply (H2 [])|].
    by apply (H1 a c k).
  - by apply (H2 k).
Qed.

Lemma match_two_letter_token p R A post :
  isalpha p = true → R ≠ [] → A ≠ [] →
  Forall (λ c, isalnum c = true) R → Forall (λ c, isalnum c = true) A →
  "."%char ∉ post → (∀ c, head post = Some c → isalnum c = false) →
  match_two (p :: R ++ "."%char :: A ++ post)
  = Some {| m0 := p :: R ++ "."%char :: A; m1 := [p]; m2 := R; m3 := A |}.
Proof.
  intros Hp HR HA HRa HAa Hdot Hpost. unfold match_two. rewrite Hp.
  rewrite run_dot_token by done. cbv zeta. rewrite takewhile_app_end by done.
  assert (Hb : match dropwhile isalnum (A ++ post) with
               | d :: _ => if eqc d "." then removelast A else A
               | [] => A
               end = A).
  { destruct post as [|c post].
    - rewrite app_nil_r, dropwhile_all; done.
    - rewrite dropwhile_app_stop; [|done|by apply Hpost].
      replace (eqc c ".") with false; [done|]. symmetry. apply eqc_false.
      intros ->. apply Hdot. by left. }
  rewrite Hb. by destruct A.
Qed.

Section ResolverTwoPart.
Variable cwd : text.
Variable cfg : Config.
Variable fs : FS.
Hypothesis Hprefix : regex_ordinary (cfg_prefix cfg) = true.
Hypothesis Hletter : isalpha (cfg_prefix cfg) = true.
Hypothesis Hr : cfg_prefix cfg ≠ "r"%char.

(** The same-bank pass finds nothing in a token with the configured
    prefix, when the bank part holds no [r]. *)
Lemma samePass_prefixed_token rec bank visited pre B A post ws :
  "."%char ∉ pre → (∀ x, last pre = Some x → isalnum x = false) →
  "."%char ∉ post → "r"%char ∉ B → "."%char ∉ A →
  samePass cwd cfg fs rec bank visited
    (pre ++ cfg_prefix cfg :: B ++ "."%char :: A ++ post) ws
  = (Ret (pre ++ cfg_prefix cfg :: B ++ "."%char :: A ++ post), ws).
Proof.
  intros Hpre Hlast Hpost HB HA. unfold samePass.
  apply regex_replace_none_app.
  { intros a c t Heq. by apply (match_same_before pre _ a c t). }
  intros a t Heq.
  change (cfg_prefix cfg :: B ++ "."%char :: A ++ post)
    with ((cfg_prefix cfg :: B) ++ "."%char :: A ++ post) in Heq.
  apply app_eq_inv in Heq as [(k & Hk & ->)|(k & -> & Hk)].
  - (* the match would start in the prefix or the bank part *)
    destruct k as [|c k]; [|].
    + cbn [app]. unfold match_same. by change (eqc "." "r") with false.
    + cbn [app]. unfold match_same.
      destruct (eqc c "r") eqn:E; [|done]. apply eqc_true in E as ->.
      exfalso. destruct a as [|x a]; cbn [app] in Hk.
      * injection Hk as Hk _. by apply Hr.
      * injection Hk as _ Hk. apply HB. rewrite Hk. apply elem_of_app. right. by left.
  - (* the match would start at the dot or after it *)
    destruct k as [|c k]; cbn [app] in Hk.
    + subst t. unfold match_same. by change (eqc "." "r") with false.
    + injection Hk as _ Hk.
      destruct (match_same t) as [m|] eqn:E; [|done]. apply match_same_dot in E.
      exfalso.
      assert (Hin : "."%char ∈ A ++ post) by (rewrite Hk; apply elem_of_app; by right).
      rewrite elem_of_app in Hin. by destruct Hin.
Qed.

Lemma getValueTwoPart_loaded bank addr ws b :
  banks ws !! bank = Some b →
  getValueTwoPart cwd cfg fs bank addr ws = (Ret (cell b 1 addr), ws).
Proof.
  intros Hb. unfold getValueTwoPart, bind, ensureBankLoadedInWorkspace. rewrite Hb.
  by apply getValue_loaded.
Qed.

(** The two-part pass on a token with the configured prefix. *)
Lemma twoPass_prefixed_token rec visited pre B A post ws :
  "."%char ∉ pre → (∀ x, last pre = Some x → isalnum x = false) →
  "."%char ∉ post → (∀ x, head post = Some x → isalnum x = false) →
  B ≠ [] → A ≠ [] →
  Forall (λ c, isalnum c = true) B → Forall (λ c, isalnum c = true) A →
  twoPass cwd cfg fs rec visited (pre ++ cfg_prefix cfg :: B ++ "."%char :: A ++ post) ws
  = bind (twoHandler cwd cfg fs rec visited
            {| m0 := cfg_prefix cfg :: B ++ "."%char :: A; m1 := [cfg_prefix cfg];
               m2 := B; m3 := A |})
      (λ r, ret (pre ++ r ++ post)) ws.
Proof.
  intros Hpre Hlast Hpost Hhead HB HA HBa HAa.
  set (tok := cfg_prefix cfg :: B ++ "."%char :: A).
  assert (Hshape : pre ++ cfg_prefix cfg :: B ++ "."%char :: A ++ post = pre ++ tok ++ post).
  { unfold tok. cbn [app]. by rewrite <- app_assoc. }
  rewrite Hshape. unfold twoPass.
  rewrite (regex_replace_at _ _ _ pre tok post
             {| m0 := tok; m1 := [cfg_prefix cfg]; m2 := B; m3 := A |}).
  - unfold bind. destruct (twoHandler _ _ _ _ _ _ ws) as [[r| |] ws1]; try done.
    by rewrite (regex_replace_without _ _ _ _ _ "."%char) by (try apply match_two_dot; done).
  - intros a c t Heq. by apply (match_two_before pre _ a c t).
  - unfold tok. cbn [app]. rewrite <- app_assoc. cbn [app].
    by apply match_two_letter_token.
  - done.
  - done.
Qed.
End ResolverTwoPart.

(** X13.  A two-part reference [<prefix><B>.<A>] standing in text without
    other references is replaced by the value at register 1, address [A] of
    bank [B], whatever the current bank, when that value is plain text: the
    prefix must be a letter other than [r], the bank part must hold no [r]
    (the same-bank pass, which runs first, would take the token from there),
    the token must be set off from the text around it, its parts must parse
    in the configured base, the bank must be in the workspace and the
    reference not under resolution already.  The workspace stays as it
    is. *)
Theorem resolve_two_part_reference (cwd : text) (cfg : Config) (fs : FS) (fuel : nat)
    (pre B A post v : text) (b a cur : Z) (visited : gset text) (ws : Workspace) (bk : Bank) :
  regex_ordinary (cfg_prefix cfg) = true →
  isalpha (cfg_prefix cfg) = true →
  cfg_prefix cfg ≠ "r"%char →
  "r"%char ∉ B →
  plain pre → (∀ x, last pre = Some x → isalnum x = false) →
  plain post → (∀ x, head post = Some x → isalnum x = false) →
  parseIntBase B (cfg_base cfg) = Some b →
  parseIntBase A (cfg_base cfg) = Some a →
  banks ws !! b = Some bk →
  cell bk 1 a = Some v → plain v →
  cfg_prefix cfg :: B ++ "."%char :: A ∉ visited →
  resolve cwd cfg fs (S (S fuel)) (pre ++ cfg_prefix cfg :: B ++ "."%char :: A ++ post)
    cur visited ws
  = (Ret (pre ++ v ++ post), ws).
Proof.
  intros Hprefix Hletter Hr HrB [Hpre1 Hpre2] Hlast [Hpost1 Hpost2] Hhead HB HA Hb Hv
    [Hv1 Hv2] Hkey.
  destruct (parseIntBase_alnum _ _ _ HB) as [HBne HBa].
  destruct (parseIntBase_alnum _ _ _ HA) as [HAne HAa].
  assert (HAdot : "."%char ∉ A) by (by apply alnum_not_elem).
  rewrite resolve_S. unfold bind at 1.
  rewrite filePass_without.
  2:{ rewrite not_elem_of_app, not_elem_of_cons, not_elem_of_app, not_elem_of_cons,
        not_elem_of_app.
      repeat split; try done; try (by apply alnum_not_elem).
      intros E. rewrite <- E in Hletter. by vm_compute in Hletter. }
  unfold cellPasses. unfold bind at 1.
  rewrite samePass_prefixed_token by done.
  unfold bind at 1. unfold pref3Pass. rewrite Hprefix.
  rewrite regex_replace_few_dots; [|apply match_pref3_dots|].
  2:{ rewrite dots_app, (dots_none pre) by done.
      change (cfg_prefix cfg :: B ++ "."%char :: A ++ post)
        with ([cfg_prefix cfg] ++ B ++ "."%char :: A ++ post).
      rewrite dots_app, dots_app, dots_dot, dots_app.
      rewrite (dots_alnum B), (dots_alnum A), (dots_none post) by done.
      rewrite (dots_none [cfg_prefix cfg]); [done|].
      rewrite not_elem_of_cons. split; [|apply not_elem_of_nil].
      intros E. rewrite <- E in Hletter. by vm_compute in Hletter. }
  unfold bind at 1. rewrite twoPass_prefixed_token by done.
  unfold bind at 1. unfold twoHandler. cbn [m0 m1 m2 m3]. rewrite eqc_refl. cbn [negb].
  rewrite HB, HA.
  rewrite (expand_found _ _ _ _ _ _ _ v ws)
    by (try done; rewrite (getValueTwoPart_loaded _ _ _ _ _ _ bk) by done; by rewrite Hv).
  rewrite resolve_without by done.
  unfold ret at 1. unfold triPass.
  rewrite (regex_replace_without _ _ _ _ _ "."%char); [done|apply match_tri_dot|].
  rewrite !not_elem_of_app. done.
Qed.

Lemma resolve_two_part_reference_witness :
  resolve (str "/w") defaultConfig ∅ 2 (str "say x00001.0001!") 7 ∅
    (oneCellWorkspace (str "hello"))
  = (Ret (str "say hello!"), oneCellWorkspace (str "hello")).
Proof.
  apply (resolve_two_part_reference (str "/w") defaultConfig ∅ 0
           (str "say ") (str "00001") (str "0001") (str "!") (str "hello") 1 1 7 ∅
           (oneCellWorkspace (str "hello")) (oneCellBank 1 (str "hello"))).
  - reflexivity.
  - reflexivity.
  - discriminate.
  - apply (bool_decide_unpack _). vm_compute. reflexivity.
  - split; apply (bool_decide_unpack _); vm_compute; reflexivity.
  - intros x [= <-]. reflexivity.
  - split; apply (bool_decide_unpack _); vm_compute; reflexivity.
  - intros x [= <-]. reflexivity.
  - reflexivity.
  - reflexivity.
  - reflexivity.
  - reflexivity.
  - split; apply (bool_decide_unpack _); vm_compute; reflexivity.
  - apply not_elem_of_empty.
Defined.

(** ** The editing commands *)

Lemma cellOf_bank_at w id r a : cellOf (regs (bank_at w id).1) r a = cellAt w id r a.
Proof.
  unfold bank_at, cellAt. destruct (banks w !! id) as [b|]; [done|].
  exact (cellOf_empty r a).
Qed.

Lemma banks_bank_at w id id' :
  id' ≠ id → banks (bank_at w id).2 !! id' = banks w !! id'.
Proof.
  intros Hne. unfold bank_at. destruct (banks w !! id) as [b|]; [done|].
  cbn. by rewrite lookup_insert_ne.
Qed.

Lemma cellAt_bank_at w id id' r a : cellAt (bank_at w id).2 id' r a = cellAt w id' r a.
Proof.
  unfold cellAt, bank_at. destruct (banks w !! id) as [b|] eqn:E; [done|]. cbn.
  destruct (decide (id' = id)) as [->|Hne].
  - rewrite lookup_insert_eq, E. exact (cellOf_empty r a).
  - by rewrite lookup_insert_ne.
Qed.

Lemma cellAt_updateRegs w id f id' r a :
  cellAt (Editor.updateRegs w id f) id' r a
  = if decide (id' = id) then cellOf (f (regs (bank_at w id).1)) r a else cellAt w id' r a.
Proof.
  unfold Editor.updateRegs.
  pose proof (banks_bank_at w id id') as Hother.
  destruct (bank_at w id) as [b w1] eqn:E. cbn [fst snd] in *.
  unfold cellAt at 1. cbn [banks].
  destruct (decide (id' = id)) as [->|Hne].
  - by rewrite lookup_insert_eq.
  - rewrite lookup_insert_ne by done. rewrite Hother by done. done.
Qed.

(** X14.  [insertR] with a context open and tokens that parse stores the
    value at that register and address of the current bank and marks the
    editor as changed; every other cell of every bank reads as before,
    nothing is printed, and the configuration and the current context are
    kept. *)
Theorem insertR_stores_the_cell (regTok addrTok value : text) (E : Editor.state)
    (cur r a : Z) :
  Editor.current E = Some cur →
  parseIntBase regTok (cfg_base (Editor.cfg E)) = Some r →
  parseIntBase addrTok (cfg_base (Editor.cfg E)) = Some a →
  ∃ E', Editor.insertR regTok addrTok value E = (E', [])
        ∧ Editor.dirty E' = true
        ∧ Editor.current E' = Some cur
        ∧ Editor.cfg E' = Editor.cfg E
        ∧ ∀ id r' a', cellAt (Editor.ws E') id r' a'
                      = if decide (id = cur ∧ r' = r ∧ a' = a) then Some value
                        else cellAt (Editor.ws E) id r' a'.
Proof.
  intros Hcur Hr Ha. unfold Editor.insertR. rewrite Hcur, Hr, Ha.
  eexists. split; [done|]. cbn. repeat split; [done|].
  intros id r' a'. rewrite cellAt_updateRegs.
  destruct (decide (id = cur)) as [->|Hne].
  - rewrite cellOf_setCell, cellOf_bank_at.
    destruct (decide (r' = r ∧ a' = a)) as [[-> ->]|Hn].
    + by rewrite decide_True.
    + rewrite decide_False; [done|]. intros (_ & ? & ?). by apply Hn.
  - rewrite decide_False; [done|]. by intros [? _].
Qed.

Lemma insertR_stores_the_cell_witness :
  ∃ E', Editor.insertR (str "02") (str "0003") (str "World")
          {| Editor.cfg := defaultConfig; Editor.ws := oneCellWorkspace (str "hello");
             Editor.current := Some 1; Editor.dirty := false |} = (E', [])
        ∧ Editor.dirty E' = true
        ∧ Editor.current E' = Some 1
        ∧ Editor.cfg E' = defaultConfig
        ∧ ∀ id r' a', cellAt (Editor.ws E') id r' a'
                      = if decide (id = 1 ∧ r' = 2 ∧ a' = 3) then Some (str "World")
                        else cellAt (oneCellWorkspace (str "hello")) id r' a'.
Proof.
  apply (insertR_stores_the_cell (str "02") (str "0003") (str "World")
           {| Editor.cfg := defaultConfig; Editor.ws := oneCellWorkspace (str "hello");
              Editor.current := Some 1; Editor.dirty := false |} 1 2 3); reflexivity.
Defined.

(** X15.  An editing command that cannot run changes nothing.  With no
    context open, or with an address token that does not parse in the
    configured base, [insert], [insertR], [del] and [delR] return the editor
    as it was; so do [insertR] and [delR] with a register token that does
    not parse. *)
Theorem editing_commands_rejected (regTok addrTok value : text) (E : Editor.state) :
  (Editor.current E = None ∨ parseIntBase addrTok (cfg_base (Editor.cfg E)) = None →
   (Editor.insert addrTok value E).1 = E ∧ (Editor.insertR regTok addrTok value E).1 = E
   ∧ (Editor.del addrTok E).1 = E ∧ (Editor.delR regTok addrTok E).1 = E)
  ∧ (parseIntBase regTok (cfg_base (Editor.cfg E)) = None →
     (Editor.insertR regTok addrTok value E).1 = E ∧ (Editor.delR regTok addrTok E).1 = E).
Proof.
  unfold Editor.insert, Editor.insertR, Editor.del, Editor.delR. split.
  - intros H. destruct (Editor.current E) as [cur|]; [|done].
    destruct H as [?|H]; [done|]. rewrite H.
    by destruct (parseIntBase regTok _).
  - intros H. rewrite H. by destruct (Editor.current E).
Qed.

Lemma editing_commands_rejected_witness :
  let E := {| Editor.cfg := defaultConfig; Editor.ws := oneCellWorkspace (str "hello");
              Editor.current := Some 1; Editor.dirty := false |} in
  (Editor.insert (str "0g") (str "v") E).1 = E
  ∧ (Editor.insertR (str "1") (str "0g") (str "v") E).1 = E
  ∧ (Editor.del (str "0g") E).1 = E
  ∧ (Editor.delR (str "1") (str "0g") E).1 = E.
Proof.
  intros E. apply (editing_commands_rejected (str "1") (str "0g") (str "v") E).
  right. reflexivity.
Defined.

Lemma cellOf_delete_in (rs : gmap Z (gmap Z text)) r a m r' a' :
  rs !! r = Some m →
  cellOf (<[r := delete a m]> rs) r' a'
  = if decide (r' = r ∧ a' = a) then None else cellOf rs r' a'.
Proof.
  intros Hm. unfold cellOf. destruct (decide (r' = r)) as [->|Hr].
  - rewrite lookup_insert_eq, Hm. cbn. destruct (decide (a' = a)) as [->|Ha].
    + rewrite lookup_delete_eq. by rewrite decide_True.
    + rewrite lookup_delete_ne by done. rewrite decide_False; [done|]. by intros [_ ?].
  - rewrite lookup_insert_ne by done. rewrite decide_False; [done|]. by intros [? _].
Qed.

Lemma cellOf_delete_register (rs : gmap Z (gmap Z text)) r a m r' a' :
  rs !! r = Some m → delete a m = ∅ →
  cellOf (delete r rs) r' a'
  = if decide (r' = r ∧ a' = a) then None else cellOf rs r' a'.
Proof.
  intros Hm He. unfold cellOf. destruct (decide (r' = r)) as [->|Hr].
  - rewrite lookup_delete_eq, Hm. cbn. destruct (decide (a' = a)) as [->|Ha].
    + by rewrite decide_True.
    + rewrite decide_False by (by intros [_ ?]).
      rewrite <- (lookup_delete_ne m a a') by done. by rewrite He, lookup_empty.
  - rewrite lookup_delete_ne by done. rewrite decide_False; [done|]. by intros [? _].
Qed.

(** X16.  [delR] with a context open and tokens that parse erases that
    cell of the current bank and no other cell of any bank; it prints
    [No such register.] when the bank has no such register, and else whether
    the address was there; the editor is marked as changed exactly when a
    cell was erased; and the register is never left behind without an
    address. *)
Theorem delR_erases_the_cell (regTok addrTok : text) (E : Editor.state) (cur r a : Z) :
  Editor.current E = Some cur →
  parseIntBase regTok (cfg_base (Editor.cfg E)) = Some r →
  parseIntBase addrTok (cfg_base (Editor.cfg E)) = Some a →
  ∃ E', Editor.delR regTok addrTok E
        = (E', match banks (Editor.ws E) !! cur ≫= λ b, regs b !! r with
               | None => str "No such register." ++ [LF]
               | Some m => Editor.erased (bool_decide (is_Some (m !! a)))
               end)
        ∧ (∀ id r' a', cellAt (Editor.ws E') id r' a'
                       = if decide (id = cur ∧ r' = r ∧ a' = a) then None
                         else cellAt (Editor.ws E) id r' a')
        ∧ Editor.dirty E'
          = (if bool_decide (is_Some (cellAt (Editor.ws E) cur r a)) then true
             else Editor.dirty E)
        ∧ (∀ b', banks (Editor.ws E') !! cur = Some b' → regs b' !! r ≠ Some ∅).
Proof.
  intros Hcur Hr Ha. unfold Editor.delR. rewrite Hcur, Hr, Ha.
  pose proof (cellOf_bank_at (Editor.ws E) cur) as Hcell.
  pose proof (λ id, cellAt_bank_at (Editor.ws E) cur id) as Hframe.
  assert (Hreg : regs (bank_at (Editor.ws E) cur).1 !! r
                 = banks (Editor.ws E) !! cur ≫= λ b, regs b !! r).
  { unfold bank_at. by destruct (banks (Editor.ws E) !! cur). }
  assert (Hlook : banks (bank_at (Editor.ws E) cur).2 !! cur
                  = Some (bank_at (Editor.ws E) cur).1).
  { unfold bank_at. destruct (banks (Editor.ws E) !! cur) eqn:Eb; [done|].
    cbn. by rewrite lookup_insert_eq. }
  destruct (bank_at (Editor.ws E) cur) as [b w]. cbn [fst snd] in *.
  rewrite <- Hreg.
  destruct (regs b !! r) as [m|] eqn:Em.
  - eexists. split; [done|]. cbn [Editor.edited Editor.ws Editor.dirty].
    assert (Hold : cellAt (Editor.ws E) cur r a = m !! a).
    { rewrite <- Hcell. unfold cellOf. by rewrite Em. }
    split; [|split].
    + intros id r' a'. unfold cellAt at 1. cbn [banks].
      destruct (decide (id = cur)) as [->|Hne].
      * rewrite lookup_insert_eq. cbn. rewrite cell_cellOf. cbn [regs Editor.withRegs].
        rewrite <- Hcell. case_bool_decide as He.
        -- rewrite (cellOf_delete_register _ r a m) by done.
           destruct (decide (r' = r ∧ a' = a)) as [[-> ->]|Hn].
           ++ by rewrite decide_True.
           ++ rewrite decide_False; [done|]. intros (_ & ? & ?). by apply Hn.
        -- rewrite (cellOf_delete_in _ r a m) by done.
           destruct (decide (r' = r ∧ a' = a)) as [[-> ->]|Hn].
           ++ by rewrite decide_True.
           ++ rewrite decide_False; [done|]. intros (_ & ? & ?). by apply Hn.
      * rewrite lookup_insert_ne by done. rewrite decide_False by (by intros [? _]).
        apply (Hframe id).
    + by rewrite Hold.
    + intros b'. cbn [banks]. rewrite lookup_insert_eq. intros [= <-].
      cbn [regs Editor.withRegs]. case_bool_decide as He.
      * by rewrite lookup_delete_eq.
      * rewrite lookup_insert_eq. congruence.
  - eexists. split; [done|]. cbn [Editor.edited Editor.ws Editor.dirty].
    assert (Hold : ∀ a', cellAt (Editor.ws E) cur r a' = None).
    { intros a'. rewrite <- Hcell. unfold cellOf. by rewrite Em. }
    split; [|split].
    + intros id r' a'. rewrite Hframe.
      destruct (decide (id = cur ∧ r' = r ∧ a' = a)) as [(-> & -> & ->)|Hn]; [|done].
      apply Hold.
    + rewrite Hold. by rewrite bool_decide_eq_false_2 by (by intros [? ?]).
    + intros b'. rewrite Hlook. intros [= <-]. by rewrite Em.
Qed.

Lemma delR_erases_the_cell_witness :
  ∃ E', Editor.delR (str "1") (str "1")
          {| Editor.cfg := defaultConfig; Editor.ws := oneCellWorkspace (str "hello");
             Editor.current := Some 1; Editor.dirty := false |}
        = (E', match banks (oneCellWorkspace (str "hello")) !! 1 ≫= λ b, regs b !! 1 with
               | None => str "No such register." ++ [LF]
               | Some m => Editor.erased (bool_decide (is_Some (m !! 1)))
               end)
        ∧ (∀ id r' a', cellAt (Editor.ws E') id r' a'
                       = if decide (id = 1 ∧ r' = 1 ∧ a' = 1) then None
                         else cellAt (oneCellWorkspace (str "hello")) id r' a')
        ∧ Editor.dirty E'
          = (if bool_decide (is_Some (cellAt (oneCellWorkspace (str "hello")) 1 1 1)) then true
             else false)
        ∧ (∀ b', banks (Editor.ws E') !! 1 = Some b' → regs b' !! 1 ≠ Some ∅).
Proof.
  apply (delR_erases_the_cell (str "1") (str "1")
           {| Editor.cfg := defaultConfig; Editor.ws := oneCellWorkspace (str "hello");
              Editor.current := Some 1; Editor.dirty := false |} 1 1 1); reflexivity.
Defined.

(** X17.  [del] with a context open and an address token that parses erases
    that address of register 1 of the current bank and no other cell; it
    prints whether the address was there and marks the editor as changed
    exactly when it was.  Unlike [delR] it leaves register 1 in the bank
    always, creating it when the bank had none. *)
Theorem del_erases_the_cell (addrTok : text) (E : Editor.state) (cur a : Z) :
  Editor.current E = Some cur →
  parseIntBase addrTok (cfg_base (Editor.cfg E)) = Some a →
  ∃ E', Editor.del addrTok E
        = (E', Editor.erased (bool_decide (is_Some (cellAt (Editor.ws E) cur 1 a))))
        ∧ (∀ id r' a', cellAt (Editor.ws E') id r' a'
                       = if decide (id = cur ∧ r' = 1 ∧ a' = a) then None
                         else cellAt (Editor.ws E) id r' a')
        ∧ Editor.dirty E'
          = (if bool_decide (is_Some (cellAt (Editor.ws E) cur 1 a)) then true
             else Editor.dirty E)
        ∧ (∃ b', banks (Editor.ws E') !! cur = Some b' ∧ is_Some (regs b' !! 1)).
Proof.
  intros Hcur Ha. unfold Editor.del. rewrite Hcur, Ha. cbv zeta.
  assert (Hold : default ∅ (regs (bank_at (Editor.ws E) cur).1 !! 1) !! a
                 = cellAt (Editor.ws E) cur 1 a).
  { rewrite <- cellOf_bank_at. unfold cellOf.
    destruct (regs (bank_at (Editor.ws E) cur).1 !! 1); [done|]. cbn. apply lookup_empty. }
  rewrite Hold. eexists. split; [done|].
  cbn [Editor.edited Editor.ws Editor.dirty]. split; [|split; [done|]].
  - intros id r' a'. rewrite cellAt_updateRegs.
    destruct (decide (id = cur)) as [->|Hne].
    + rewrite <- cellOf_bank_at. set (rs := regs (bank_at (Editor.ws E) cur).1).
      unfold cellOf. destruct (decide (r' = 1)) as [->|Hr].
      * rewrite lookup_insert_eq. cbn. destruct (decide (a' = a)) as [->|Hna].
        -- rewrite lookup_delete_eq. by rewrite decide_True.
        -- rewrite lookup_delete_ne by done. rewrite decide_False by (by intros (_ & _ & ?)).
           destruct (rs !! 1); [done|]. cbn. apply lookup_empty.
      * rewrite lookup_insert_ne by done. rewrite decide_False; [done|]. by intros (_ & ? & _).
    + rewrite decide_False; [done|]. by intros [? _].
  - unfold Editor.updateRegs. destruct (bank_at (Editor.ws E) cur) as [b w].
    cbn [banks]. rewrite lookup_insert_eq. eexists. split; [done|].
    cbn [regs Editor.withRegs]. by rewrite lookup_insert_eq.
Qed.

Lemma del_erases_the_cell_witness :
  ∃ E', Editor.del (str "0001")
          {| Editor.cfg := defaultConfig; Editor.ws := oneCellWorkspace (str "hello");
             Editor.current := Some 1; Editor.dirty := false |}
        = (E', Editor.erased
                 (bool_decide (is_Some (cellAt (oneCellWorkspace (str "hello")) 1 1 1))))
        ∧ (∀ id r' a', cellAt (Editor.ws E') id r' a'
                       = if decide (id = 1 ∧ r' = 1 ∧ a' = 1) then None
                         else cellAt (oneCellWorkspace (str "hello")) id r' a')
        ∧ Editor.dirty E'
          = (if bool_decide (is_Some (cellAt (oneCellWorkspace (str "hello")) 1 1 1)) then true
             else false)
        ∧ (∃ b', banks (Editor.ws E') !! 1 = Some b' ∧ is_Some (regs b' !! 1)).
Proof.
  apply (del_erases_the_cell (str "0001")
           {| Editor.cfg := defaultConfig; Editor.ws := oneCellWorkspace (str "hello");
              Editor.current := Some 1; Editor.dirty := false |} 1 1); reflexivity.
Defined.

(** X18.  [readMerge] of a readable file that parses lays the file over the
    current bank: a cell reads as in the file where the file has it and as
    before where it has not, other banks are untouched, the bank takes the
    title of the file only when it has none of its own, and the editor is
    marked as changed. *)
Theorem readMerge_overlays_the_file (cwd : text) (fs : FS) (path txt : text)
    (E : Editor.state) (cur : Z) (tmp : Bank) :
  Editor.current E = Some cur →
  fs_read cwd fs path = Ret (Some txt) →
  parseBankText txt (Editor.cfg E) = ParseOk tmp →
  ∃ E' b', Editor.readMerge cwd fs path E = Ret (E', str "Merged." ++ [LF])
        ∧ Editor.dirty E' = true
        ∧ (∀ id r a, cellAt (Editor.ws E') id r a
                     = if decide (id = cur) then
                         match cell tmp r a with
                         | Some v => Some v
                         | None => cellAt (Editor.ws E) cur r a
                         end
                       else cellAt (Editor.ws E) id r a)
        ∧ banks (Editor.ws E') !! cur = Some b'
        ∧ bank_title b'
          = match banks (Editor.ws E) !! cur with
            | Some b => match bank_title b with [] => bank_title tmp | _ => bank_title b end
            | None => bank_title tmp
            end.
Proof.
  intros Hcur Hread Hparse. unfold Editor.readMerge. rewrite Hcur, Hread, Hparse.
  pose proof (cellOf_bank_at (Editor.ws E) cur) as Hcell.
  pose proof (λ id, cellAt_bank_at (Editor.ws E) cur id) as Hframe.
  assert (Htitle : bank_title (bank_at (Editor.ws E) cur).1
                   = match banks (Editor.ws E) !! cur with
                     | Some b => bank_title b
                     | None => []
                     end).
  { unfold bank_at. by destruct (banks (Editor.ws E) !! cur). }
  destruct (bank_at (Editor.ws E) cur) as [b w]. cbn [fst snd] in *.
  eexists _, _. split; [done|]. cbn [Editor.edited Editor.ws Editor.dirty banks].
  split; [done|]. split; [|split].
  - intros id r a. unfold cellAt at 1. cbn [banks].
    destruct (decide (id = cur)) as [->|Hne].
    + rewrite lookup_insert_eq. cbn. rewrite cell_cellOf. cbn [regs].
      rewrite <- Hcell. rewrite cell_cellOf.
      destruct (regs tmp !! r) as [m|] eqn:Er.
      * rewrite (cellOf_fillRegisters_in _ _ r m);
          [|apply NoDup_fst_entries|by apply elem_of_entries].
        unfold cellOf at 2. by rewrite Er.
      * rewrite cellOf_fillRegisters_other by (by apply not_elem_of_fst_entries).
        unfold cellOf at 2. by rewrite Er.
    + rewrite lookup_insert_ne by done. apply (Hframe id).
  - by rewrite lookup_insert_eq.
  - cbn [bank_title]. rewrite Htitle.
    by destruct (banks (Editor.ws E) !! cur).
Qed.

Lemma readMerge_overlays_the_file_witness :
  ∃ E' b', Editor.readMerge (str "/w") fs_bank2 (str "files/x00002.txt")
             {| Editor.cfg := defaultConfig; Editor.ws := oneCellWorkspace (str "old");
                Editor.current := Some 1; Editor.dirty := false |}
           = Ret (E', str "Merged." ++ [LF])
        ∧ Editor.dirty E' = true
        ∧ (∀ id r a, cellAt (Editor.ws E') id r a
                     = if decide (id = 1) then
                         match cell {| bank_id := 2; bank_title := str "Second";
                                       regs := {[ 1 := {[ 1 := str "hello" ]} ]} |} r a with
                         | Some v => Some v
                         | None => cellAt (oneCellWorkspace (str "old")) 1 r a
                         end
                       else cellAt (oneCellWorkspace (str "old")) id r a)
        ∧ banks (Editor.ws E') !! 1 = Some b'
        ∧ bank_title b'
          = match banks (oneCellWorkspace (str "old")) !! 1 with
            | Some b => match bank_title b with
                        | [] => str "Second"
                        | _ => bank_title b
                        end
            | None => str "Second"
            end.
Proof.
  apply (readMerge_overlays_the_file (str "/w") fs_bank2 (str "files/x00002.txt") bank2_text
           {| Editor.cfg := defaultConfig; Editor.ws := oneCellWorkspace (str "old");
              Editor.current := Some 1; Editor.dirty := false |} 1
           {| bank_id := 2; bank_title := str "Second";
              regs := {[ 1 := {[ 1 := str "hello" ]} ]} |}).
  - reflexivity.
  - reflexivity.
  - vm_compute. reflexivity.
Defined.

(** ** Files written by the kernel *)

(** X19.  [writeTextFile] that reports success has left the text in the
    file, at the absolute form of the path; whatever it reports, no other
    file is created, changed or removed: elsewhere the file system differs by
    new directories only.  A file that was not there before reads back as
    the text written. *)
Theorem writeTextFile_writes_one_file (cwd : text) (fs fs' : FS) (p s : text) (ok : bool) :
  writeTextFile cwd fs p s = (Ret ok, fs') →
  (ok = true → ∃ rd, fs' !! absolute cwd p = Some (File rd true s))
  ∧ (ok = true → fs !! absolute cwd p = None → readTextFile cwd fs' p = Ret (Some s))
  ∧ (∀ q, q ≠ absolute cwd p ∨ ok = false →
          fs' !! q = fs !! q ∨ (fs !! q = None ∧ fs' !! q = Some Dir)).
Proof.
  intros Hw. split; [|split].
  - intros ->. by apply (writeTextFile_written cwd fs).
  - intros -> Hnew. unfold readTextFile, fs_read.
    unfold writeTextFile in Hw.
    destruct (create_directories cwd fs (parent_path p)) as [r1 fs1] eqn:Hmk.
    destruct r1 as [[]| |]; try done.
    destruct (name_too_long cwd fs1 p); [done|]. destruct (filename p); [done|].
    destruct (create_directories_only_dirs cwd _ _ _ _ Hmk (absolute cwd p)) as [H|[_ H]];
      rewrite H in Hw.
    + rewrite Hnew in Hw. injection Hw as <-. by rewrite lookup_insert_eq.
    + done.
  - intros q [Hq| ->].
    + by apply (writeTextFile_elsewhere cwd fs p s (Ret ok)).
    + by apply (writeTextFile_refused cwd fs p s (Ret false)).
Qed.

Lemma writeTextFile_writes_one_file_witness :
  ∃ fs', writeTextFile (str "/w") ∅ (str "out/a.txt") (str "hi") = (Ret true, fs')
  ∧ (true = true → ∃ rd, fs' !! absolute (str "/w") (str "out/a.txt")
                         = Some (File rd true (str "hi")))
  ∧ (true = true → (∅ : FS) !! absolute (str "/w") (str "out/a.txt") = None →
     readTextFile (str "/w") fs' (str "out/a.txt") = Ret (Some (str "hi")))
  ∧ (∀ q, q ≠ absolute (str "/w") (str "out/a.txt") ∨ true = false →
          fs' !! q = (∅ : FS) !! q ∨ ((∅ : FS) !! q = None ∧ fs' !! q = Some Dir)).
Proof.
  destruct (writeTextFile (str "/w") ∅ (str "out/a.txt") (str "hi")) as [[[]| |] fs'] eqn:E.
  - exists fs'. split; [done|].
    apply (writeTextFile_writes_one_file (str "/w") ∅ fs' (str "out/a.txt") (str "hi") true E).
  - by vm_compute in E.
  - by vm_compute in E.
  - by vm_compute in E.
Defined.

(** What the file-system calls do with names the platform refuses. *)
Example file_system_limits_example :
  writeTextFile (str "/w") ∅ (str "a.txt") (str "hi") = (Throw filesystem_error, ∅)
  ∧ fs_exists (str "/w") {[ str "/w" := Dir ]} (replicate 256 "a"%char)
    = Throw filesystem_error
  ∧ fs_exists (str "/w") {[ str "/w" := Dir ]} (replicate 255 "a"%char) = Ret false
  ∧ fs_exists (str "/w") {[ str "/w" := Dir ]} (str "nodir/" ++ replicate 256 "a"%char)
    = Ret false
  ∧ fs_read (str "/w") {[ str "/w" := Dir; str "/w/d" := Dir ]} (str "d") = Throw ios_failure
  ∧ (create_directories (str "/w") {[ str "/w" := Dir ]}
       (str "a/" ++ replicate 256 "b"%char)).1 = Throw filesystem_error
  ∧ (create_directories (str "/w") {[ str "/w" := Dir ]}
       (str "a/" ++ replicate 256 "b"%char)).2 !! str "/w/a" = Some Dir.
Proof. repeat split; vm_compute; reflexivity. Qed.

(** ** The outcomes of [Kernel::run] *)

(** X20.  Whenever [run] has started the child process and [output.json] is
    a readable file in the output directory once the process has exited:
    if neither [run.log] nor [run.err] is a directory, [run] returns success
    with the contents of [output.json], unchanged, as the output, and with a
    report made of the value [std::system] returned and the texts captured
    in [run.log] and [run.err]; if one of the two is a directory, on POSIX,
    [std::ios_base::failure] leaves [run]. *)
Theorem run_with_plugin_output (cwd : text) (cfg : Config) (kWindows : bool)
    (system : text → FS → Z * FS) (plugins : list PluginManifest)
    (fuel : nat) (name : text) (bank reg addr : Z)
    (stdin_json_or_path : text) (st st' : KState) (r : res RunResult) (w : bool) (c : text) :
  run cwd cfg kWindows system plugins fuel name bank reg addr stdin_json_or_path st = (r, st') →
  k_calls st' ≠ k_calls st →
  k_fs st' !! absolute cwd (runFile cwd cfg name bank reg addr "output.json")
  = Some (File true w c) →
  ∃ (ec : Z) (cmd : text) (fs0 : FS),
    let logFile := absolute cwd (runFile cwd cfg name bank reg addr "run.log") in
    let errFile := absolute cwd (runFile cwd cfg name bank reg addr "run.err") in
    k_calls st' = k_calls st ++ [cmd]
    ∧ system cmd fs0 = (ec, k_fs st')
    ∧ (k_fs st' !! logFile ≠ Some Dir → k_fs st' !! errFile ≠ Some Dir →
       r = Ret {| run_ok := true; out_json := Some c;
                  out_report := successReport ec (captured (k_fs st') logFile)
                                  (captured (k_fs st') errFile) |})
    ∧ (kWindows = false →
       k_fs st' !! logFile = Some Dir ∨ k_fs st' !! errFile = Some Dir →
       r = Throw ios_failure).
Proof.
  intros Hrun Hcalls Hout.
  destruct (run_inv _ _ _ _ _ _ _ _ _ _ _ _ _ _ Hrun) as [_ [[H _]|H]]; [done|].
  destruct H as (P & raw & ws1 & code & cmd & fs0 & ec & _ & _ & _ & Hc & Hsys & _ & _ & ->).
  exists ec, cmd, fs0. cbv zeta. split; [done|]. split; [done|].
  unfold readBack, readTextFile, fs_read, captured. rewrite Hout.
  destruct (k_fs st' !! absolute cwd (runFile cwd cfg name bank reg addr "run.log"))
    as [[|[] w1 c1]|];
    destruct (k_fs st' !! absolute cwd (runFile cwd cfg name bank reg addr "run.err"))
      as [[|[] w2 c2]|];
    (split; [intros H1 H2; try done; try (by destruct H1); by destruct H2
            |intros _ [H|H]; done]).
Qed.

Lemma run_with_plugin_output_witness :
  ∃ (ec : Z) (cmd : text) (fs0 : FS),
    let out := run (str "/w") defaultConfig false echoProcess [echoPlugin] 1 (str "echo")
                 1 1 1 [] (kernelState fs_plugin) in
    let st' := out.2 in
    let logFile :=
      absolute (str "/w") (runFile (str "/w") defaultConfig (str "echo") 1 1 1 "run.log") in
    let errFile :=
      absolute (str "/w") (runFile (str "/w") defaultConfig (str "echo") 1 1 1 "run.err") in
    k_calls st' = k_calls (kernelState fs_plugin) ++ [cmd]
    ∧ echoProcess cmd fs0 = (ec, k_fs st')
    ∧ (k_fs st' !! logFile ≠ Some Dir → k_fs st' !! errFile ≠ Some Dir →
       out.1 = Ret {| run_ok := true; out_json := Some (str "{}");
                      out_report := successReport ec (captured (k_fs st') logFile)
                                      (captured (k_fs st') errFile) |})
    ∧ (false = false →
       k_fs st' !! logFile = Some Dir ∨ k_fs st' !! errFile = Some Dir →
       out.1 = Throw ios_failure).
Proof.
  apply (run_with_plugin_output (str "/w") defaultConfig false echoProcess [echoPlugin]
           1 (str "echo") 1 1 1 [] (kernelState fs_plugin) _ _ true).
  - apply surjective_pairing.
  - vm_compute. discriminate.
  - vm_compute. reflexivity.
Defined.

(** The run of the example plugin: success, and the report. *)
Example echo_plugin_report_example :
  (run (str "/w") defaultConfig false echoProcess [echoPlugin] 1 (str "echo")
     1 1 1 [] (kernelState fs_plugin)).1
  = Ret {| run_ok := true; out_json := Some (str "{}"); out_report := str "exit=0" ++ [LF] |}.
Proof. vm_compute. reflexivity. Qed.

(** X21.  A call of [run] starts one process at most.  If it starts one it
    returns, or [std::ios_base::failure] leaves it because [output.json],
    [run.log] or [run.err] is a directory when it is read back; it reports
    success only after it has started a process; and the output is set
    exactly when success is reported. *)
Theorem run_starts_one_process_at_most (cwd : text) (cfg : Config) (kWindows : bool)
    (system : text → FS → Z * FS) (plugins : list PluginManifest)
    (fuel : nat) (name : text) (bank reg addr : Z)
    (stdin_json_or_path : text) (st st' : KState) (r : res RunResult) :
  run cwd cfg kWindows system plugins fuel name bank reg addr stdin_json_or_path st = (r, st') →
  (k_calls st' = k_calls st ∨ ∃ cmd, k_calls st' = k_calls st ++ [cmd])
  ∧ (k_calls st' ≠ k_calls st →
     (∃ rr, r = Ret rr)
     ∨ (r = Throw ios_failure
        ∧ ∃ file, (file = "output.json" ∨ file = "run.log" ∨ file = "run.err")%string
                  ∧ k_fs st' !! absolute cwd (runFile cwd cfg name bank reg addr file)
                    = Some Dir))
  ∧ (∀ rr, r = Ret rr →
       (run_ok rr = true → k_calls st' ≠ k_calls st)
       ∧ (run_ok rr = true ↔ is_Some (out_json rr))).
Proof.
  intros Hrun.
  destruct (run_inv _ _ _ _ _ _ _ _ _ _ _ _ _ _ Hrun) as [_ [[Hc Hr]|H]].
  - split; [by left|]. split; [done|]. intros rr Hrr.
    destruct (Hr rr Hrr) as [Hok Hout]. rewrite Hok, Hout. split; [done|].
    split; [done|]. by intros [? ?].
  - destruct H as (P & raw & ws1 & code & cmd & fs0 & ec & _ & _ & _ & Hc & _ & _ & _ & ->).
    split; [right; by exists cmd|].
    unfold readBack, readTextFile, fs_read.
    split.
    + intros _.
      destruct (k_fs st' !! absolute cwd (runFile cwd cfg name bank reg addr "output.json"))
        as [[|[] w0 c0]|] eqn:E0.
      * right. split; [done|]. exists "output.json"%string. split; [by left|done].
      * destruct (k_fs st' !! absolute cwd (runFile cwd cfg name bank reg addr "run.log"))
          as [[|[] w1 c1]|] eqn:E1;
          [right; split; [done|]; exists "run.log"%string; split; [right; by left|done]|..];
          (destruct (k_fs st' !! absolute cwd (runFile cwd cfg name bank reg addr "run.err"))
             as [[|[] w2 c2]|] eqn:E2;
           [right; split; [done|]; exists "run.err"%string; split; [right; by right|done]
           |left; by eexists..]).
      * destruct (k_fs st' !! absolute cwd (runFile cwd cfg name bank reg addr "run.err"))
          as [[|[] w2 c2]|] eqn:E2;
          [right; split; [done|]; exists "run.err"%string; split; [right; by right|done]
          |left; by eexists..].
      * destruct (k_fs st' !! absolute cwd (runFile cwd cfg name bank reg addr "run.err"))
          as [[|[] w2 c2]|] eqn:E2;
          [right; split; [done|]; exists "run.err"%string; split; [right; by right|done]
          |left; by eexists..].
    + intros rr Hrr. split; [intros _; rewrite Hc; apply app_singleton_ne|].
      destruct (k_fs st' !! absolute cwd (runFile cwd cfg name bank reg addr "output.json"))
        as [[|[] w0 c0]|]; try done.
      * destruct (k_fs st' !! absolute cwd (runFile cwd cfg name bank reg addr "run.log"))
          as [[|[] w1 c1]|]; try done;
          (destruct (k_fs st' !! absolute cwd (runFile cwd cfg name bank reg addr "run.err"))
             as [[|[] w2 c2]|]; try done;
           injection Hrr as <-; cbn; split; done).
      * destruct (k_fs st' !! absolute cwd (runFile cwd cfg name bank reg addr "run.err"))
          as [[|[] w2 c2]|]; try done; injection Hrr as <-; cbn; split; try done;
          by intros [? ?].
      * destruct (k_fs st' !! absolute cwd (runFile cwd cfg name bank reg addr "run.err"))
          as [[|[] w2 c2]|]; try done; injection Hrr as <-; cbn; split; try done;
          by intros [? ?].
Qed.

Lemma run_starts_one_process_at_most_witness :
  let st := kernelState fs_plugin in
  let out := run (str "/w") defaultConfig false echoProcess [echoPlugin] 1 (str "echo")
               1 1 1 [] st in
  (k_calls out.2 = k_calls st ∨ ∃ cmd, k_calls out.2 = k_calls st ++ [cmd])
  ∧ (k_calls out.2 ≠ k_calls st →
     (∃ rr, out.1 = Ret rr)
     ∨ (out.1 = Throw ios_failure
        ∧ ∃ file, (file = "output.json" ∨ file = "run.log" ∨ file = "run.err")%string
                  ∧ k_fs out.2 !! absolute (str "/w")
                                   (runFile (str "/w") defaultConfig (str "echo") 1 1 1 file)
                    = Some Dir))
  ∧ (∀ rr, out.1 = Ret rr →
       (run_ok rr = true → k_calls out.2 ≠ k_calls st)
       ∧ (run_ok rr = true ↔ is_Some (out_json rr))).
Proof.
  apply (run_starts_one_process_at_most (str "/w") defaultConfig false echoProcess [echoPlugin]
           1 (str "echo") 1 1 1 [] (kernelState fs_plugin)).
  apply surjective_pairing.
Defined.

(** X22.  [run] never changes or drops a bank of the workspace: after the
    call every bank id either has the bank and file name it had, or had none
    and now has the bank parsed from its canonical file.  This holds however
    the call ends. *)
Theorem run_keeps_loaded_banks (cwd : text) (cfg : Config) (kWindows : bool)
    (system : text → FS → Z * FS) (plugins : list PluginManifest)
    (fuel : nat) (name : text) (bank reg addr : Z)
    (stdin_json_or_path : text) (st : KState) :
  ws_grows cwd cfg (k_fs st) (k_ws st)
    (k_ws (run cwd cfg kWindows system plugins fuel name bank reg addr stdin_json_or_path st).2).
Proof.
  destruct (run cwd cfg kWindows system plugins fuel name bank reg addr stdin_json_or_path st)
    as [r st'] eqn:Hrun.
  by destruct (run_inv _ _ _ _ _ _ _ _ _ _ _ _ _ _ Hrun) as [H _].
Qed.

(** X23.  The child process is started only once the run is prepared: the
    cell has a value, its resolution has returned, and in the file system
    handed to the process [code.txt] holds that resolved text and
    [input.json] is written, both in the output directory of the run.  The
    workspace after the call is the one the resolution left. *)
Theorem run_prepares_files_first (cwd : text) (cfg : Config) (kWindows : bool)
    (system : text → FS → Z * FS) (plugins : list PluginManifest)
    (fuel : nat) (name : text) (bank reg addr : Z)
    (stdin_json_or_path : text) (st st' : KState) (r : res RunResult) :
  run cwd cfg kWindows system plugins fuel name bank reg addr stdin_json_or_path st = (r, st') →
  k_calls st' ≠ k_calls st →
  ∃ raw ws1 code cmd fs0 ec,
    getValue cwd cfg (k_fs st) bank reg addr (k_ws st) = (Ret (Some raw), ws1)
    ∧ resolve cwd cfg (k_fs st) fuel raw bank ∅ ws1 = (Ret code, k_ws st')
    ∧ k_calls st' = k_calls st ++ [cmd]
    ∧ system cmd fs0 = (ec, k_fs st')
    ∧ (∃ rd, fs0 !! absolute cwd (runFile cwd cfg name bank reg addr "code.txt")
             = Some (File rd true code))
    ∧ (∃ rd c, fs0 !! absolute cwd (runFile cwd cfg name bank reg addr "input.json")
               = Some (File rd true c)).
Proof.
  intros Hrun Hcalls.
  destruct (run_inv _ _ _ _ _ _ _ _ _ _ _ _ _ _ Hrun) as [_ [[H _]|H]]; [done|].
  destruct H as (P & raw & ws1 & code & cmd & fs0 & ec & _ & H1 & H2 & H3 & H4 & H5 & H6 & _).
  by exists raw, ws1, code, cmd, fs0, ec.
Qed.

Lemma run_prepares_files_first_witness :
  let st := kernelState fs_plugin in
  let out := run (str "/w") defaultConfig false echoProcess [echoPlugin] 1 (str "echo")
               1 1 1 [] st in
  ∃ raw ws1 code cmd fs0 ec,
    getValue (str "/w") defaultConfig (k_fs st) 1 1 1 (k_ws st) = (Ret (Some raw), ws1)
    ∧ resolve (str "/w") defaultConfig (k_fs st) 1 raw 1 ∅ ws1 = (Ret code, k_ws out.2)
    ∧ k_calls out.2 = k_calls st ++ [cmd]
    ∧ echoProcess cmd fs0 = (ec, k_fs out.2)
    ∧ (∃ rd, fs0 !! absolute (str "/w")
                      (runFile (str "/w") defaultConfig (str "echo") 1 1 1 "code.txt")
             = Some (File rd true code))
    ∧ (∃ rd c, fs0 !! absolute (str "/w")
                        (runFile (str "/w") defaultConfig (str "echo") 1 1 1 "input.json")
               = Some (File rd true c)).
Proof.
  intros st out.
  apply (run_prepares_files_first (str "/w") defaultConfig false echoProcess [echoPlugin]
           1 (str "echo") 1 1 1 [] st out.2 out.1).
  - apply surjective_pairing.
  - vm_compute. discriminate.
Defined.

(** X24.  [run] for a name no discovered plugin has fails with
    [Plugin not found: <name>] and touches nothing: no bank is loaded, no
    directory or file is created, no process is started. *)
Theorem run_unknown_plugin (cwd : text) (cfg : Config) (kWindows : bool)
    (system : text → FS → Z * FS) (plugins : list PluginManifest)
    (fuel : nat) (name : text) (bank reg addr : Z)
    (stdin_json_or_path : text) (st : KState) :
  (∀ P, P ∈ plugins → pm_name P ≠ name) →
  run cwd cfg kWindows system plugins fuel name bank reg addr stdin_json_or_path st
  = (Ret (failure (str "Plugin not found: " ++ name)), st).
Proof.
  intros Hnone. unfold run.
  assert (Hfind : find_plugin plugins name = None).
  { unfold find_plugin.
    destruct (list_find (λ p, pm_name p = name) plugins) as [[i P]|] eqn:E; [|done].
    apply list_find_Some in E as (Hi & Hp & _).
    exfalso. apply (Hnone P); [|done]. by eapply list_elem_of_lookup_2. }
  by rewrite Hfind.
Qed.

Lemma run_unknown_plugin_witness :
  run (str "/w") defaultConfig false echoProcess [echoPlugin] 1 (str "python")
    1 1 1 [] (kernelState fs_plugin)
  = (Ret (failure (str "Plugin not found: " ++ str "python")), kernelState fs_plugin).
Proof.
  apply run_unknown_plugin. intros P ->%list_elem_of_singleton. discriminate.
Defined.

(** X25.  [run] on a cell that has no value, once the bank has been looked
    for, fails with [No value at reg <reg> addr <addr>] -- the two numbers
    in decimal, whatever the configured base -- and creates no directory or
    file and starts no process; the workspace is the one the lookup left. *)
Theorem run_cell_without_value (cwd : text) (cfg : Config) (kWindows : bool)
    (system : text → FS → Z * FS) (plugins : list PluginManifest)
    (fuel : nat) (name : text) (bank reg addr : Z)
    (stdin_json_or_path : text) (st : KState) (P : PluginManifest) (ws1 : Workspace) :
  find_plugin plugins name = Some P →
  getValue cwd cfg (k_fs st) bank reg addr (k_ws st) = (Ret None, ws1) →
  run cwd cfg kWindows system plugins fuel name bank reg addr stdin_json_or_path st
  = (Ret (failure (str "No value at reg " ++ to_string reg ++ str " addr " ++ to_string addr)),
     {| k_ws := ws1; k_fs := k_fs st; k_calls := k_calls st |}).
Proof.
  intros Hfind Hget. unfold run. rewrite Hfind.
  by rewrite getValue_after_ensure, Hget.
Qed.

Lemma run_cell_without_value_witness :
  run (str "/w") (Build_Config "x" 16 5 2 4) false echoProcess [echoPlugin] 1 (str "echo")
    1 10 26 [] (kernelState fs_plugin)
  = (Ret (failure (str "No value at reg " ++ to_string 10 ++ str " addr " ++ to_string 26)),
     {| k_ws := oneCellWorkspace (str "hello"); k_fs := fs_plugin; k_calls := [] |}).
Proof.
  apply (run_cell_without_value (str "/w") (Build_Config "x" 16 5 2 4) false echoProcess
           [echoPlugin] 1 (str "echo") 1 10 26 [] (kernelState fs_plugin) echoPlugin).
  - reflexivity.
  - reflexivity.
Defined.

(** ** [jsonEscape] *)

Lemma hexDigitUpper_code d :
  0 ≤ d < 16 → code (hexDigitUpper d) = if d <? 10 then 48 + d else 55 + d.
Proof.
  intros Hd. unfold hexDigitUpper. change (code "0") with 48. change (code "A") with 65.
  destruct (d <? 10) eqn:E; rewrite code_chr; lia.
Qed.

Lemma hexDigitUpper_inj d e :
  0 ≤ d < 16 → 0 ≤ e < 16 → hexDigitUpper d = hexDigitUpper e → d = e.
Proof.
  intros Hd He H. apply (f_equal code) in H. rewrite !hexDigitUpper_code in H by done.
  destruct (d <? 10) eqn:E1, (e <? 10) eqn:E2; lia.
Qed.

Lemma code_range c : 0 ≤ code c < 256.
Proof.
  unfold code. pose proof (N_ascii_bounded c) as H. lia.
Qed.

Lemma jsonEscapeChar_safe c : Forall (λ x, 32 ≤ code x) (jsonEscapeChar c).
Proof.
  assert (H : forallb (λ x, 32 <=? code x) (jsonEscapeChar c) = true).
  { destruct c as [[] [] [] [] [] [] [] []]; vm_compute; reflexivity. }
  apply Forall_forall. intros x Hx. apply list_elem_of_In in Hx.
  apply (proj1 (forallb_forall _ _) H) in Hx. by apply Z.leb_le.
Qed.

Lemma jsonEscapeChar_nonempty c : jsonEscapeChar c ≠ [].
Proof. destruct c as [[] [] [] [] [] [] [] []]; by vm_compute. Qed.

Ltac split_ifs H :=
  repeat match type of H with
         | context [if ?b then _ else _] => let E := fresh "E" in destruct b eqn:E
         end.

Lemma jsonEscapeChar_inj c1 c2 t1 t2 :
  jsonEscapeChar c1 ++ t1 = jsonEscapeChar c2 ++ t2 → c1 = c2 ∧ t1 = t2.
Proof.
  intros H. unfold jsonEscapeChar in H. cbv zeta in H.
  pose proof (code_range c1) as R1. pose proof (code_range c2) as R2.
  split_ifs H; cbn in H; simplify_eq;
    repeat match goal with
           | E : (_ =? _) = true |- _ => apply Z.eqb_eq in E
           | E : (_ =? _) = false |- _ => apply Z.eqb_neq in E
           | E : (_ <? _) = true |- _ => apply Z.ltb_lt in E
           | E : (_ <? _) = false |- _ => apply Z.ltb_ge in E
           end;
    try (split; [apply code_inj; congruence|done]);
    try (exfalso; match goal with E : code ?c ≠ _ |- _ => by vm_compute in E end);
    try done.
  assert (B1 : 0 ≤ code c1 / 16 < 16)
    by (split; [apply Z.div_pos|apply Z.div_lt_upper_bound]; lia).
  assert (B2 : 0 ≤ code c2 / 16 < 16)
    by (split; [apply Z.div_pos|apply Z.div_lt_upper_bound]; lia).
  pose proof (Z.mod_pos_bound (code c1) 16 ltac:(lia)) as M1.
  pose proof (Z.mod_pos_bound (code c2) 16 ltac:(lia)) as M2.
  match goal with
  | Ha : hexDigitUpper (code c1 / 16) = _, Hb : hexDigitUpper (code c1 mod 16) = _ |- _ =>
      apply hexDigitUpper_inj in Ha; [|done..]; apply hexDigitUpper_inj in Hb; [|done..]
  end.
  split; [|done]. apply code_inj.
  pose proof (Z.div_mod (code c1) 16 ltac:(lia)). pose proof (Z.div_mod (code c2) 16 ltac:(lia)).
  lia.
Qed.

Lemma jsonEscape_cons c s : jsonEscape (c :: s) = jsonEscapeChar c ++ jsonEscape s.
Proof. reflexivity. Qed.

Lemma jsonEscape_inj s t : jsonEscape s = jsonEscape t → s = t.
Proof.
  revert t. induction s as [|c s IH]; intros [|d t]; rewrite ?jsonEscape_cons.
  - done.
  - intros H. symmetry in H. apply app_eq_nil in H as [H _].
    by apply jsonEscapeChar_nonempty in H.
  - intros H. apply app_eq_nil in H as [H _]. by apply jsonEscapeChar_nonempty in H.
  - intros H. apply jsonEscapeChar_inj in H as [-> H]. f_equal. by apply IH.
Qed.

Lemma json_string_body_escape c t :
  json_string_body (jsonEscapeChar c ++ t) = json_string_body t.
Proof. destruct c as [[] [] [] [] [] [] [] []]; reflexivity. Qed.

(** X26.  What [jsonEscape] returns can stand between double quotes and
    loses nothing: it is made of the characters a JSON string may hold
    between its quotes -- no control character, no double quote and no
    backslash but in the escape sequences of JSON --, two different texts
    never have the same escaped form, and a text of characters from 0x20 on
    without backslash and double quote is returned as it is. *)
Theorem jsonEscape_safe_and_lossless :
  (∀ s, json_string_body (jsonEscape s) = true)
  ∧ (∀ s, Forall (λ x, 32 ≤ code x) (jsonEscape s))
  ∧ (∀ s t, jsonEscape s = jsonEscape t → s = t)
  ∧ (∀ s, Forall (λ c, 32 ≤ code c ∧ code c ≠ 92 ∧ code c ≠ 34) s → jsonEscape s = s).
Proof.
  split; [|split; [|split]].
  - intros s. induction s as [|c s IH]; [done|].
    by rewrite jsonEscape_cons, json_string_body_escape.
  - intros s. unfold jsonEscape. induction s as [|c s IH]; [constructor|].
    cbn [fmap list_fmap concat]. apply Forall_app. split; [apply jsonEscapeChar_safe|done].
  - apply jsonEscape_inj.
  - intros s Hs. induction Hs as [|c s (H1 & H2 & H3) _ IH]; [done|].
    rewrite jsonEscape_cons, IH. unfold jsonEscapeChar. cbv zeta.
    repeat match goal with
           | |- context [?a =? ?b] =>
               replace (a =? b) with false by (symmetry; apply Z.eqb_neq; lia)
           end.
    by replace (code c <? 32) with false by (symmetry; apply Z.ltb_ge; lia).
Qed.

(** The escaped form of a text with a quote, a backslash and a newline. *)
Example jsonEscape_example :
  jsonEscape (str "a" ++ DQ :: str "b\c" ++ LF :: str "d")
  = str "a\" ++ DQ :: str "b\\c\nd".
Proof. vm_compute. reflexivity. Qed.

(** ** Decimal numbers *)

Lemma uint_digits d :
  Forall (λ c, isdigit c = true) (str (DecimalString.NilEmpty.string_of_uint d)).
Proof. induction d; cbn; constructor; done. Qed.

Lemma uint_fold_acc d acc :
  fold_left (λ v c, v * 10 + digitValue c) (str (DecimalString.NilEmpty.string_of_uint d))
    (Z.pos acc)
  = Z.pos (Pos.of_uint_acc d acc).
Proof.
  revert acc. induction d; intros acc; cbn [DecimalString.NilEmpty.string_of_uint str
    list_ascii_of_string fold_left Pos.of_uint_acc]; [done|..];
    rewrite <- IHd; f_equal; vm_compute digitValue; lia.
Qed.

Lemma uint_fold d :
  fold_left (λ v c, v * 10 + digitValue c) (str (DecimalString.NilEmpty.string_of_uint d)) 0
  = Z.of_N (Pos.of_uint d).
Proof.
  induction d; cbn [DecimalString.NilEmpty.string_of_uint str list_ascii_of_string fold_left
    Pos.of_uint]; [done|exact IHd|..]; apply (uint_fold_acc d).
Qed.

Lemma to_string_pos p :
  to_string (Z.pos p) = str (DecimalString.NilEmpty.string_of_uint (Pos.to_uint p)).
Proof.
  unfold to_string. cbn [Z.to_int DecimalString.NilZero.string_of_int].
  unfold DecimalString.NilZero.string_of_uint.
  pose proof (DecimalPos.Unsigned.to_uint_nonnil p) as H.
  by destruct (Pos.to_uint p).
Qed.

Lemma to_string_neg p : to_string (Z.neg p) = "-"%char :: to_string (Z.pos p).
Proof.
  rewrite to_string_pos. unfold to_string.
  cbn [Z.to_int DecimalString.NilZero.string_of_int].
  unfold DecimalString.NilZero.string_of_uint.
  pose proof (DecimalPos.Unsigned.to_uint_nonnil p) as H.
  by destruct (Pos.to_uint p).
Qed.

Lemma to_string_nonneg z :
  0 ≤ z →
  Forall (λ c, isdigit c = true) (to_string z) ∧ to_string z ≠ []
  ∧ fold_left (λ v c, v * 10 + digitValue c) (to_string z) 0 = z.
Proof.
  intros Hz. destruct z as [|p|p]; [by repeat constructor| |lia].
  rewrite to_string_pos.
  assert (Hf : fold_left (λ v c, v * 10 + digitValue c)
                 (str (DecimalString.NilEmpty.string_of_uint (Pos.to_uint p))) 0 = Z.pos p).
  { by rewrite uint_fold, DecimalPos.Unsigned.of_to. }
  split; [apply uint_digits|]. split; [|done].
  intros He. by rewrite He in Hf.
Qed.

Lemma isdigit_not_space c : isdigit c = true → isspace c = false.
Proof.
  unfold isdigit, isspace. cbv zeta. intros H. apply andb_true_iff in H as [H1 H2].
  apply Z.leb_le in H1, H2. apply orb_false_iff. split.
  - apply andb_false_iff. right. apply Z.leb_gt. lia.
  - apply Z.eqb_neq. lia.
Qed.

Lemma isdigit_code c : isdigit c = true → 48 ≤ code c ≤ 57.
Proof.
  unfold isdigit. cbv zeta. intros H. apply andb_true_iff in H as [H1 H2].
  apply Z.leb_le in H1, H2. lia.
Qed.

Lemma isdigit_neq c d : isdigit c = true → code d < 48 ∨ 57 < code d → eqc c d = false.
Proof.
  intros Hc Hd. apply eqc_false. intros ->. apply isdigit_code in Hc. lia.
Qed.

(** [std::stoi] reads back what [std::to_string] writes. *)
Lemma stoi_to_string z : INT_MIN ≤ z ≤ INT_MAX → stoi (to_string z) = Some z.
Proof.
  intros Hz.
  assert (Hpos : ∀ v, 0 ≤ v → ∃ c ds, to_string v = c :: ds ∧ isdigit c = true
                   ∧ takewhile isdigit (c :: ds) = c :: ds
                   ∧ fold_left (λ v c, v * 10 + digitValue c) (c :: ds) 0 = v).
  { intros v Hv. destruct (to_string_nonneg v Hv) as (Hd & Hne & Hf).
    destruct (to_string v) as [|c ds] eqn:E; [done|]. exists c, ds.
    split; [done|]. split; [by apply Forall_cons in Hd as [? _]|].
    split; [by apply takewhile_all|done]. }
  destruct (Z_lt_le_dec z 0) as [Hneg|Hnn].
  - destruct z as [|p|p]; try lia. rewrite to_string_neg.
    destruct (Hpos (Z.pos p) ltac:(lia)) as (c & ds & -> & Hc & Htw & Hf).
    unfold stoi. cbn [dropwhile]. change (isspace "-") with false. cbv iota.
    rewrite eqc_refl. rewrite Htw, Hf.
    replace ((INT_MIN <=? - Z.pos p) && (- Z.pos p <=? INT_MAX)) with true; [done|].
    symmetry. apply andb_true_iff. split; apply Z.leb_le; lia.
  - destruct (Hpos z Hnn) as (c & ds & -> & Hc & Htw & Hf).
    unfold stoi. cbn [dropwhile]. rewrite (isdigit_not_space c Hc).
    rewrite (isdigit_neq c "-") by (try done; left; by vm_compute).
    rewrite (isdigit_neq c "+") by (try done; left; by vm_compute).
    rewrite Htw, Hf.
    replace ((INT_MIN <=? z) && (z <=? INT_MAX)) with true; [done|].
    symmetry. apply andb_true_iff. split; apply Z.leb_le; lia.
Qed.

(** ** Searching for a text *)

(** Brings both sides of an equation between concatenations to the same
    right-nested form. *)
Ltac norm_app := repeat first [rewrite <- app_assoc | progress cbn [app]].

Lemma strip_prefix_app pat rest : strip_prefix pat (pat ++ rest) = Some rest.
Proof. induction pat as [|c pat IH]; [done|]. cbn. by rewrite eqc_refl. Qed.

Lemma strip_prefix_Some pat s rest : strip_prefix pat s = Some rest → s = pat ++ rest.
Proof.
  revert s. induction pat as [|c pat IH]; intros s; [by intros [= ->]|].
  destruct s as [|d s]; [done|]. cbn. destruct (eqc c d) eqn:E; [|done].
  apply eqc_true in E as ->. intros H. by rewrite (IH _ H).
Qed.

Lemma find_sub_unfold pat s :
  find_sub pat s = match strip_prefix pat s with
                   | Some _ => Some O
                   | None => match s with [] => None | _ :: s' => S <$> find_sub pat s' end
                   end.
Proof. by destruct s. Qed.

Lemma find_sub_here pat rest : find_sub pat (pat ++ rest) = Some O.
Proof. by rewrite find_sub_unfold, strip_prefix_app. Qed.

(** The position [find_sub] returns is that of an occurrence, and no
    occurrence starts before it. *)
Lemma find_sub_Some pat s n :
  find_sub pat s = Some n → ∃ a b, s = a ++ pat ++ b ∧ length a = n.
Proof.
  revert n. induction s as [|c s IH]; intros n; rewrite find_sub_unfold.
  - destruct (strip_prefix pat []) as [rest|] eqn:E; [|done].
    intros [= <-]. apply strip_prefix_Some in E. by exists [], rest.
  - destruct (strip_prefix pat (c :: s)) as [rest|] eqn:E.
    + intros [= <-]. apply strip_prefix_Some in E. by exists [], rest.
    + destruct (find_sub pat s) as [m|]; [|done]. intros [= <-].
      destruct (IH m eq_refl) as (a & b & -> & <-). by exists (c :: a), b.
Qed.

Lemma find_sub_first pat a b :
  ∃ n, find_sub pat (a ++ pat ++ b) = Some n ∧ (n ≤ length a)%nat.
Proof.
  induction a as [|c a (n & IH & Hn)].
  - exists O. split; [apply (find_sub_here pat b)|done].
  - rewrite find_sub_unfold. cbn [app]. destruct (strip_prefix pat _).
    + exists O. split; [done|]. simpl. lia.
    + exists (S n). rewrite IH. split; [done|]. simpl. lia.
Qed.

Lemma find_sub_at pat pre rest :
  (∀ a b, pre ++ pat ++ rest = a ++ pat ++ b → (length pre ≤ length a)%nat) →
  find_sub pat (pre ++ pat ++ rest) = Some (length pre).
Proof.
  intros Hfirst. destruct (find_sub_first pat pre rest) as (n & Hn & Hle).
  rewrite Hn. f_equal. destruct (find_sub_Some _ _ _ Hn) as (a & b & Heq & <-).
  specialize (Hfirst a b Heq). lia.
Qed.

Lemma find_sub_None pat s : find_sub pat s = None → ¬ occurs_in pat s.
Proof.
  intros Hn (a & b & ->). destruct (find_sub_first pat a b) as (n & H & _). congruence.
Qed.

Lemma find_from_at c pre rest :
  find_from c (length pre) (pre ++ rest) = (λ i, (length pre + i)%nat) <$> find c rest.
Proof. unfold find_from. by rewrite drop_app_length. Qed.

Lemma find_first_of_at cs pre rest :
  find_first_of cs (length pre) (pre ++ rest)
  = (λ i, (length pre + i)%nat) <$> find_if (λ c, contains c cs) rest.
Proof. unfold find_first_of. by rewrite drop_app_length. Qed.

Lemma find_if_app_stop p a x s :
  Forall (λ c, p c = false) a → p x = true → find_if p (a ++ x :: s) = Some (length a).
Proof.
  intros Ha Hx. induction Ha as [|c a Hc _ IH]; cbn.
  - by rewrite Hx.
  - by rewrite Hc, IH.
Qed.

Lemma substr_at pre mid rest : substr (pre ++ mid ++ rest) (length pre) (length mid) = mid.
Proof. unfold substr. by rewrite drop_app_length, take_app_length. Qed.

(** The four searches of [jsonGetStr] on a text in which the first
    occurrence of the quoted key is followed by a colon and a quoted value. *)
Lemma quotedValue_at j key def pre mid sp v post :
  j = pre ++ quoted key ++ mid ++ ":"%char :: sp ++ quoted v ++ post →
  find_sub (quoted key) j = Some (length pre) →
  ":"%char ∉ key → ":"%char ∉ mid → DQ ∉ sp → DQ ∉ v →
  quotedValue j key def = v.
Proof.
  intros -> Hfind Hkey Hmid Hsp Hv. unfold quotedValue. rewrite Hfind.
  rewrite find_from_at.
  assert (Hshape1 : quoted key ++ mid ++ ":"%char :: sp ++ quoted v ++ post
                    = (quoted key ++ mid) ++ ":"%char :: sp ++ quoted v ++ post)
    by (by rewrite <- app_assoc).
  rewrite Hshape1, find_app_stop.
  2:{ unfold quoted. rewrite not_elem_of_app, not_elem_of_cons, not_elem_of_app,
        list_elem_of_singleton. by repeat split. }
  cbn [fmap option_fmap option_map].
  set (p1 := (length pre + length (quoted key ++ mid))%nat).
  assert (Hj1 : pre ++ (quoted key ++ mid) ++ ":"%char :: sp ++ quoted v ++ post
                = (pre ++ quoted key ++ mid) ++ (":"%char :: sp) ++ DQ :: v ++ DQ :: post).
  { unfold quoted. by norm_app. }
  rewrite Hj1.
  assert (Hp1 : p1 = length (pre ++ quoted key ++ mid)).
  { unfold p1. by rewrite !length_app. }
  rewrite Hp1, find_from_at, find_app_stop.
  2:{ rewrite not_elem_of_cons. split; [done|done]. }
  cbn [fmap option_fmap option_map].
  set (p2 := (length (pre ++ quoted key ++ mid) + length (":"%char :: sp))%nat).
  assert (Hj2 : (pre ++ quoted key ++ mid) ++ (":"%char :: sp) ++ DQ :: v ++ DQ :: post
                = ((pre ++ quoted key ++ mid) ++ (":"%char :: sp) ++ [DQ]) ++ v ++ DQ :: post).
  { by norm_app. }
  rewrite Hj2.
  assert (Hp2 : S p2 = length ((pre ++ quoted key ++ mid) ++ (":"%char :: sp) ++ [DQ])).
  { unfold p2. rewrite !length_app. simpl. lia. }
  rewrite Hp2, find_from_at, find_app_stop by done.
  cbn [fmap option_fmap option_map].
  rewrite Nat.add_comm, Nat.add_sub.
  apply substr_at.
Qed.

(** X27.  [jsonGetStr] returns the text between the double quotes that
    follow the key: when the first occurrence of the quoted key in the text
    is followed, after text without a colon, by a colon and, after text
    without a double quote, by a quoted value, that value is returned
    (a value with a double quote in it is cut at that quote).  A text in
    which the quoted key does not occur gives the empty text. *)
Theorem jsonGetStr_reads_quoted_value (key pre mid sp v post : text) :
  (∀ a b, pre ++ quoted key ++ (mid ++ ":"%char :: sp ++ quoted v ++ post)
          = a ++ quoted key ++ b → (length pre ≤ length a)%nat) →
  ":"%char ∉ key → ":"%char ∉ mid → DQ ∉ sp → DQ ∉ v →
  jsonGetStr (pre ++ quoted key ++ mid ++ ":"%char :: sp ++ quoted v ++ post) key = v
  ∧ ∀ j, ¬ occurs_in (quoted key) j → jsonGetStr j key = [].
Proof.
  intros Hfirst Hkey Hmid Hsp Hv. split.
  - unfold jsonGetStr. eapply quotedValue_at; try done.
    by apply find_sub_at.
  - intros j Hno. unfold jsonGetStr, quotedValue.
    destruct (find_sub (quoted key) j) as [n|] eqn:E; [|done].
    exfalso. apply Hno. destruct (find_sub_Some _ _ _ E) as (a & b & -> & _).
    by exists a, b.
Qed.

Lemma jsonGetStr_reads_quoted_value_witness :
  jsonGetStr (str "{ " ++ quoted (str "name") ++ [] ++ ":"%char :: str " "
              ++ quoted (str "python") ++ str " }") (str "name") = str "python"
  ∧ ∀ j, ¬ occurs_in (quoted (str "name")) j → jsonGetStr j (str "name") = [].
Proof.
  apply (jsonGetStr_reads_quoted_value (str "name") (str "{ ") [] (str " ") (str "python")
           (str " }")).
  - intros a b Heq.
    destruct (find_sub_first (quoted (str "name")) a b) as (n & Hn & Hle).
    rewrite <- Heq in Hn. vm_compute in Hn. injection Hn as <-. exact Hle.
  - apply (bool_decide_unpack _). vm_compute. reflexivity.
  - apply not_elem_of_nil.
  - apply (bool_decide_unpack _). vm_compute. reflexivity.
  - apply (bool_decide_unpack _). vm_compute. reflexivity.
Defined.

(** ** The configuration file *)

Lemma find_sub_skip x pat s rest :
  x ∉ s →
  find_sub (x :: pat) (s ++ rest) = (λ i, (length s + i)%nat) <$> find_sub (x :: pat) rest.
Proof.
  intros Hx. induction s as [|c s IH].
  - cbn [app length]. by destruct (find_sub (x :: pat) rest).
  - apply not_elem_of_cons in Hx as [Hne Hx]. rewrite find_sub_unfold. cbn [app strip_prefix].
    replace (eqc x c) with false by (symmetry; apply eqc_false; congruence).
    rewrite IH by done. by destruct (find_sub (x :: pat) rest).
Qed.

Lemma quoted_mismatch K X rest :
  DQ ∉ K → DQ ∉ X → X ≠ K → strip_prefix (quoted K) (DQ :: X ++ DQ :: rest) = None.
Proof.
  intros HK HX Hne. unfold quoted. cbn [strip_prefix]. rewrite eqc_refl.
  revert X HX Hne. induction K as [|k K IH]; intros X HX Hne.
  - destruct X as [|c X]; [done|]. apply not_elem_of_cons in HX as [Hc _].
    cbn. by replace (eqc DQ c) with false by (symmetry; apply eqc_false; congruence).
  - apply not_elem_of_cons in HK as [Hk HK]. destruct X as [|c X]; cbn.
    + by replace (eqc k DQ) with false by (symmetry; apply eqc_false; congruence).
    + destruct (eqc k c) eqn:E; [|done]. apply eqc_true in E as ->.
      apply not_elem_of_cons in HX as [_ HX]. apply IH; [done..|congruence].
Qed.

Lemma joinDQ_cons s t segs : joinDQ (s :: t :: segs) = s ++ DQ :: joinDQ (t :: segs).
Proof. reflexivity. Qed.

Lemma joinDQ_split before K s1 after s0 :
  joinDQ (s0 :: before ++ K :: s1 :: after)
  = joinDQ (s0 :: before) ++ quoted K ++ joinDQ (s1 :: after).
Proof.
  revert s0. induction before as [|b bs IH]; intros s0.
  - cbn [app]. rewrite !joinDQ_cons. unfold quoted. by norm_app.
  - cbn [app]. rewrite (joinDQ_cons s0 b), IH, (joinDQ_cons s0 b). by norm_app.
Qed.

Lemma joinDQ_head b bs rest :
  ∃ tl, joinDQ (b :: bs) ++ DQ :: rest = b ++ DQ :: tl.
Proof.
  destruct bs as [|b' bs].
  - by exists rest.
  - rewrite joinDQ_cons. exists (joinDQ (b' :: bs) ++ DQ :: rest). by norm_app.
Qed.

(** The first occurrence of a quoted key in a text made of segments. *)
Lemma find_sub_joinDQ K s0 before rest :
  DQ ∉ K → DQ ∉ s0 → Forall (λ s, (DQ ∉ s) ∧ s ≠ K) before →
  find_sub (quoted K) (joinDQ (s0 :: before) ++ quoted K ++ rest)
  = Some (length (joinDQ (s0 :: before))).
Proof.
  intros HK. revert s0. induction before as [|b bs IH]; intros s0 Hs0 Hb.
  - cbn [joinDQ]. unfold quoted at 1. rewrite find_sub_skip by done.
    fold (quoted K). rewrite find_sub_here. cbn. f_equal. lia.
  - apply Forall_cons in Hb as [[Hb Hne] Hbs].
    rewrite joinDQ_cons. unfold quoted at 1. rewrite <- app_assoc, find_sub_skip by done.
    fold (quoted K). cbn [app]. rewrite find_sub_unfold.
    destruct (joinDQ_head b bs (K ++ DQ :: rest)) as [tl Htl].
    assert (Hshape : joinDQ (b :: bs) ++ quoted K ++ rest = b ++ DQ :: tl).
    { rewrite <- Htl. unfold quoted. by norm_app. }
    rewrite Hshape, quoted_mismatch by done. rewrite <- Hshape, IH by done.
    cbn. rewrite length_app. cbn. f_equal; lia.
Qed.

Lemma nospace_solid s : s ≠ [] → Forall (λ c, isspace c = false) s → solid s.
Proof. intros Hne Hs. by apply solid_nospace. Qed.

(** The searches of [getInt] on a text in which the first occurrence of the
    quoted key is followed by a colon, a space and a number. *)
Lemma getInt_at j key def pre num t more :
  j = pre ++ quoted key ++ str ": " ++ num ++ t :: more →
  find_sub (quoted key) j = Some (length pre) →
  ":"%char ∉ key →
  num ≠ [] →
  Forall (λ c, isspace c = false ∧ contains c (str "," ++ LF :: str "}") = false) num →
  contains t (str "," ++ LF :: str "}") = true →
  getInt j key def = default def (stoi num).
Proof.
  intros -> Hfind Hkey Hne Hnum Ht. unfold getInt. rewrite Hfind.
  rewrite find_from_at.
  assert (Hshape1 : quoted key ++ str ": " ++ num ++ t :: more
                    = quoted key ++ ":"%char :: " "%char :: num ++ t :: more) by done.
  rewrite Hshape1, find_app_stop.
  2:{ unfold quoted. rewrite not_elem_of_cons, not_elem_of_app, list_elem_of_singleton.
      by repeat split. }
  cbn [fmap option_fmap option_map].
  assert (Hj : pre ++ quoted key ++ ":"%char :: " "%char :: num ++ t :: more
               = (pre ++ quoted key ++ [":"%char]) ++ (" "%char :: num) ++ t :: more).
  { by norm_app. }
  assert (Hp : S (length pre + length (quoted key))
               = length (pre ++ quoted key ++ [":"%char])).
  { rewrite !length_app. simpl. lia. }
  rewrite Hj, Hp, find_first_of_at.
  rewrite find_if_app_stop; [| |done].
  2:{ constructor; [done|]. eapply Forall_impl; [exact Hnum|]. by intros c [_ ?]. }
  cbn [fmap option_fmap option_map]. unfold substr_until.
  rewrite Nat.add_comm, Nat.add_sub, substr_at.
  replace (" "%char :: num) with ([" "%char] ++ num ++ []) by (by rewrite app_nil_r).
  rewrite trim_solid; [done| |done|].
  - by repeat constructor.
  - apply nospace_solid; [done|]. eapply Forall_impl; [exact Hnum|]. by intros c [? _].
Qed.

Lemma toJSON_segments c : toJSON c = joinDQ (configSegments c).
Proof.
  unfold toJSON, configSegments, quoted.
  destruct (decide (cfg_prefix c = DQ)) as [->|Hne]; cbn [joinDQ app]; by norm_app.
Qed.

Lemma to_string_chars z :
  to_string z ≠ []
  ∧ Forall (λ c, isspace c = false ∧ contains c (str "," ++ LF :: str "}") = false) (to_string z)
  ∧ DQ ∉ to_string z.
Proof.
  assert (Hd : ∀ c, isdigit c = true →
            (isspace c = false ∧ contains c (str "," ++ LF :: str "}") = false) ∧ c ≠ DQ).
  { intros c Hc. split; [split|].
    - by apply isdigit_not_space.
    - unfold contains. cbn [existsb str list_ascii_of_string app].
      rewrite (isdigit_neq c ","), (isdigit_neq c LF), (isdigit_neq c "}"); try done.
      + right. by vm_compute.
      + left. by vm_compute.
      + left. by vm_compute.
    - intros ->. by vm_compute in Hc. }
  assert (Hpos : ∀ v, 0 ≤ v → to_string v ≠ []
            ∧ Forall (λ c, isspace c = false ∧ contains c (str "," ++ LF :: str "}") = false)
                (to_string v)
            ∧ DQ ∉ to_string v).
  { intros v Hv. destruct (to_string_nonneg v Hv) as (Hdig & Hne & _).
    split; [done|]. split.
    - eapply Forall_impl; [exact Hdig|]. intros c Hc. by apply Hd.
    - intros Hin. apply (proj1 (Forall_forall _ _) Hdig) in Hin. by vm_compute in Hin. }
  destruct z as [|p|p]; [by apply Hpos|by apply Hpos|].
  rewrite to_string_neg. destruct (Hpos (Z.pos p) ltac:(lia)) as (H1 & H2 & H3).
  split; [done|]. split.
  - constructor; [by vm_compute|done].
  - rewrite not_elem_of_cons. split; [by vm_compute|done].
Qed.

Ltac no_quote :=
  first
    [ by (apply (bool_decide_unpack _); vm_compute)
    | assumption
    | apply not_elem_of_nil
    | apply to_string_chars
    | (rewrite not_elem_of_app; split; no_quote)
    | (rewrite not_elem_of_cons; split; [congruence|no_quote]) ].

Lemma getInt_segments s0 before K num t tl after def :
  DQ ∉ K → ":"%char ∉ K → DQ ∉ s0 → Forall (λ s, (DQ ∉ s) ∧ s ≠ K) before →
  num ≠ [] →
  Forall (λ c, isspace c = false ∧ contains c (str "," ++ LF :: str "}") = false) num →
  contains t (str "," ++ LF :: str "}") = true →
  getInt (joinDQ (s0 :: before ++ K :: (str ": " ++ num ++ t :: tl) :: after)) K def
  = default def (stoi num).
Proof.
  intros HK Hcolon Hs0 Hbefore Hne Hnum Ht. rewrite joinDQ_split.
  assert (Hrest : ∃ more, joinDQ ((str ": " ++ num ++ t :: tl) :: after)
                          = str ": " ++ num ++ t :: more).
  { destruct after as [|a after].
    - by exists tl.
    - rewrite joinDQ_cons. exists (tl ++ DQ :: joinDQ (a :: after)). by norm_app. }
  destruct Hrest as [more Hmore]. rewrite Hmore.
  eapply (getInt_at _ K def (joinDQ (s0 :: before)) num t more); try done.
  rewrite <- Hmore. by apply find_sub_joinDQ.
Qed.

Lemma int_field_read s0 before K z t tl after def :
  DQ ∉ K → ":"%char ∉ K → DQ ∉ s0 → Forall (λ s, (DQ ∉ s) ∧ s ≠ K) before →
  contains t (str "," ++ LF :: str "}") = true →
  INT_MIN ≤ z ≤ INT_MAX →
  getInt (joinDQ (s0 :: before ++ K :: (str ": " ++ to_string z ++ t :: tl) :: after)) K def = z.
Proof.
  intros HK Hcolon Hs0 Hbefore Ht Hz.
  destruct (to_string_chars z) as (H1 & H2 & _).
  rewrite getInt_segments by done. by rewrite stoi_to_string.
Qed.

Ltac segments_before :=
  repeat first
    [ apply Forall_nil_2
    | apply Forall_cons; split; [split; [no_quote|vm_compute; discriminate]|] ].

(** Reads one field with a lemma about the segments. *)
Ltac field_read k v lem :=
  match goal with
  | |- context [getInt ?J k ?d] =>
      let H := fresh "Hfield" in
      assert (H : getInt J k d = v)
        by (apply lem; [no_quote|no_quote|no_quote|segments_before|reflexivity|done]);
      rewrite H; clear H
  end.

(** X28.  [Config::fromJSON] reads back from the text [Config::toJSON]
    writes the base and the three widths, whatever [int]s they are -- and
    never the prefix: the quoted prefix is one character long where
    [fromJSON] looks for the second, so the prefix read is the default [x]
    for every configuration. *)
Theorem fromJSON_toJSON_loses_prefix (c : Config) :
  INT_MIN ≤ cfg_base c ≤ INT_MAX →
  INT_MIN ≤ widthBank c ≤ INT_MAX →
  INT_MIN ≤ widthReg c ≤ INT_MAX →
  INT_MIN ≤ widthAddr c ≤ INT_MAX →
  fromJSON (toJSON c)
  = {| cfg_prefix := "x"; cfg_base := cfg_base c; widthBank := widthBank c;
       widthReg := widthReg c; widthAddr := widthAddr c |}.
Proof.
  intros Hb Hwb Hwr Hwa. rewrite toJSON_segments. unfold fromJSON, configSegments.
  set (s0 := str "{" ++ LF :: str "  ").
  set (gap := str "," ++ LF :: str "  ").
  assert (Hgap : ∀ z, str ": " ++ to_string z ++ str "," ++ LF :: str "  "
                      = str ": " ++ to_string z ++ ","%char :: (LF :: str "  ")) by done.
  rewrite !Hgap.
  destruct (to_string_chars (cfg_base c)) as (_ & _ & Q1).
  destruct (to_string_chars (widthBank c)) as (_ & _ & Q2).
  destruct (to_string_chars (widthReg c)) as (_ & _ & Q3).
  destruct (to_string_chars (widthAddr c)) as (_ & _ & Q4).
  destruct (decide (cfg_prefix c = DQ)) as [Hp|Hp]; cbn [app].
  - field_read (str "base") (cfg_base c)
      (int_field_read s0 [str "prefix"; str ": "; []; []; gap] (str "base")).
    field_read (str "widthBank") (widthBank c)
      (int_field_read s0 [str "prefix"; str ": "; []; []; gap; str "base";
                          str ": " ++ to_string (cfg_base c) ++ gap] (str "widthBank")).
    field_read (str "widthReg") (widthReg c)
      (int_field_read s0 [str "prefix"; str ": "; []; []; gap; str "base";
                          str ": " ++ to_string (cfg_base c) ++ gap; str "widthBank";
                          str ": " ++ to_string (widthBank c) ++ gap] (str "widthReg")).
    field_read (str "widthAddr") (widthAddr c)
      (int_field_read s0 [str "prefix"; str ": "; []; []; gap; str "base";
                          str ": " ++ to_string (cfg_base c) ++ gap; str "widthBank";
                          str ": " ++ to_string (widthBank c) ++ gap; str "widthReg";
                          str ": " ++ to_string (widthReg c) ++ gap] (str "widthAddr")
         (widthAddr c) LF (str "}" ++ [LF]) []).
    match goal with
    | |- context [quotedValue (joinDQ (?x0 :: ?x1 :: ?x2 :: ?v1 :: ?v2 :: ?rest)) ?k ?d] =>
        assert (Hq : quotedValue (joinDQ (x0 :: x1 :: x2 :: v1 :: v2 :: rest)) k d = [])
          by (apply (quotedValue_at _ (str "prefix") _ s0 [] (str " ") []
                       (DQ :: joinDQ rest));
              [by norm_app
              |apply (find_sub_joinDQ (str "prefix") s0 []); [no_quote|no_quote|constructor]
              |no_quote..])
    end.
    by rewrite Hq.
  - field_read (str "base") (cfg_base c)
      (int_field_read s0 [str "prefix"; str ": "; [cfg_prefix c]; gap] (str "base")).
    field_read (str "widthBank") (widthBank c)
      (int_field_read s0 [str "prefix"; str ": "; [cfg_prefix c]; gap; str "base";
                          str ": " ++ to_string (cfg_base c) ++ gap] (str "widthBank")).
    field_read (str "widthReg") (widthReg c)
      (int_field_read s0 [str "prefix"; str ": "; [cfg_prefix c]; gap; str "base";
                          str ": " ++ to_string (cfg_base c) ++ gap; str "widthBank";
                          str ": " ++ to_string (widthBank c) ++ gap] (str "widthReg")).
    field_read (str "widthAddr") (widthAddr c)
      (int_field_read s0 [str "prefix"; str ": "; [cfg_prefix c]; gap; str "base";
                          str ": " ++ to_string (cfg_base c) ++ gap; str "widthBank";
                          str ": " ++ to_string (widthBank c) ++ gap; str "widthReg";
                          str ": " ++ to_string (widthReg c) ++ gap] (str "widthAddr")
         (widthAddr c) LF (str "}" ++ [LF]) []).
    match goal with
    | |- context [quotedValue (joinDQ (?x0 :: ?x1 :: ?x2 :: ?v1 :: ?rest)) ?k ?d] =>
        assert (Hq : quotedValue (joinDQ (x0 :: x1 :: x2 :: v1 :: rest)) k d = [cfg_prefix c])
          by (apply (quotedValue_at _ (str "prefix") _ s0 [] (str " ") [cfg_prefix c]
                       (joinDQ rest));
              [by norm_app
              |apply (find_sub_joinDQ (str "prefix") s0 []); [no_quote|no_quote|constructor]
              |no_quote..])
    end.
    by rewrite Hq.
Qed.

Lemma fromJSON_toJSON_loses_prefix_witness :
  fromJSON (toJSON (Build_Config "y" 16 5 2 4))
  = {| cfg_prefix := "x"; cfg_base := 16; widthBank := 5; widthReg := 2; widthAddr := 4 |}.
Proof.
  apply (fromJSON_toJSON_loses_prefix (Build_Config "y" 16 5 2 4));
    cbn; unfold INT_MIN, INT_MAX; lia.
Defined.

(** ** A bank written with its values resolved *)

Lemma entries_singleton {A} (k : Z) (v : A) : entries ({[ k := v ]} : gmap Z A) = [(k, v)].
Proof.
  apply Permutation_singleton_r. rewrite entries_Permutation.
  by rewrite map_to_list_singleton.
Qed.

Lemma length_entries {A} (m : gmap Z A) : length (entries m) = size m.
Proof. rewrite entries_Permutation. apply length_map_to_list. Qed.

Section ResolvedTextProofs.
Variable cwd : text.
Variable cfg : Config.
Variable fs : FS.
Hypothesis Hprefix : regex_ordinary (cfg_prefix cfg) = true.

Lemma resolveAddrs_plain fuel bank (es : list (Z * text)) ws :
  Forall (λ e, plain e.2) es →
  resolveAddrs cwd cfg fs (S fuel) bank es ws = (Ret (concat (addrLine cfg <$> es)), ws).
Proof.
  induction 1 as [|e es [He1 He2] _ IH]; [done|].
  cbn [resolveAddrs]. unfold bind. rewrite resolve_without by done. rewrite IH.
  unfold ret, addrLine. cbn [fmap list_fmap concat]. f_equal. f_equal.
  by norm_app.
Qed.

Lemma resolveRegs_plain fuel bank many (rs : list (Z * gmap Z text)) ws :
  Forall (λ r, Forall (λ e : Z * text, plain e.2) (entries r.2)) rs →
  resolveRegs cwd cfg fs (S fuel) bank many rs ws
  = (Ret (concat ((λ r, (if many then toBaseN r.1 (cfg_base cfg) (widthReg cfg) ++ [LF]
                         else []) ++ addrLines cfg r.2) <$> rs)), ws).
Proof.
  induction 1 as [|r rs Hr _ IH]; [done|].
  cbn [resolveRegs]. unfold bind. rewrite resolveAddrs_plain by done. rewrite IH.
  unfold ret. cbn [fmap list_fmap concat]. f_equal. f_equal.
  unfold addrLines. by norm_app.
Qed.
End ResolvedTextProofs.

(** X29.  For a configuration whose prefix is an ordinary pattern character
    and a recursion budget of 1 or more: on a bank of the workspace whose
    values hold no dot and no at-sign, [resolveBankToText] writes what
    [writeBankText] writes, but for one case: a bank with a single register
    is written without the register line whatever the number of the register,
    that is, as if its cells were in register 1.  The workspace is left as it
    is. *)
Theorem resolveBankToText_plain_bank (cwd : text) (cfg : Config) (fs : FS) (fuel : nat)
    (bankId : Z) (ws : Workspace) (b : Bank) :
  regex_ordinary (cfg_prefix cfg) = true →
  banks ws !! bankId = Some b →
  (∀ r addrs a v, regs b !! r = Some addrs → addrs !! a = Some v → plain v) →
  resolveBankToText cwd cfg fs (S fuel) bankId ws = (Ret (writeBankText (compactBank b) cfg), ws).
Proof.
  intros Hprefix Hb Hplain. unfold resolveBankToText. rewrite (bank_at_present ws bankId b Hb).
  assert (Hall : Forall (λ r : Z * gmap Z text,
                    Forall (λ e : Z * text, plain e.2) (entries r.2)) (entries (regs b))).
  { apply Forall_forall. intros [r addrs] Hr. apply elem_of_entries in Hr.
    apply Forall_forall. intros [a v] Ha. apply elem_of_entries in Ha. by eapply Hplain. }
  unfold bind. rewrite resolveRegs_plain by done. unfold ret. f_equal. f_equal.
  unfold writeBankText, compactBank, isMulti.
  pose proof (length_entries (regs b)) as Hsize.
  destruct (entries (regs b)) as [|[r addrs] [|e2 es]] eqn:E.
  - rewrite bool_decide_eq_false_2 by (cbn in Hsize; lia). rewrite E.
    assert (Hnone : regs b !! 1 = None).
    { apply not_elem_of_fst_entries. rewrite E. apply not_elem_of_nil. }
    by rewrite Hnone.
  - rewrite bool_decide_eq_false_2 by (cbn in Hsize; lia).
    cbn [regs bank_id bank_title]. rewrite entries_singleton. cbn [fst].
    change (negb (1 =? 1)) with false. cbv iota. rewrite lookup_singleton_eq.
    cbn [fmap list_fmap concat snd]. by rewrite app_nil_r.
  - rewrite bool_decide_eq_true_2 by (cbn in Hsize; lia). rewrite E.
    assert (Hext : ∀ l : list (Z * gmap Z text),
              (λ r0 : Z * gmap Z text,
                 (toBaseN r0.1 (cfg_base cfg) (widthReg cfg) ++ [LF]) ++ addrLines cfg r0.2)
              <$> l = regBlock cfg <$> l).
    { intros l. apply list_fmap_ext. intros i x _. unfold regBlock. by norm_app. }
    by rewrite Hext.
Qed.

Lemma resolveBankToText_plain_bank_witness :
  let B := {| bank_id := 1; bank_title := str "demo";
              regs := {[ 2 := {[ 3 := str "World" ]} ]} |} in
  let W := {| banks := {[ 1 := B ]}; filenames := ∅ |} in
  resolveBankToText (str "/w") defaultConfig ∅ 1 1 W
  = (Ret (writeBankText (compactBank B) defaultConfig), W).
Proof.
  intros B W.
  apply (resolveBankToText_plain_bank (str "/w") defaultConfig ∅ 0 1 W B).
  - reflexivity.
  - reflexivity.
  - intros r addrs a v Hr Ha. unfold B in Hr. cbn [regs] in Hr.
    apply lookup_singleton_Some in Hr as [<- <-].
    apply lookup_singleton_Some in Ha as [<- <-].
    split; apply (bool_decide_unpack _); vm_compute; reflexivity.
Defined.

(** The bank of the example: its cell is in register 2, and the text shows
    no register. *)
Example resolved_text_example :
  (resolveBankToText (str "/w") defaultConfig ∅ 1 1
     {| banks := {[ 1 := {| bank_id := 1; bank_title := str "demo";
                            regs := {[ 2 := {[ 3 := str "World" ]} ]} |} ]};
        filenames := ∅ |}).1
  = Ret (str "x00001" ++ TAB :: str "(demo){" ++ LF ::
         TAB :: str "0003" ++ TAB :: str "World" ++ LF :: str "}" ++ [LF]).
Proof. vm_compute. reflexivity. Qed.

(** ** Plugin manifests *)

Lemma separator_not_key (f : text) (k : ascii) (K : text) :
  Forall (λ c, isalpha c = false) f → isalpha k = true → f ≠ k :: K.
Proof. intros Hf Hk ->. apply Forall_cons in Hf as [Hf _]. congruence. Qed.

Lemma find_sub_segments K s0 before s1 after :
  DQ ∉ K → DQ ∉ s0 → Forall (λ s, (DQ ∉ s) ∧ s ≠ K) before →
  find_sub (quoted K) (joinDQ (s0 :: before ++ K :: s1 :: after))
  = Some (length (joinDQ (s0 :: before))).
Proof. intros. rewrite joinDQ_split. by apply find_sub_joinDQ. Qed.

(** X30.  [loadManifest] reads the three fields of a manifest written as
    the help text shows it, [{ "name": "N", "entry_win": "W", "entry_lin":
    "L" }], whatever the text between the quoted parts, as long as that text
    holds no letter and no double quote (and no colon between a key and its
    colon) and the values hold no double quote.  The keys are searched as text, so a value
    that spells a later key would be taken for it: the name must not be
    [entry_win] or [entry_lin], nor the Windows entry [entry_lin]. *)
Theorem loadManifest_reads_documented_form (cwd : text) (fs : FS) (dir : text)
    (f0 m1 s1 N f1 m2 s2 W f2 m3 s3 L f3 : text) :
  readTextFile cwd fs (path_join dir (str "plugin.json"))
  = Ret (Some (f0 ++ quoted (str "name") ++ m1 ++ ":"%char :: s1 ++ quoted N ++
               f1 ++ quoted (str "entry_win") ++ m2 ++ ":"%char :: s2 ++ quoted W ++
               f2 ++ quoted (str "entry_lin") ++ m3 ++ ":"%char :: s3 ++ quoted L ++ f3)) →
  Forall (λ f, Forall (λ c, isalpha c = false) f ∧ DQ ∉ f) [f0; m1; s1; f1; m2; s2; f2; m3; s3] →
  Forall (λ m, ":"%char ∉ m) [m1; m2; m3] →
  Forall (λ v, DQ ∉ v) [N; W; L] →
  N ≠ str "entry_win" → N ≠ str "entry_lin" → W ≠ str "entry_lin" →
  loadManifest cwd fs dir
  = Ret {| pm_name := N; entry_win := W; entry_lin := L; pm_dir := dir |}.
Proof.
  intros Hread Hsep Hcolon Hval HN1 HN2 HW.
  repeat (apply Forall_cons in Hsep as [[? ?] Hsep]).
  repeat (apply Forall_cons in Hcolon as [? Hcolon]).
  repeat (apply Forall_cons in Hval as [? Hval]).
  unfold loadManifest. rewrite Hread. cbn [default]. unfold manifestOf. f_equal.
  set (j := f0 ++ _).
  assert (Hj : j = joinDQ [f0; str "name"; m1 ++ ":"%char :: s1; N; f1; str "entry_win";
                           m2 ++ ":"%char :: s2; W; f2; str "entry_lin";
                           m3 ++ ":"%char :: s3; L; f3]).
  { unfold j, quoted. cbn [joinDQ]. by norm_app. }
  assert (Hkey : ∀ m s (K : text), ":"%char ∈ m ++ ":"%char :: s)
    by (intros; apply elem_of_app; right; by left).
  assert (Hgap : ∀ m s,
            DQ ∉ m → DQ ∉ s → DQ ∉ m ++ ":"%char :: s).
  { intros m s Hm Hs. rewrite not_elem_of_app, not_elem_of_cons. by repeat split. }
  assert (Hne : ∀ m s K, ":"%char ∉ K → m ++ ":"%char :: s ≠ K).
  { intros m s K HK E. apply HK. rewrite <- E. apply elem_of_app. right. by left. }
  f_equal.
  - unfold jsonGetStr.
    apply (quotedValue_at j (str "name") [] f0 m1 s1 N
             (joinDQ [f1; str "entry_win"; m2 ++ ":"%char :: s2; W; f2; str "entry_lin";
                      m3 ++ ":"%char :: s3; L; f3])); try done.
    + rewrite Hj. unfold quoted. cbn [joinDQ]. by norm_app.
    + rewrite Hj.
      apply (find_sub_segments (str "name") f0 [] (m1 ++ ":"%char :: s1));
        [|done|constructor].
      apply (bool_decide_unpack _). by vm_compute.
    + apply (bool_decide_unpack _). by vm_compute.
  - unfold jsonGetStr.
    apply (quotedValue_at j (str "entry_win") []
             (joinDQ [f0; str "name"; m1 ++ ":"%char :: s1; N; f1]) m2 s2 W
             (joinDQ [f2; str "entry_lin"; m3 ++ ":"%char :: s3; L; f3])); try done.
    + rewrite Hj. unfold quoted. cbn [joinDQ]. by norm_app.
    + rewrite Hj.
      apply (find_sub_segments (str "entry_win") f0
               [str "name"; m1 ++ ":"%char :: s1; N; f1] (m2 ++ ":"%char :: s2));
        [apply (bool_decide_unpack _); by vm_compute|done|].
      repeat (apply Forall_cons; split; [split|]); try done; try apply Forall_nil_2.
      * apply (bool_decide_unpack _). by vm_compute.
      * by apply Hgap.
      * apply Hne. apply (bool_decide_unpack _). by vm_compute.
      * by apply separator_not_key.
    + apply (bool_decide_unpack _). by vm_compute.
  - unfold jsonGetStr.
    apply (quotedValue_at j (str "entry_lin") []
             (joinDQ [f0; str "name"; m1 ++ ":"%char :: s1; N; f1; str "entry_win";
                      m2 ++ ":"%char :: s2; W; f2]) m3 s3 L f3); try done.
    + rewrite Hj. unfold quoted. cbn [joinDQ]. by norm_app.
    + rewrite Hj.
      apply (find_sub_segments (str "entry_lin") f0
               [str "name"; m1 ++ ":"%char :: s1; N; f1; str "entry_win";
                m2 ++ ":"%char :: s2; W; f2] (m3 ++ ":"%char :: s3) [L; f3]);
        [apply (bool_decide_unpack _); by vm_compute|done|].
      repeat (apply Forall_cons; split; [split|]); try done; try apply Forall_nil_2.
      * apply (bool_decide_unpack _). by vm_compute.
      * by apply Hgap.
      * apply Hne. apply (bool_decide_unpack _). by vm_compute.
      * by apply separator_not_key.
      * apply (bool_decide_unpack _). by vm_compute.
      * by apply Hgap.
      * apply Hne. apply (bool_decide_unpack _). by vm_compute.
      * by apply separator_not_key.
    + apply (bool_decide_unpack _). by vm_compute.
Qed.

Lemma loadManifest_reads_documented_form_witness :
  loadManifest (str "/w")
    {[ str "/w/plugins/py/plugin.json" :=
         File true true
           (str "{ " ++ quoted (str "name") ++ [] ++ ":"%char :: str " " ++ quoted (str "python") ++
            str ", " ++ quoted (str "entry_win") ++ [] ++ ":"%char :: str " "
            ++ quoted (str "run.bat") ++
            str ", " ++ quoted (str "entry_lin") ++ [] ++ ":"%char :: str " "
            ++ quoted (str "run.sh") ++ str " }") ]}
    (str "plugins/py")
  = Ret {| pm_name := str "python"; entry_win := str "run.bat"; entry_lin := str "run.sh";
           pm_dir := str "plugins/py" |}.
Proof.
  apply (loadManifest_reads_documented_form (str "/w") _ (str "plugins/py")
           (str "{ ") [] (str " ") (str "python") (str ", ") [] (str " ") (str "run.bat")
           (str ", ") [] (str " ") (str "run.sh") (str " }")).
  - reflexivity.
  - repeat (apply Forall_cons; split;
            [split; [by repeat constructor|apply (bool_decide_unpack _); by vm_compute]|]).
    apply Forall_nil_2.
  - repeat (apply Forall_cons; split; [apply not_elem_of_nil|]). apply Forall_nil_2.
  - repeat (apply Forall_cons; split; [apply (bool_decide_unpack _); by vm_compute|]).
    apply Forall_nil_2.
  - discriminate.
  - discriminate.
  - discriminate.
Defined.

(** ** The prefixed three-part pass with a prefix that is not ordinary *)

Lemma takewhile_dropwhile_nil {A} (p : A → bool) (s : list A) :
  takewhile p (dropwhile p s) = [].
Proof.
  induction s as [|c s IH]; [done|]. cbn [dropwhile].
  destruct (p c) eqn:E; [done|]. cbn [takewhile]. by rewrite E.
Qed.

(** After a token found at the start of the text, the pattern built from the
    prefix [^] does not match again: the character after the token is not
    alphanumeric.  This is why the pass for that prefix replaces one token at
    most. *)
Lemma match_bol3_once s m :
  match_bol3 s = Some m →
  s = m0 m ++ drop (length (m0 m)) s
  ∧ match_bol3 (drop (length (m0 m)) s) = None.
Proof.
  unfold match_bol3.
  destruct (run_dot isalnum s) as [[a s2]|] eqn:E1; [|done].
  destruct (run_dot isalnum s2) as [[b s3]|] eqn:E2; [|done].
  apply run_dot_some in E1 as (-> & _ & _). apply run_dot_some in E2 as (-> & _ & _).
  pose proof (takewhile_dropwhile isalnum s3) as Hs3.
  pose proof (takewhile_dropwhile_nil isalnum s3) as Hnil.
  destruct (takewhile isalnum s3) as [|x d] eqn:E3; [done|].
  intros [= <-]. cbn [m0].
  assert (Hdrop : drop (length (a ++ "."%char :: b ++ "."%char :: x :: d))
                    (a ++ "."%char :: b ++ "."%char :: s3) = dropwhile isalnum s3).
  { rewrite Hs3 at 1.
    replace (a ++ "."%char :: b ++ "."%char :: (x :: d) ++ dropwhile isalnum s3)
      with ((a ++ "."%char :: b ++ "."%char :: x :: d) ++ dropwhile isalnum s3)
      by (rewrite <- !app_assoc; cbn [app]; by rewrite <- !app_assoc).
    by rewrite drop_app_length. }
  rewrite Hdrop. split.
  - rewrite Hs3 at 1. rewrite <- !app_assoc. cbn [app]. by rewrite <- !app_assoc.
  - unfold run_dot. by rewrite Hnil.
Qed.

(** What the pass does with each kind of prefix, on the store and file
    system that hold nothing (every reference is to a missing cell): an
    ordinary prefix, here a closing bracket, stands for itself; the dot
    matches any character but a line terminator; the caret matches at the
    start only; the dollar sign matches nothing; the bar does not return; the
    opening parenthesis throws. *)
Example pref3Pass_prefix_example :
  let pass p s :=
    (pref3Pass (str "/w") (Build_Config p 10 5 2 4) ∅ (λ v _ _, ret v) ∅ (str s)
       emptyWorkspace).1 in
  pass "]"%char "]1.2.3 }4.5.6" = Ret (str "[Missing ]1.2.3] }4.5.6")
  ∧ pass "."%char "]1.2.3 }4.5.6" = Ret (str "[Missing ]1.2.3] [Missing }4.5.6]")
  ∧ pass "."%char "a.b.c.d.e.f.g" = Ret (str "a.b.c.d.e.f.g")
  ∧ pass "."%char "ab1.2.3.4.5.6" = Ret (str "ab1.2.3[Missing .4.5.6]")
  ∧ pass "^"%char "1.2.3 4.5.6" = Ret (str "[Missing 1.2.3] 4.5.6")
  ∧ pass "^"%char " 1.2.3" = Ret (str " 1.2.3")
  ∧ pass "$"%char "$1.2.3" = Ret (str "$1.2.3")
  ∧ pass "|"%char "|1.2.3" = OutOfFuel
  ∧ pass "("%char "(1.2.3" = Throw regex_error.
Proof. repeat split; vm_compute; reflexivity. Qed.
